(** * The launcher of the test runner: process schedule and result aggregation

    A shallow embedding of [class Launcher] (the launcher module of the
    repository): the schedule of capabilities and its two dispatch loops
    ([runTestcases], [runSpecs]), the exit handler of a worker process
    ([endHandler]), and the message handler that aggregates the events of
    the workers ([messageHandler], [evaluateValidations]).

    JavaScript numbers that count things (instances, failures, levels) are
    integers of [Z]; arrays are lists; [undefined] is [None].  A string
    holds the bytes of the UTF-8 encoding of the JavaScript string.  An
    object used as a dictionary is a [gmap] of its own properties, keyed
    by strings; a key that the object does not have is looked up among
    the properties that every plain object inherits from
    [Object.prototype] ([property]).  The launcher object is threaded
    through every method as a state of type [Launcher], and a method that
    can throw returns a [result]. *)

From Stdlib Require Import ZArith Lia Permutation Ascii String.
From stdpp Require Import base gmap list sorting strings pretty.

Open Scope Z_scope.

(** ** Strings as the code uses them *)

Module Js.

(** The line feed of ['\n']. *)
Definition nl : string := String "010"%char EmptyString.

(** [s.indexOf(pat)]: position of the first occurrence, [-1] without one. *)
Definition indexOf (s pat : string) : Z :=
  match String.index 0 pat s with
  | Some i => Z.of_nat i
  | None => -1
  end.

Fixpoint lastIndexOfFrom (c : ascii) (s : string) (i acc : Z) : Z :=
  match s with
  | EmptyString => acc
  | String a s' => lastIndexOfFrom c s' (i + 1) (if Ascii.eqb a c then i else acc)
  end.

(** [s.lastIndexOf('\n')]. *)
Definition lastIndexOf_nl (s : string) : Z := lastIndexOfFrom "010"%char s 0 (-1).

(** [s.substring(0, n)] for [0 <= n]. *)
Definition substring0 (s : string) (n : Z) : string :=
  String.substring 0 (Z.to_nat n) s.

(** [s.split('\n')]: never the empty array. *)
Fixpoint split_nl (s : string) : list string :=
  match s with
  | EmptyString => [EmptyString]
  | String a s' =>
      if Ascii.eqb a "010"%char then EmptyString :: split_nl s'
      else match split_nl s' with
           | [] => [String a EmptyString]
           | h :: t => String a h :: t
           end
  end.

(** [lines.join('\n')]. *)
Fixpoint join_nl (l : list string) : string :=
  match l with
  | [] => EmptyString
  | [x] => x
  | x :: l' => x +:+ nl +:+ join_nl l'
  end.

(** The white space and the line terminators that [String.prototype.trim]
    and [parseInt] skip, by the bytes of their encoding: U+0009 to U+000D
    and U+0020 in one byte; U+00A0 in two ([C2 A0]); U+1680 ([E1 9A 80]),
    U+2000 to U+200A ([E2 80 80] to [E2 80 8A]), U+2028 and U+2029
    ([E2 80 A8], [E2 80 A9]), U+202F ([E2 80 AF]), U+205F ([E2 81 9F]),
    U+3000 ([E3 80 80]) and U+FEFF ([EF BB BF]) in three. *)
Definition space1 (a : ascii) : bool :=
  let n := nat_of_ascii a in
  (Nat.eqb n 32 || (Nat.leb 9 n && Nat.leb n 13))%bool.

Definition space2 (a b : ascii) : bool :=
  (Nat.eqb (nat_of_ascii a) 194 && Nat.eqb (nat_of_ascii b) 160)%bool.

Definition space3 (a b c : ascii) : bool :=
  let x := nat_of_ascii a in
  let y := nat_of_ascii b in
  let z := nat_of_ascii c in
  ((Nat.eqb x 225 && Nat.eqb y 154 && Nat.eqb z 128)
   || (Nat.eqb x 226 && Nat.eqb y 128
       && ((Nat.leb 128 z && Nat.leb z 138) || Nat.eqb z 168 || Nat.eqb z 169 || Nat.eqb z 175))
   || (Nat.eqb x 226 && Nat.eqb y 129 && Nat.eqb z 159)
   || (Nat.eqb x 227 && Nat.eqb y 128 && Nat.eqb z 128)
   || (Nat.eqb x 239 && Nat.eqb y 187 && Nat.eqb z 191))%bool.

(** The string without the white space it begins with; [two] and [three]
    recognise the white space of two and of three bytes. *)
Fixpoint strip (two : ascii → ascii → bool) (three : ascii → ascii → ascii → bool)
    (s : string) : string :=
  match s with
  | EmptyString => EmptyString
  | String a s1 =>
      if space1 a then strip two three s1
      else match s1 with
           | EmptyString => s
           | String b s2 =>
               if two a b then strip two three s2
               else match s2 with
                    | EmptyString => s
                    | String c s3 => if three a b c then strip two three s3 else s
                    end
           end
  end.

Definition trimStart (s : string) : string := strip space2 space3 s.

(** The white space at the end is stripped from the reversed string,
    where its bytes come in reverse. *)
Definition trim (s : string) : string :=
  String.rev (strip (λ a b, space2 b a) (λ a b c, space3 c b a) (String.rev (trimStart s))).

(** Truthiness of a value that is a string or [undefined]. *)
Definition truthy (o : option string) : bool :=
  match o with
  | Some s => negb (String.eqb s EmptyString)
  | None => false
  end.

(** [ToString] of a value that is a string or [undefined], as string
    concatenation, template literals and property keys apply it. *)
Definition toString (o : option string) : string :=
  match o with
  | Some s => s
  | None => "undefined"
  end.

(** [Number(b)] of a boolean, as [Array.prototype.sort] applies it to the
    value its comparison function returns. *)
Definition toNumber (b : bool) : Z := if b then 1 else 0.

(** [parseInt(s, 10)]: leading white space, an optional sign, then the
    longest run of decimal digits; [None] is [NaN]. *)
Definition digit (a : ascii) : option Z :=
  let n := nat_of_ascii a in
  if (Nat.leb 48 n && Nat.leb n 57)%bool then Some (Z.of_nat (n - 48)) else None.

Fixpoint digits (s : string) (acc : Z) : Z :=
  match s with
  | EmptyString => acc
  | String a s' =>
      match digit a with
      | Some d => digits s' (10 * acc + d)
      | None => acc
      end
  end.

Definition unsigned (s : string) : option Z :=
  match s with
  | EmptyString => None
  | String a _ => match digit a with Some _ => Some (digits s 0) | None => None end
  end.

Definition parseInt (s : string) : option Z :=
  match trimStart s with
  | String "-"%char s' => Z.opp <$> unsigned s'
  | String "+"%char s' => unsigned s'
  | s' => unsigned s'
  end.

(** The names of the properties of [Object.prototype].  Every plain
    object inherits them: [key in obj] holds for them and [obj[key]] is a
    function (for [__proto__], [Object.prototype] itself), whether or not
    [obj] has a property of that name of its own. *)
Definition objectPrototype : list string :=
  ["constructor"; "__defineGetter__"; "__defineSetter__"; "hasOwnProperty";
   "__lookupGetter__"; "__lookupSetter__"; "isPrototypeOf"; "propertyIsEnumerable";
   "toString"; "valueOf"; "__proto__"; "toLocaleString"].

Definition inherited (key : string) : bool := existsb (String.eqb key) objectPrototype.
Arguments inherited : simpl never.

End Js.

(** ** Exceptions and results *)

Inductive Exn : Type :=
| TypeError (what : string)
| SyntaxError (what : string)
| LoopBound
| Beyond (what : string).
(** [LoopBound] is no JavaScript exception: a [while] loop of the model ran
    out of its bound of turns.  [while_runs] shows that the bound the
    dispatch functions pass is never reached.

    [Beyond] is no JavaScript exception either.  The code has taken a
    function or an object that is inherited from [Object.prototype] for
    one of its dictionaries or for one of their entries, and goes on to
    read it, to write to it or to pass it on: the model has no value for
    that, and follows the code no further.  No theorem says what the code
    does from there. *)

Inductive result (A : Type) : Type :=
| Ok (a : A)
| Throw (e : Exn).
Arguments Ok {A} a.
Arguments Throw {A} e.

Definition is_Ok {A} (r : result A) : bool :=
  match r with Ok _ => true | Throw _ => false end.

(** ** Plain objects as dictionaries *)

(** [obj[key]] for a plain object [obj] whose own properties are the
    entries of a [gmap]: the value of its own property, or what it
    inherits from [Object.prototype] under that name, or [undefined]. *)
Inductive Property (V : Type) : Type :=
| Own (v : V)
| Inherited
| Undefined.
Arguments Own {V} v.
Arguments Inherited {V}.
Arguments Undefined {V}.

Definition property {V} (obj : gmap string V) (key : string) : Property V :=
  match obj !! key with
  | Some v => Own v
  | None => if Js.inherited key then Inherited else Undefined
  end.

(** ** Data model *)

Inductive Status : Type := passed | failed.

Record Screenshot : Type := { shot_filename : string; shot_id : string }.

(** The assertion object of [step:failed], [step:broken] and [validate:*]
    messages.  [a_specObj] maps a story to the criteria it validates. *)
Record Assertion : Type := {
  a_message : option string;
  a_stack : option string;
  a_matcherName : option string;
  a_expected : option string;
  a_actual : option string;
  a_errorType : option string;
  a_specObj : option (list (string * list string));
  a_screenshotFilename : option string;
  a_screenshotId : option string
}.

Definition set_a_message (v : option string) (x : Assertion) : Assertion :=
  Build_Assertion v (a_stack x) (a_matcherName x) (a_expected x) (a_actual x) (a_errorType x)
    (a_specObj x) (a_screenshotFilename x) (a_screenshotId x).
Definition set_a_stack (v : option string) (x : Assertion) : Assertion :=
  Build_Assertion (a_message x) v (a_matcherName x) (a_expected x) (a_actual x) (a_errorType x)
    (a_specObj x) (a_screenshotFilename x) (a_screenshotId x).

(** An entry of a [successes] bucket. *)
Record Success : Type := {
  s_matcherName : option string;
  s_actual : option string;
  s_expected : option string
}.

(** An entry of a [failures] bucket. *)
Record Failure : Type := {
  f_matcherName : option string;
  f_message : option string;
  f_expected : option string;
  f_actual : option string;
  f_stack : option string
}.

(** [story.arguments[criteria]]: only written by the merge of manual
    results, read by [addTestArguments]. *)
Record Arguments : Type := { arg_date : option string; arg_comment : option string }.

(** The record kept per story: four dictionaries keyed by criteria. *)
Record Story : Type := {
  successes : gmap string (list Success);
  failures : gmap string (list Failure);
  arguments : gmap string Arguments;
  screenshots : gmap string (gmap string (list Screenshot))
}.

Definition newStory : Story :=
  {| successes := ∅; failures := ∅; arguments := ∅; screenshots := ∅ |}.

Definition set_successes (f : gmap string (list Success) → gmap string (list Success)) (x : Story) : Story :=
  Build_Story (f (successes x)) (failures x) (arguments x) (screenshots x).
Definition set_failures (f : gmap string (list Failure) → gmap string (list Failure)) (x : Story) : Story :=
  Build_Story (successes x) (f (failures x)) (arguments x) (screenshots x).
Definition set_screenshots (f : gmap string (gmap string (list Screenshot)) → gmap string (gmap string (list Screenshot))) (x : Story) : Story :=
  Build_Story (successes x) (failures x) (arguments x) (f (screenshots x)).

(** [validationStates[group]]. *)
Record ValidationState : Type := {
  storyId : option string;
  criteriaId : option string;
  assertionFailures : option (list Assertion);
  vs_screenshots : option (gmap string (list Screenshot))
}.

Definition newValidationState : ValidationState :=
  {| storyId := None; criteriaId := None; assertionFailures := None; vs_screenshots := None |}.

(** An array that may also carry the property ["-1"]: what
    [levelStatus[levelStatus.length - 1] = 'failed'] writes, and what
    [levelStatus[levelStatus.length - 1]] reads, when the array is empty. *)
Record LevelStatus : Type := { items : list Status; minus_one : option Status }.

Definition newLevelStatus : LevelStatus := {| items := []; minus_one := None |}.

(** [stepStates[group]]. *)
Record StepState : Type := { stepLevel : Z; levelStatus : LevelStatus }.

(** [stepErrors[group]]. *)
Record StepErrors : Type := { se_failed : list Assertion; se_broken : list Assertion }.

(** [m.err]. *)
Record Err : Type := {
  e_message : option string;
  e_stack : option string;
  e_matcherName : option string
}.

(** [m.errs]: the assertions of the steps (execution phase) or a
    [failures] bucket (validation phase). *)
Inductive Errs : Type :=
| ErrsAssertions (l : list Assertion)
| ErrsFailures (l : list Failure).

(** [m.title], by what [JSON.parse] makes of it. *)
Inductive Title : Type :=
| TitleFalsy
| TitleEncoded (title metadata : option string)
| TitleUndecodable
| TitleDecoded (title : option string).

(** A message of a worker process. *)
Record Msg : Type := {
  m_event : string;
  m_cid : option string;
  m_title : Title;
  m_metadata : option string;
  m_specs : option (list string);
  m_spec : option string;
  m_testcase : option string;
  m_validate : option (option string * option string);
  m_status : option Status;
  m_assertion : option Assertion;
  m_err : option Err;
  m_errs : option Errs;
  m_assertionFailures : option (list Assertion);
  m_screenshots : option (gmap string (list Screenshot));
  m_arguments : option Arguments;
  m_stack : option string;
  m_name : option string;
  m_command : option string;
  m_id : option string
}.

Definition set_m_event (v : string) (x : Msg) : Msg :=
  Build_Msg v (m_cid x) (m_title x) (m_metadata x) (m_specs x) (m_spec x) (m_testcase x)
    (m_validate x) (m_status x) (m_assertion x) (m_err x) (m_errs x) (m_assertionFailures x)
    (m_screenshots x) (m_arguments x) (m_stack x) (m_name x) (m_command x) (m_id x).
Definition set_m_cid (v : option string) (x : Msg) : Msg :=
  Build_Msg (m_event x) v (m_title x) (m_metadata x) (m_specs x) (m_spec x) (m_testcase x)
    (m_validate x) (m_status x) (m_assertion x) (m_err x) (m_errs x) (m_assertionFailures x)
    (m_screenshots x) (m_arguments x) (m_stack x) (m_name x) (m_command x) (m_id x).
Definition set_m_title (v : Title) (x : Msg) : Msg :=
  Build_Msg (m_event x) (m_cid x) v (m_metadata x) (m_specs x) (m_spec x) (m_testcase x)
    (m_validate x) (m_status x) (m_assertion x) (m_err x) (m_errs x) (m_assertionFailures x)
    (m_screenshots x) (m_arguments x) (m_stack x) (m_name x) (m_command x) (m_id x).
Definition set_m_metadata (v : option string) (x : Msg) : Msg :=
  Build_Msg (m_event x) (m_cid x) (m_title x) v (m_specs x) (m_spec x) (m_testcase x)
    (m_validate x) (m_status x) (m_assertion x) (m_err x) (m_errs x) (m_assertionFailures x)
    (m_screenshots x) (m_arguments x) (m_stack x) (m_name x) (m_command x) (m_id x).
Definition set_m_spec (v : option string) (x : Msg) : Msg :=
  Build_Msg (m_event x) (m_cid x) (m_title x) (m_metadata x) (m_specs x) v (m_testcase x)
    (m_validate x) (m_status x) (m_assertion x) (m_err x) (m_errs x) (m_assertionFailures x)
    (m_screenshots x) (m_arguments x) (m_stack x) (m_name x) (m_command x) (m_id x).
Definition set_m_testcase (v : option string) (x : Msg) : Msg :=
  Build_Msg (m_event x) (m_cid x) (m_title x) (m_metadata x) (m_specs x) (m_spec x) v
    (m_validate x) (m_status x) (m_assertion x) (m_err x) (m_errs x) (m_assertionFailures x)
    (m_screenshots x) (m_arguments x) (m_stack x) (m_name x) (m_command x) (m_id x).
Definition set_m_status (v : option Status) (x : Msg) : Msg :=
  Build_Msg (m_event x) (m_cid x) (m_title x) (m_metadata x) (m_specs x) (m_spec x)
    (m_testcase x) (m_validate x) v (m_assertion x) (m_err x) (m_errs x)
    (m_assertionFailures x) (m_screenshots x) (m_arguments x) (m_stack x) (m_name x)
    (m_command x) (m_id x).
Definition set_m_assertion (v : option Assertion) (x : Msg) : Msg :=
  Build_Msg (m_event x) (m_cid x) (m_title x) (m_metadata x) (m_specs x) (m_spec x)
    (m_testcase x) (m_validate x) (m_status x) v (m_err x) (m_errs x) (m_assertionFailures x)
    (m_screenshots x) (m_arguments x) (m_stack x) (m_name x) (m_command x) (m_id x).
Definition set_m_err (v : option Err) (x : Msg) : Msg :=
  Build_Msg (m_event x) (m_cid x) (m_title x) (m_metadata x) (m_specs x) (m_spec x)
    (m_testcase x) (m_validate x) (m_status x) (m_assertion x) v (m_errs x)
    (m_assertionFailures x) (m_screenshots x) (m_arguments x) (m_stack x) (m_name x)
    (m_command x) (m_id x).
Definition set_m_errs (v : option Errs) (x : Msg) : Msg :=
  Build_Msg (m_event x) (m_cid x) (m_title x) (m_metadata x) (m_specs x) (m_spec x)
    (m_testcase x) (m_validate x) (m_status x) (m_assertion x) (m_err x) v
    (m_assertionFailures x) (m_screenshots x) (m_arguments x) (m_stack x) (m_name x)
    (m_command x) (m_id x).
Definition set_m_assertionFailures (v : option (list Assertion)) (x : Msg) : Msg :=
  Build_Msg (m_event x) (m_cid x) (m_title x) (m_metadata x) (m_specs x) (m_spec x)
    (m_testcase x) (m_validate x) (m_status x) (m_assertion x) (m_err x) (m_errs x) v
    (m_screenshots x) (m_arguments x) (m_stack x) (m_name x) (m_command x) (m_id x).
Definition set_m_screenshots (v : option (gmap string (list Screenshot))) (x : Msg) : Msg :=
  Build_Msg (m_event x) (m_cid x) (m_title x) (m_metadata x) (m_specs x) (m_spec x)
    (m_testcase x) (m_validate x) (m_status x) (m_assertion x) (m_err x) (m_errs x)
    (m_assertionFailures x) v (m_arguments x) (m_stack x) (m_name x) (m_command x) (m_id x).
Definition set_m_arguments (v : option Arguments) (x : Msg) : Msg :=
  Build_Msg (m_event x) (m_cid x) (m_title x) (m_metadata x) (m_specs x) (m_spec x)
    (m_testcase x) (m_validate x) (m_status x) (m_assertion x) (m_err x) (m_errs x)
    (m_assertionFailures x) (m_screenshots x) v (m_stack x) (m_name x) (m_command x) (m_id x).

(** ** The launcher object *)

(** The fields of the configuration that the launcher reads while it
    schedules and aggregates.  [bail] is [None] when
    [typeof config.bail !== 'number']. *)
Record Config : Type := {
  maxInstances : Z;
  maxInstancesPerCapability : Z;
  bail : option Z;
  reportErrorsInstantly : bool
}.

(** A capability, with the files that [configParser.getTestcases] and
    [configParser.getSpecs] resolve for it. *)
Record Capabilities : Type := {
  cap_maxInstances : option Z;
  cap_testcases : list string;
  cap_specs : list string
}.

(** An entry of [this.schedule].  The entries of phase one carry
    [testcases] and no [specs], those of phase two [specs] and no
    [testcases]. *)
Record ScheduleEntry : Type := {
  cid : Z;
  caps : Capabilities;
  testcases : option (list string);
  specs : option (list string);
  availableInstances : Z;
  runningInstances : Z
}.

Definition set_testcases (v : option (list string)) (x : ScheduleEntry) : ScheduleEntry :=
  Build_ScheduleEntry (cid x) (caps x) v (specs x) (availableInstances x) (runningInstances x).
Definition set_specs (v : option (list string)) (x : ScheduleEntry) : ScheduleEntry :=
  Build_ScheduleEntry (cid x) (caps x) (testcases x) v (availableInstances x)
    (runningInstances x).
Definition set_availableInstances (v : Z) (x : ScheduleEntry) : ScheduleEntry :=
  Build_ScheduleEntry (cid x) (caps x) (testcases x) (specs x) v (runningInstances x).
Definition set_runningInstances (v : Z) (x : ScheduleEntry) : ScheduleEntry :=
  Build_ScheduleEntry (cid x) (caps x) (testcases x) (specs x) (availableInstances x) v.

Inductive Script : Type := RunnerScript | ValidatorScript.

(** A forked child process with the [run] command sent to it. *)
Record Process : Type := {
  p_cid : string;
  p_script : Script;
  p_specs : list (option string);
  p_processNumber : Z;
  p_validationResults : option (gmap string Story)
}.

(** What [reporters.handleEvent] is called with. *)
Inductive Payload : Type :=
| PMessage (m : Msg)
| PEnd (sigint : bool) (code : option Z)
| PStartSpecs (runner : string).

Record Report : Type := { r_event : string; r_payload : Payload }.

(** [this.endHandlerRunFunc]. *)
Inductive RunFunc : Type := RunTestcases | RunSpecs.

(** The fields of [this].  [reported] and [resolved] record, oldest first,
    the calls of [this.reporters.handleEvent] and of [this.resolve];
    [exitCode] is [None] for [null] (a child killed by a signal).
    [this.cidProcesses] is only ever written and is left out. *)
Record Launcher : Type := {
  config : Config;
  isMultiremote : bool;
  exitCode : option Z;
  hasTriggeredExitRoutine : bool;
  hasStartedAnyProcess : bool;
  processes : list Process;
  schedule : list ScheduleEntry;
  rid : gmap Z Z;
  processesStarted : Z;
  runnerFailed : Z;
  finishedTests : bool;
  validationResults : gmap string (gmap string Story);
  validationStates : gmap string ValidationState;
  stepStates : gmap string StepState;
  stackStore : gmap string string;
  stackStoreLocks : gmap string bool;
  stepErrors : gmap string StepErrors;
  waitUntilErrors : gmap string string;
  endHandlerRunFunc : RunFunc;
  reported : list Report;
  resolved : list Z
}.

Definition upd_exitCode (f : option Z → option Z) (x : Launcher) : Launcher :=
  Build_Launcher (config x) (isMultiremote x) (f (exitCode x)) (hasTriggeredExitRoutine x)
    (hasStartedAnyProcess x) (processes x) (schedule x) (rid x) (processesStarted x)
    (runnerFailed x) (finishedTests x) (validationResults x) (validationStates x)
    (stepStates x) (stackStore x) (stackStoreLocks x) (stepErrors x) (waitUntilErrors x)
    (endHandlerRunFunc x) (reported x) (resolved x).
Definition upd_hasTriggeredExitRoutine (f : bool → bool) (x : Launcher) : Launcher :=
  Build_Launcher (config x) (isMultiremote x) (exitCode x) (f (hasTriggeredExitRoutine x))
    (hasStartedAnyProcess x) (processes x) (schedule x) (rid x) (processesStarted x)
    (runnerFailed x) (finishedTests x) (validationResults x) (validationStates x)
    (stepStates x) (stackStore x) (stackStoreLocks x) (stepErrors x) (waitUntilErrors x)
    (endHandlerRunFunc x) (reported x) (resolved x).
Definition upd_hasStartedAnyProcess (f : bool → bool) (x : Launcher) : Launcher :=
  Build_Launcher (config x) (isMultiremote x) (exitCode x) (hasTriggeredExitRoutine x)
    (f (hasStartedAnyProcess x)) (processes x) (schedule x) (rid x) (processesStarted x)
    (runnerFailed x) (finishedTests x) (validationResults x) (validationStates x)
    (stepStates x) (stackStore x) (stackStoreLocks x) (stepErrors x) (waitUntilErrors x)
    (endHandlerRunFunc x) (reported x) (resolved x).
Definition upd_processes (f : list Process → list Process) (x : Launcher) : Launcher :=
  Build_Launcher (config x) (isMultiremote x) (exitCode x) (hasTriggeredExitRoutine x)
    (hasStartedAnyProcess x) (f (processes x)) (schedule x) (rid x) (processesStarted x)
    (runnerFailed x) (finishedTests x) (validationResults x) (validationStates x)
    (stepStates x) (stackStore x) (stackStoreLocks x) (stepErrors x) (waitUntilErrors x)
    (endHandlerRunFunc x) (reported x) (resolved x).
Definition upd_schedule (f : list ScheduleEntry → list ScheduleEntry) (x : Launcher) : Launcher :=
  Build_Launcher (config x) (isMultiremote x) (exitCode x) (hasTriggeredExitRoutine x)
    (hasStartedAnyProcess x) (processes x) (f (schedule x)) (rid x) (processesStarted x)
    (runnerFailed x) (finishedTests x) (validationResults x) (validationStates x)
    (stepStates x) (stackStore x) (stackStoreLocks x) (stepErrors x) (waitUntilErrors x)
    (endHandlerRunFunc x) (reported x) (resolved x).
Definition upd_rid (f : gmap Z Z → gmap Z Z) (x : Launcher) : Launcher :=
  Build_Launcher (config x) (isMultiremote x) (exitCode x) (hasTriggeredExitRoutine x)
    (hasStartedAnyProcess x) (processes x) (schedule x) (f (rid x)) (processesStarted x)
    (runnerFailed x) (finishedTests x) (validationResults x) (validationStates x)
    (stepStates x) (stackStore x) (stackStoreLocks x) (stepErrors x) (waitUntilErrors x)
    (endHandlerRunFunc x) (reported x) (resolved x).
Definition upd_processesStarted (f : Z → Z) (x : Launcher) : Launcher :=
  Build_Launcher (config x) (isMultiremote x) (exitCode x) (hasTriggeredExitRoutine x)
    (hasStartedAnyProcess x) (processes x) (schedule x) (rid x) (f (processesStarted x))
    (runnerFailed x) (finishedTests x) (validationResults x) (validationStates x)
    (stepStates x) (stackStore x) (stackStoreLocks x) (stepErrors x) (waitUntilErrors x)
    (endHandlerRunFunc x) (reported x) (resolved x).
Definition upd_runnerFailed (f : Z → Z) (x : Launcher) : Launcher :=
  Build_Launcher (config x) (isMultiremote x) (exitCode x) (hasTriggeredExitRoutine x)
    (hasStartedAnyProcess x) (processes x) (schedule x) (rid x) (processesStarted x)
    (f (runnerFailed x)) (finishedTests x) (validationResults x) (validationStates x)
    (stepStates x) (stackStore x) (stackStoreLocks x) (stepErrors x) (waitUntilErrors x)
    (endHandlerRunFunc x) (reported x) (resolved x).
Definition upd_finishedTests (f : bool → bool) (x : Launcher) : Launcher :=
  Build_Launcher (config x) (isMultiremote x) (exitCode x) (hasTriggeredExitRoutine x)
    (hasStartedAnyProcess x) (processes x) (schedule x) (rid x) (processesStarted x)
    (runnerFailed x) (f (finishedTests x)) (validationResults x) (validationStates x)
    (stepStates x) (stackStore x) (stackStoreLocks x) (stepErrors x) (waitUntilErrors x)
    (endHandlerRunFunc x) (reported x) (resolved x).
Definition upd_validationResults (f : gmap string (gmap string Story) → gmap string (gmap string Story)) (x : Launcher) : Launcher :=
  Build_Launcher (config x) (isMultiremote x) (exitCode x) (hasTriggeredExitRoutine x)
    (hasStartedAnyProcess x) (processes x) (schedule x) (rid x) (processesStarted x)
    (runnerFailed x) (finishedTests x) (f (validationResults x)) (validationStates x)
    (stepStates x) (stackStore x) (stackStoreLocks x) (stepErrors x) (waitUntilErrors x)
    (endHandlerRunFunc x) (reported x) (resolved x).
Definition upd_validationStates (f : gmap string ValidationState → gmap string ValidationState) (x : Launcher) : Launcher :=
  Build_Launcher (config x) (isMultiremote x) (exitCode x) (hasTriggeredExitRoutine x)
    (hasStartedAnyProcess x) (processes x) (schedule x) (rid x) (processesStarted x)
    (runnerFailed x) (finishedTests x) (validationResults x) (f (validationStates x))
    (stepStates x) (stackStore x) (stackStoreLocks x) (stepErrors x) (waitUntilErrors x)
    (endHandlerRunFunc x) (reported x) (resolved x).
Definition upd_stepStates (f : gmap string StepState → gmap string StepState) (x : Launcher) : Launcher :=
  Build_Launcher (config x) (isMultiremote x) (exitCode x) (hasTriggeredExitRoutine x)
    (hasStartedAnyProcess x) (processes x) (schedule x) (rid x) (processesStarted x)
    (runnerFailed x) (finishedTests x) (validationResults x) (validationStates x)
    (f (stepStates x)) (stackStore x) (stackStoreLocks x) (stepErrors x) (waitUntilErrors x)
    (endHandlerRunFunc x) (reported x) (resolved x).
Definition upd_stackStore (f : gmap string string → gmap string string) (x : Launcher) : Launcher :=
  Build_Launcher (config x) (isMultiremote x) (exitCode x) (hasTriggeredExitRoutine x)
    (hasStartedAnyProcess x) (processes x) (schedule x) (rid x) (processesStarted x)
    (runnerFailed x) (finishedTests x) (validationResults x) (validationStates x)
    (stepStates x) (f (stackStore x)) (stackStoreLocks x) (stepErrors x) (waitUntilErrors x)
    (endHandlerRunFunc x) (reported x) (resolved x).
Definition upd_stackStoreLocks (f : gmap string bool → gmap string bool) (x : Launcher) : Launcher :=
  Build_Launcher (config x) (isMultiremote x) (exitCode x) (hasTriggeredExitRoutine x)
    (hasStartedAnyProcess x) (processes x) (schedule x) (rid x) (processesStarted x)
    (runnerFailed x) (finishedTests x) (validationResults x) (validationStates x)
    (stepStates x) (stackStore x) (f (stackStoreLocks x)) (stepErrors x) (waitUntilErrors x)
    (endHandlerRunFunc x) (reported x) (resolved x).
Definition upd_stepErrors (f : gmap string StepErrors → gmap string StepErrors) (x : Launcher) : Launcher :=
  Build_Launcher (config x) (isMultiremote x) (exitCode x) (hasTriggeredExitRoutine x)
    (hasStartedAnyProcess x) (processes x) (schedule x) (rid x) (processesStarted x)
    (runnerFailed x) (finishedTests x) (validationResults x) (validationStates x)
    (stepStates x) (stackStore x) (stackStoreLocks x) (f (stepErrors x)) (waitUntilErrors x)
    (endHandlerRunFunc x) (reported x) (resolved x).
Definition upd_waitUntilErrors (f : gmap string string → gmap string string) (x : Launcher) : Launcher :=
  Build_Launcher (config x) (isMultiremote x) (exitCode x) (hasTriggeredExitRoutine x)
    (hasStartedAnyProcess x) (processes x) (schedule x) (rid x) (processesStarted x)
    (runnerFailed x) (finishedTests x) (validationResults x) (validationStates x)
    (stepStates x) (stackStore x) (stackStoreLocks x) (stepErrors x) (f (waitUntilErrors x))
    (endHandlerRunFunc x) (reported x) (resolved x).
Definition upd_endHandlerRunFunc (f : RunFunc → RunFunc) (x : Launcher) : Launcher :=
  Build_Launcher (config x) (isMultiremote x) (exitCode x) (hasTriggeredExitRoutine x)
    (hasStartedAnyProcess x) (processes x) (schedule x) (rid x) (processesStarted x)
    (runnerFailed x) (finishedTests x) (validationResults x) (validationStates x)
    (stepStates x) (stackStore x) (stackStoreLocks x) (stepErrors x) (waitUntilErrors x)
    (f (endHandlerRunFunc x)) (reported x) (resolved x).
Definition upd_reported (f : list Report → list Report) (x : Launcher) : Launcher :=
  Build_Launcher (config x) (isMultiremote x) (exitCode x) (hasTriggeredExitRoutine x)
    (hasStartedAnyProcess x) (processes x) (schedule x) (rid x) (processesStarted x)
    (runnerFailed x) (finishedTests x) (validationResults x) (validationStates x)
    (stepStates x) (stackStore x) (stackStoreLocks x) (stepErrors x) (waitUntilErrors x)
    (endHandlerRunFunc x) (f (reported x)) (resolved x).
Definition upd_resolved (f : list Z → list Z) (x : Launcher) : Launcher :=
  Build_Launcher (config x) (isMultiremote x) (exitCode x) (hasTriggeredExitRoutine x)
    (hasStartedAnyProcess x) (processes x) (schedule x) (rid x) (processesStarted x)
    (runnerFailed x) (finishedTests x) (validationResults x) (validationStates x)
    (stepStates x) (stackStore x) (stackStoreLocks x) (stepErrors x) (waitUntilErrors x)
    (endHandlerRunFunc x) (reported x) (f (resolved x)).

(** [new Launcher(configFile, argv)], for a parsed configuration. *)
Definition newLauncher (cfg : Config) (multiremote : bool) : Launcher := {|
  config := cfg;
  isMultiremote := multiremote;
  exitCode := Some 0;
  hasTriggeredExitRoutine := false;
  hasStartedAnyProcess := false;
  processes := [];
  schedule := [];
  rid := ∅;
  processesStarted := 0;
  runnerFailed := 0;
  finishedTests := false;
  validationResults := ∅;
  validationStates := ∅;
  stepStates := ∅;
  stackStore := ∅;
  stackStoreLocks := ∅;
  stepErrors := ∅;
  waitUntilErrors := ∅;
  endHandlerRunFunc := RunTestcases;
  reported := [];
  resolved := []
|}.

(** ** Methods as state transformers that may throw *)

Definition M (A : Type) : Type := Launcher → result (A * Launcher).

Definition ret {A} (a : A) : M A := λ st, Ok (a, st).

Definition bind {A B} (c : M A) (k : A → M B) : M B :=
  λ st, match c st with
        | Ok (a, st') => k a st'
        | Throw e => Throw e
        end.

Definition throw {A} (e : Exn) : M A := λ _, Throw e.

Definition get : M Launcher := λ st, Ok (st, st).

Definition modify (f : Launcher → Launcher) : M unit := λ st, Ok (tt, f st).

Definition lift {A} (r : result A) : M A :=
  λ st, match r with Ok a => Ok (a, st) | Throw e => Throw e end.

Declare Scope launcher_scope.
Delimit Scope launcher_scope with launcher.
Notation "'let!' x ':=' c 'in' k" := (bind c (λ x, k))
  (at level 10, x pattern, c at level 100, k at level 200) : launcher_scope.
Notation "c ';;' k" := (bind c (λ _, k))
  (at level 100, k at level 200, right associativity) : launcher_scope.
Open Scope launcher_scope.

(** [array.filter(callback)] for a callback that reads and writes [this]. *)
Fixpoint filterM {A} (p : A → M bool) (l : list A) : M (list A) :=
  match l with
  | [] => ret []
  | x :: l' =>
      let! keep := p x in
      let! rest := filterM p l' in
      ret (if keep : bool then x :: rest else rest)
  end.

(** [for (const x of array) body(x)]. *)
Fixpoint forM {A} (l : list A) (body : A → M unit) : M unit :=
  match l with
  | [] => ret tt
  | x :: l' => body x;; forM l' body
  end.

(** [this.reporters.handleEvent(event, payload)]. *)
Definition handleEvent (ev : string) (p : Payload) : M unit :=
  modify (upd_reported (λ l, l ++ [{| r_event := ev; r_payload := p |}])).

(** [this.resolve(code)]. *)
Definition resolve (code : Z) : M unit :=
  modify (upd_resolved (λ l, l ++ [code])).

(** ** [Array.prototype.sort]

    The dispatch loops sort the schedulable entries with a comparison
    function.  The language fixes the result of [sort] only for a
    consistent comparison function and leaves the order to the engine
    otherwise, so the launcher is modelled over an engine: any function
    that permutes the array. *)

Record SortEngine : Type := {
  array_sort : ∀ A : Type, (A → A → Z) → list A → list A;
  array_sort_perm : ∀ (A : Type) (comparefn : A → A → Z) (l : list A),
      array_sort A comparefn l ≡ₚ l
}.

(** The engine of Node.js 11 and later (V8 7.0, [third_party/v8/builtins/
    array-sort.tq]): the leading run is counted, reversed when it descends,
    and the elements after it are placed by binary insertion.  An array of
    64 elements or more is cut by V8 into such runs, which are then merged;
    here it is sorted as one run. *)
Module V8.
Section Sort.
Context {A : Type} (comparefn : A → A → Z).

(** The loop of [CountAndMakeRun]: the elements that continue the run
    after [previous], and the elements after the run. *)
Fixpoint extendRun (descending : bool) (previous : A) (l : list A) : list A * list A :=
  match l with
  | [] => ([], [])
  | current :: l' =>
      let order := comparefn current previous in
      if (if descending then 0 <=? order else order <? 0)
      then ([], l)
      else let '(run, rest) := extendRun descending current l' in (current :: run, rest)
  end.

Definition countAndMakeRun (l : list A) : list A * list A :=
  match l with
  | [] => ([], [])
  | [x] => ([x], [])
  | low :: high :: l' =>
      let descending := comparefn high low <? 0 in
      let '(run, rest) := extendRun descending high l' in
      let run := low :: high :: run in
      (if descending then reverse run else run, rest)
  end.

(** The binary search of [BinaryInsertionSort] for the place of [pivot]
    in the sorted part. *)
Fixpoint insertionPoint (steps : nat) (sorted : list A) (pivot : A) (left right : nat) : nat :=
  match steps with
  | O => left
  | S steps' =>
      if (left <? right)%nat then
        let mid := (left + (right - left) / 2)%nat in
        match sorted !! mid with
        | Some x =>
            if comparefn pivot x <? 0
            then insertionPoint steps' sorted pivot left mid
            else insertionPoint steps' sorted pivot (mid + 1)%nat right
        | None => left
        end
      else left
  end.

Fixpoint binaryInsertionSort (sorted rest : list A) : list A :=
  match rest with
  | [] => sorted
  | pivot :: rest' =>
      let left := insertionPoint (length sorted) sorted pivot 0%nat (length sorted) in
      binaryInsertionSort (take left sorted ++ pivot :: drop left sorted) rest'
  end.

Definition sort (l : list A) : list A :=
  if (length l <? 2)%nat then l
  else let '(run, rest) := countAndMakeRun l in binaryInsertionSort run rest.

Lemma extendRun_app descending previous l :
  (extendRun descending previous l).1 ++ (extendRun descending previous l).2 = l.
  Proof.
  revert previous; induction l as [|x l IH]; intros previous; simpl; [done|].
  destruct (if descending then _ else _); [done|].
  specialize (IH x). destruct (extendRun descending x l) as [run rest].
  simpl in *. by rewrite IH.
  Qed.

Lemma countAndMakeRun_perm l :
  (countAndMakeRun l).1 ++ (countAndMakeRun l).2 ≡ₚ l.
  Proof.
  destruct l as [|low [|high l]]; simpl; [done..|].
  pose proof (extendRun_app (comparefn high low <? 0) high l) as H.
  destruct (extendRun _ high l) as [run rest]; simpl in *.
  destruct (comparefn high low <? 0); simpl.
  - rewrite reverse_Permutation. simpl. by rewrite H.
  - by rewrite H.
  Qed.

Lemma binaryInsertionSort_perm sorted rest :
  binaryInsertionSort sorted rest ≡ₚ sorted ++ rest.
  Proof.
  revert sorted; induction rest as [|pivot rest IH]; intros sorted; simpl.
  - by rewrite app_nil_r.
  - rewrite IH. generalize (insertionPoint (length sorted) sorted pivot 0 (length sorted)).
    intros k. transitivity ((take k sorted ++ drop k sorted) ++ pivot :: rest);
      [|by rewrite take_drop].
    rewrite <- !app_assoc. apply Permutation_app_head.
    simpl. by rewrite Permutation_middle.
  Qed.

Lemma sort_perm l : sort l ≡ₚ l.
  Proof.
  unfold sort. destruct (length l <? 2)%nat; [done|].
  pose proof (countAndMakeRun_perm l) as H.
  destruct (countAndMakeRun l) as [run rest]; simpl in *.
  by rewrite binaryInsertionSort_perm.
  Qed.

(** A comparison function that never answers "less" leaves the array as
    it is: the whole array counts as one ascending run. *)
Lemma extendRun_nonneg previous l :
  (∀ a b, 0 <= comparefn a b) → extendRun false previous l = (l, []).
  Proof.
  intros Hc. revert previous; induction l as [|x l IH]; intros previous; simpl; [done|].
  destruct (Z.ltb_spec (comparefn x previous) 0) as [Hlt|_].
  - specialize (Hc x previous). lia.
  - by rewrite IH.
  Qed.

Lemma sort_nonneg l : (∀ a b, 0 <= comparefn a b) → sort l = l.
  Proof.
  intros Hc. unfold sort. destruct (length l <? 2)%nat; [done|].
  destruct l as [|low [|high l]]; simpl; [done..|].
  destruct (Z.ltb_spec (comparefn high low) 0) as [Hlt|_].
  - specialize (Hc high low). lia.
  - by rewrite extendRun_nonneg.
  Qed.
End Sort.

Definition engine : SortEngine :=
  {| array_sort := @sort; array_sort_perm := @sort_perm |}.
End V8.

(** The engine of Node.js 10 and earlier (V8 before 7.0, [src/js/array.js]):
    [InsertionSort], which V8 took for arrays of up to ten elements.  The
    element is moved to the left past every element that the comparison
    function puts after it ([order > 0]).  Longer arrays, which V8 sorted
    by quicksort, are sorted here in the same way. *)
Module LegacyV8.
Section Sort.
Context {A : Type} (comparefn : A → A → Z).

(** The inner loop, on the sorted part from its right end to its left
    end, that is in reverse. *)
Fixpoint place (element : A) (sorted : list A) : list A :=
  match sorted with
  | [] => [element]
  | tmp :: sorted' =>
      if 0 <? comparefn tmp element then tmp :: place element sorted'
      else element :: sorted
  end.

Definition sort (l : list A) : list A :=
  reverse (foldl (λ sorted element, place element sorted) [] l).

Lemma place_perm element sorted : place element sorted ≡ₚ element :: sorted.
Proof.
  induction sorted as [|tmp sorted IH]; simpl; [done|].
  destruct (0 <? _); [|done]. rewrite IH. apply perm_swap.
Qed.

Lemma insertion_perm l : sort l ≡ₚ l.
Proof.
  unfold sort. rewrite reverse_Permutation.
  assert (∀ sorted, foldl (λ sorted element, place element sorted) sorted l ≡ₚ sorted ++ l)
    as H; [|by rewrite H].
  induction l as [|x l IH]; intros sorted; simpl; [by rewrite app_nil_r|].
  rewrite IH, place_perm. simpl. by rewrite Permutation_middle.
Qed.
End Sort.

Definition engine : SortEngine :=
  {| array_sort := @sort; array_sort_perm := @insertion_perm |}.
End LegacyV8.

(** ** The schedule and its dispatch loops *)

Section Scheduler.
Context (engine : SortEngine).

(** [this.schedule.map((a) => a.runningInstances).reduce((a, b) => a + b, 0)] *)
Definition getNumberOfRunningInstances (st : Launcher) : Z :=
  foldl Z.add 0 (runningInstances <$> schedule st).

(** [queue.length], which throws when the entry has no such queue. *)
Definition lengthOf (queue : option (list string)) : result Z :=
  match queue with
  | Some l => Ok (Z.of_nat (length l))
  | None => Throw (TypeError "Cannot read property 'length' of undefined")
  end.

Fixpoint mapR {A B} (f : A → result B) (l : list A) : result (list B) :=
  match l with
  | [] => Ok []
  | x :: l' =>
      match f x with
      | Ok y => match mapR f l' with Ok ys => Ok (y :: ys) | Throw e => Throw e end
      | Throw e => Throw e
      end
  end.

(** [array.reduce((a, b) => a + b)], without an initial value. *)
Definition reduce_add (l : list Z) : result Z :=
  match l with
  | [] => Throw (TypeError "Reduce of empty array with no initial value")
  | x :: l' => Ok (foldl Z.add x l')
  end.

(** [this.schedule.map((a) => a.testcases.length).reduce((a, b) => a + b)] *)
Definition getNumberOfTestcasesLeft (st : Launcher) : result Z :=
  match mapR (λ a, lengthOf (testcases a)) (schedule st) with
  | Ok lengths => reduce_add lengths
  | Throw e => Throw e
  end.

(** [this.schedule.map((a) => a.specs.length).reduce((a, b) => a + b, 0)] *)
Definition getNumberOfSpecsLeft (st : Launcher) : result Z :=
  match mapR (λ a, lengthOf (specs a)) (schedule st) with
  | Ok lengths => Ok (foldl Z.add 0 lengths)
  | Throw e => Throw e
  end.

(** The elements of the filtered arrays are the objects of
    [this.schedule] themselves: a reference is the position of the entry
    in the schedule, read and written through the launcher. *)
Definition entry (r : nat) : M ScheduleEntry :=
  λ st, match schedule st !! r with
        | Some a => Ok (a, st)
        | None => Throw (TypeError "Cannot read property of undefined")
        end.

Definition setEntry (r : nat) (f : ScheduleEntry → ScheduleEntry) : M unit :=
  modify (upd_schedule (alter f r)).

(** [getRunnerId (cid)] *)
Definition getRunnerId (c : Z) : M string :=
  let! st := get in
  let n := default 0 (rid st !! c) in
  modify (upd_rid <[c := n + 1]>);;
  ret (pretty c +:+ "-" +:+ pretty n).

(** [getCidGroup (cid)]: [cid.split('-')[0]] *)
Fixpoint getCidGroup (runner : string) : string :=
  match runner with
  | EmptyString => EmptyString
  | String a s => if Ascii.eqb a "-"%char then EmptyString else String a (getCidGroup s)
  end.

(** [startRunnerInstance (specs, caps, cid, server)]: the child process
    is forked and sent its [run] command.  The debug arguments of the
    fork, taken from [process.execArgv], are not part of the model. *)
Definition startRunnerInstance (specs : list (option string)) (c : Z) : M unit :=
  let! runner := getRunnerId c in
  let! st := get in
  let processNumber := processesStarted st + 1 in
  modify (upd_processes (λ l, l ++ [{| p_cid := runner; p_script := RunnerScript;
                                       p_specs := specs; p_processNumber := processNumber;
                                       p_validationResults := None |}]));;
  modify (upd_processesStarted (λ n, n + 1)).

(** [startValidatorInstance (specs, caps, cid, server)] *)
Definition startValidatorInstance (specs : list (option string)) (c : Z) : M unit :=
  let! runner := getRunnerId c in
  let! st := get in
  let processNumber := processesStarted st + 1 in
  handleEvent "startSpecs" (PStartSpecs runner);;
  modify (upd_processes (λ l, l ++ [{| p_cid := runner; p_script := ValidatorScript;
                                       p_specs := specs; p_processNumber := processNumber;
                                       p_validationResults := validationResults st !! "0" |}]));;
  modify (upd_processesStarted (λ n, n + 1)).

(** The bail filter of [runTestcases]: its callback ignores the element
    it is called for, and empties every queue when it answers [false]. *)
Definition bailFilter : M bool :=
  let! st := get in
  let filter := match bail (config st) with
                | None => true
                | Some b => (b <? 1) || (runnerFailed st <? b)
                end in
  (if filter then ret tt
   else modify (upd_schedule (fmap (set_testcases (Some [])))));;
  ret filter.

(** [(a) => this.getNumberOfRunningInstances() < config.maxInstances] *)
Definition belowMaxInstances : M bool :=
  let! st := get in
  ret (getNumberOfRunningInstances st <? maxInstances (config st)).

(** [(a) => a.availableInstances > 0] *)
Definition hasAvailableInstances (r : nat) : M bool :=
  let! a := entry r in ret (0 <? availableInstances a).

(** [(a) => a.testcases.length > 0] *)
Definition hasTestcases (r : nat) : M bool :=
  let! a := entry r in
  let! n := lift (lengthOf (testcases a)) in
  ret (0 <? n).

(** [(a) => a.specs.length > 0] *)
Definition hasSpecs (r : nat) : M bool :=
  let! a := entry r in
  let! n := lift (lengthOf (specs a)) in
  ret (0 <? n).

(** [(a, b) => a.runningInstances > b.runningInstances]: a boolean, which
    [sort] takes as the number 1 or 0. *)
Definition byRunningInstances (st : Launcher) (a b : nat) : Z :=
  let running r := from_option runningInstances 0 (schedule st !! r) in
  Js.toNumber (running b <? running a).

(** [schedulableCaps] of [runTestcases]. *)
Definition schedulableTestcases : M (list nat) :=
  let! st := get in
  let! bailed := filterM (λ _, bailFilter) (seq 0 (length (schedule st))) in
  let! below := filterM (λ _, belowMaxInstances) bailed in
  let! available := filterM hasAvailableInstances below in
  let! pending := filterM hasTestcases available in
  let! st' := get in
  ret (array_sort engine nat (byRunningInstances st') pending).

(** [schedulableCaps] of [runSpecs]. *)
Definition schedulableSpecs : M (list nat) :=
  let! st := get in
  let! below := filterM (λ _, belowMaxInstances) (seq 0 (length (schedule st))) in
  let! available := filterM hasAvailableInstances below in
  let! pending := filterM hasSpecs available in
  let! st' := get in
  ret (array_sort engine nat (byRunningInstances st') pending).

(** [schedulableCaps[0].testcases.shift()] *)
Definition shiftTestcases (r : nat) : M (option string) :=
  let! a := entry r in
  match testcases a with
  | None => throw (TypeError "Cannot read property 'shift' of undefined")
  | Some [] => ret None
  | Some (x :: queue) => setEntry r (set_testcases (Some queue));; ret (Some x)
  end.

(** [schedulableCaps[0].specs.shift()] *)
Definition shiftSpecs (r : nat) : M (option string) :=
  let! a := entry r in
  match specs a with
  | None => throw (TypeError "Cannot read property 'shift' of undefined")
  | Some [] => ret None
  | Some (x :: queue) => setEntry r (set_specs (Some queue));; ret (Some x)
  end.

(** [schedulableCaps[0].availableInstances--; schedulableCaps[0].runningInstances++] *)
Definition occupyInstance (r : nat) : M unit :=
  setEntry r (λ a, set_availableInstances (availableInstances a - 1) a);;
  setEntry r (λ a, set_runningInstances (runningInstances a + 1) a).

(** The body of the loop of [runTestcases], after the test for no
    schedulable capability. *)
Definition dispatchTestcase (r : nat) : M unit :=
  let! item := shiftTestcases r in
  let! a := entry r in
  startRunnerInstance [item] (cid a);;
  occupyInstance r.

Definition dispatchSpec (r : nat) : M unit :=
  let! item := shiftSpecs r in
  let! a := entry r in
  startValidatorInstance [item] (cid a);;
  occupyInstance r.

(** One turn of the [while] loop of [runTestcases]: the test of the
    loop, the schedulable capabilities, and either the [break] or the
    dispatch.  [false] says that the loop is left. *)
Definition testcaseTurn : M bool :=
  let! below := belowMaxInstances in
  if below : bool then
    let! schedulableCaps := schedulableTestcases in
    match schedulableCaps with
    | [] => ret false
    | r :: _ => dispatchTestcase r;; ret true
    end
  else ret false.

(** One turn of the [while] loop of [runSpecs]. *)
Definition specTurn : M bool :=
  let! below := belowMaxInstances in
  if below : bool then
    let! schedulableCaps := schedulableSpecs in
    match schedulableCaps with
    | [] => ret false
    | r :: _ => dispatchSpec r;; ret true
    end
  else ret false.

(** The loop itself, for at most [bound] turns. *)
Fixpoint while (bound : nat) (turn : M bool) : M unit :=
  match bound with
  | O => throw LoopBound
  | S bound' =>
      let! again := turn in
      if again : bool then while bound' turn else ret tt
  end.

(** The work items still queued: every turn of a dispatch loop but the
    last one takes one of them. *)
Definition queued (sel : ScheduleEntry → option (list string)) (st : Launcher) : nat :=
  sum_list ((λ a, length (default [] (sel a))) <$> schedule st).

(** [runTestcases ()] *)
Definition runTestcases : M bool :=
  let! st := get in
  if hasTriggeredExitRoutine st then ret true
  else
    while (S (queued testcases st)) testcaseTurn;;
    let! st := get in
    if getNumberOfRunningInstances st =? 0 then
      let! remaining := lift (getNumberOfTestcasesLeft st) in
      ret (remaining =? 0)
    else ret false.

(** [runSpecs ()] *)
Definition runSpecs : M bool :=
  let! st := get in
  if hasTriggeredExitRoutine st then ret true
  else
    while (S (queued specs st)) specTurn;;
    let! st := get in
    if getNumberOfRunningInstances st =? 0 then
      let! remaining := lift (getNumberOfSpecsLeft st) in
      ret (remaining =? 0)
    else ret false.

(** [this.endHandlerRunFunc ()] *)
Definition callRunFunc : M bool :=
  let! st := get in
  match endHandlerRunFunc st with
  | RunTestcases => runTestcases
  | RunSpecs => runSpecs
  end.

(** Truthiness of an exit code. *)
Definition truthyCode (c : option Z) : bool :=
  match c with
  | Some n => negb (n =? 0)
  | None => false
  end.

(** [this.schedule[cid].availableInstances++; this.schedule[cid].runningInstances--]
    for [cid = parseInt(cid, 10)] *)
Definition releaseInstance (runner : string) : M unit :=
  match Js.parseInt runner with
  | Some i =>
      if 0 <=? i then
        let r := Z.to_nat i in
        entry r;;
        setEntry r (λ a, set_availableInstances (availableInstances a + 1) a);;
        setEntry r (λ a, set_runningInstances (runningInstances a - 1) a)
      else throw (TypeError "Cannot read property 'availableInstances' of undefined")
  | None => throw (TypeError "Cannot read property 'availableInstances' of undefined")
  end.

(** [endHandler (cid, childProcessExitCode)] *)
Definition endHandler (runner : string) (childProcessExitCode : option Z) : M unit :=
  modify (upd_exitCode (λ c, if truthyCode c then c else childProcessExitCode));;
  modify (upd_runnerFailed
            (λ n, n + match childProcessExitCode with Some 0 => 0 | _ => 1 end));;
  let! st := get in
  (if isMultiremote st then ret tt else releaseInstance runner);;
  let! drained := (if isMultiremote st then ret true else callRunFunc) in
  if (negb (isMultiremote st) && negb drained)%bool then ret tt
  else
    let! st := get in
    handleEvent "end" (PEnd (hasTriggeredExitRoutine st) (exitCode st));;
    match exitCode st with
    | Some 0 => resolve 0
    | _ => resolve 1
    end.

(** [exitHandler ()]: the signals sent to the child processes are not
    part of the model. *)
Definition exitHandler : M unit :=
  let! st := get in
  if (hasTriggeredExitRoutine st || negb (hasStartedAnyProcess st))%bool then resolve 1
  else modify (upd_hasTriggeredExitRoutine (λ _, true)).

(** [capabilities.maxInstances || config.maxInstancesPerCapability] *)
Definition instancesOf (cfg : Config) (c : Capabilities) : Z :=
  match cap_maxInstances c with
  | Some n => if n =? 0 then maxInstancesPerCapability cfg else n
  | None => maxInstancesPerCapability cfg
  end.

(** The entries that [run] pushes for the capabilities, [cid] counting
    from the given start. *)
Fixpoint testcaseEntries (cfg : Config) (c : Z) (l : list Capabilities) : list ScheduleEntry :=
  match l with
  | [] => []
  | capabilities :: l' =>
      {| cid := c; caps := capabilities;
         testcases := Some (cap_testcases capabilities); specs := None;
         availableInstances := instancesOf cfg capabilities;
         runningInstances := 0 |} :: testcaseEntries cfg (c + 1) l'
  end.

Fixpoint specEntries (cfg : Config) (c : Z) (l : list Capabilities) : list ScheduleEntry :=
  match l with
  | [] => []
  | capabilities :: l' =>
      {| cid := c; caps := capabilities;
         testcases := None; specs := Some (cap_specs capabilities);
         availableInstances := instancesOf cfg capabilities;
         runningInstances := 0 |} :: specEntries cfg (c + 1) l'
  end.

(** The part of [run] that starts phase one: the schedule of the
    testcases, and the first call of [runTestcases]. *)
Definition startTestcases (capabilities : list Capabilities) : M unit :=
  let! st := get in
  modify (upd_schedule (λ s, s ++ testcaseEntries (config st) 0 capabilities));;
  let! drained := runTestcases in
  if drained : bool then resolve 0 else ret tt.

(** The part of [run] that starts phase two, once the promise of phase
    one is resolved.  The merge of manual results, which touches
    [validationResults] only, is not part of the model. *)
Definition startSpecs (capabilities : list Capabilities) : M unit :=
  modify (upd_finishedTests (λ _, true));;
  let! st := get in
  modify (upd_schedule (λ _, specEntries (config st) 0 capabilities));;
  modify (upd_endHandlerRunFunc (λ _, RunSpecs));;
  let! drained := runSpecs in
  if drained : bool then resolve 0 else ret tt.

End Scheduler.

(** ** The message handler *)

(** The classification that [evaluateValidations] returns. *)
Inductive Validation : Type := pass | fail | broken | unvalidated.

Definition validationName (v : Validation) : string :=
  match v with
  | pass => "pass"
  | fail => "fail"
  | broken => "broken"
  | unvalidated => "unvalidated"
  end.

(** [this.containStackFilter] and [this.stackFilter] *)
Definition containStackFilter : list string :=
  ["at new Promise"; "/node_modules/"; "runMicrotasksCallback"; "\node_modules\"].

Definition stackFilter : list string :=
  ["at <anonymous>"; "at new Promise (<anonymous>)"; "at Promise (<anonymous>)"; "Error"].

(** The callback of the filter in [getPatchedStack]. *)
Definition keepStackLine (line : string) : bool :=
  let trimmedLine := Js.trim line in
  negb (existsb (λ filterLine, 0 <? Js.indexOf trimmedLine filterLine) containStackFilter
        || existsb (λ filterLine, String.eqb filterLine trimmedLine) stackFilter).

(** [obj[key] = value] for a value that may be [undefined]: reading the
    property afterwards gives [undefined] as if it were absent. *)
Definition assign (key : string) (value : option string) (obj : gmap string string)
  : gmap string string :=
  match value with
  | Some v => <[key := v]> obj
  | None => delete key obj
  end.

(** [getPatchedStack (source, cid)].  An inherited [this.stackStore[cid]]
    is a function, whose source text the code would add to the stack. *)
Definition getPatchedStack (source : Assertion) (c : string) : M string :=
  let! st := get in
  match a_stack source with
  | None => throw (TypeError "Cannot read property 'split' of undefined")
  | Some stack =>
      let! combinedStack :=
        if Js.truthy (a_errorType source) then
          match property (stackStore st) c with
          | Own stored =>
              ret (if (Js.truthy (Some stored) && (Js.indexOf stack "at testcase (" <? 0))%bool
                   then stack +:+ Js.nl +:+ stored
                   else stack)
          | Inherited =>
              if Js.indexOf stack "at testcase (" <? 0
              then throw (Beyond "this.stackStore[cid] is inherited")
              else ret stack
          | Undefined => ret stack
          end
        else ret stack in
      ret (Js.join_nl (List.filter keepStackLine (Js.split_nl combinedStack)))
  end.

(** [if (!(group in this.validationResults)) this.validationResults[group] = {}]:
    nothing is created under a name that is inherited. *)
Definition ensureResults (group : string) : M unit :=
  modify (upd_validationResults
            (λ results, match property results group with
                        | Undefined => <[group := ∅]> results
                        | _ => results
                        end)).

(** [if (!(key in this.validationResults[group])) this.validationResults[group][key] = {...}].
    An inherited [this.validationResults[group]] is a function, which the
    code would search for [key] and write to. *)
Definition ensureStory (group key : string) : M unit :=
  let! st := get in
  match property (validationResults st) group with
  | Own stories =>
      match property stories key with
      | Undefined => modify (upd_validationResults (<[group := <[key := newStory]> stories]>))
      | _ => ret tt
      end
  | Inherited => throw (Beyond "this.validationResults[group] is inherited")
  | Undefined => throw (TypeError "Cannot use 'in' operator to search in undefined")
  end.

(** An update of the buckets of [this.validationResults[group][key]].
    An inherited [this.validationResults[group][key]] is a function (or
    [Object.prototype]): it has no buckets, and the search of a criteria
    in [undefined] throws. *)
Definition updStory (group key : string) (f : Story → result Story) : M unit :=
  let! st := get in
  match property (validationResults st) group with
  | Own stories =>
      match property stories key with
      | Own story =>
          let! story := lift (f story) in
          modify (upd_validationResults (<[group := <[key := story]> stories]>))
      | Inherited => throw (TypeError "Cannot use 'in' operator to search in undefined")
      | Undefined => throw (TypeError "Cannot read property of undefined")
      end
  | Inherited => throw (Beyond "this.validationResults[group] is inherited")
  | Undefined => throw (TypeError "Cannot read property of undefined")
  end.

(** The result of [f] on what [r] returns. *)
Definition onOk {A B} (f : A → B) (r : result A) : result B :=
  match r with
  | Ok a => Ok (f a)
  | Throw e => Throw e
  end.

(** [bucket[criteria].push(x)] after [if (!(criteria in bucket)) bucket[criteria] = []]:
    under an inherited name no array is created, and what is there has
    no [push]. *)
Definition pushTo {A} (criteria : string) (x : A) (bucket : gmap string (list A))
  : result (gmap string (list A)) :=
  match property bucket criteria with
  | Own l => Ok (<[criteria := l ++ [x]]> bucket)
  | Inherited => Throw (TypeError "push is not a function")
  | Undefined => Ok (<[criteria := [x]]> bucket)
  end.

(** [fillValidationResults (assertion, m)] *)
Definition fillValidationResults (assertion : Assertion) (group : string) : M unit :=
  forM (default [] (a_specObj assertion)) (λ '(key, criterias),
    ensureStory group key;;
    forM criterias (λ criteria,
      updStory group key
        (λ story,
           onOk (λ bucket, set_failures (λ _, bucket) story)
             (pushTo criteria
                {| f_matcherName := a_matcherName assertion;
                   f_message := a_message assertion;
                   f_expected := a_expected assertion;
                   f_actual := a_actual assertion;
                   f_stack := a_stack assertion |} (failures story))))).

(** [s += x + '\n\n'] on a field of [m.err] *)
Definition appended (s x : option string) : option string :=
  Some (Js.toString s +:+ Js.toString x +:+ Js.nl +:+ Js.nl).

(** [handleAssertion (assertion, m)].  The assertion is an object of the
    [stepErrors] buffer and is changed in place: the changed assertion is
    returned for the caller to put back. *)
Definition handleAssertion (assertion : Assertion) (group : string) (m : Msg)
  : M (Assertion * Msg) :=
  match a_stack assertion with
  | None => throw (TypeError "Cannot read property 'trim' of undefined")
  | Some stack =>
      let assertion :=
        if Js.indexOf (Js.trim stack) "at" =? 0 then assertion
        else set_a_stack (Some (Js.join_nl (tail (Js.split_nl stack)))) assertion in
      (match a_specObj assertion with
       | Some _ => fillValidationResults assertion group
       | None => ret tt
       end);;
      match m_err m, m_errs m with
      | Some err, Some (ErrsAssertions errs) =>
          let err := {| e_message := appended (e_message err) (a_message assertion);
                        e_stack := appended (e_stack err) (a_stack assertion);
                        e_matcherName := e_matcherName err |} in
          ret (assertion, set_m_errs (Some (ErrsAssertions (errs ++ [assertion])))
                            (set_m_err (Some err) m))
      | _, _ => throw (TypeError "Cannot read property 'message' of undefined")
      end
  end.

(** [for (const assertion of buffer) this.handleAssertion(assertion, m)] *)
Fixpoint handleAssertions (buffer : list Assertion) (group : string) (m : Msg)
  : M (list Assertion * Msg) :=
  match buffer with
  | [] => ret ([], m)
  | assertion :: buffer' =>
      let! (assertion', m') := handleAssertion assertion group m in
      let! (rest, m'') := handleAssertions buffer' group m' in
      ret (assertion' :: rest, m'')
  end.

(** The removal of the last ['\n'] of an aggregate text. *)
Definition dropLastNl (s : option string) : option string :=
  let text := Js.toString s in
  let lastNlIndex := Js.lastIndexOf_nl text in
  if 0 <? lastNlIndex then Some (Js.substring0 text lastNlIndex) else s.

(** [array.map(f).reduce((prev, cur) => prev + '\n\n' + cur)] over values
    that are strings or [undefined]. *)
Definition reduce_blank (l : list (option string)) : result (option string) :=
  match l with
  | [] => Throw (TypeError "Reduce of empty array with no initial value")
  | x :: l' =>
      Ok (foldl (λ prev cur, Some (Js.toString prev +:+ Js.nl +:+ Js.nl +:+ Js.toString cur)) x l')
  end.

(** [evaluateValidations (storyId, criteriaId, m)].  An inherited
    [this.validationResults[group][storyId]] is truthy and has no
    [failures]; an inherited [story.failures[criteriaId]] is truthy and
    has no [map].  An inherited [this.validationResults[group]] is a
    function, in which the code would look [storyId] up. *)
Definition evaluateValidations (story criteria : option string) (group : string) (m : Msg)
  : M (Validation * Msg) :=
  let! st := get in
  let notValidated :=
    ret (unvalidated,
         set_m_err (Some {| e_message := Some ("Spec " +:+ Js.toString story +:+ ": Then "
                                                 +:+ Js.toString criteria +:+ " was not validated!");
                            e_stack := None; e_matcherName := None |}) m) in
  match property (validationResults st) group with
  | Own stories =>
      match property stories (Js.toString story) with
      | Own record =>
          match property (failures record) (Js.toString criteria) with
          | Own errs =>
              let! message := lift (reduce_blank (f_message <$> errs)) in
              let status :=
                if forallb (λ err, bool_decide (is_Some (f_matcherName err))) errs
                then fail else broken in
              let! stack := lift (reduce_blank (f_stack <$> errs)) in
              let err := {| e_message := Some (Js.toString message +:+ Js.nl);
                            e_stack := stack;
                            e_matcherName := Some EmptyString |} in
              let! shots :=
                match property (screenshots record) (Js.toString criteria) with
                | Own shots => ret (Some shots)
                | Inherited => throw (Beyond "story.screenshots[criteriaId] is inherited")
                | Undefined => ret None
                end in
              ret (status,
                   set_m_screenshots shots
                     (set_m_errs (Some (ErrsFailures errs)) (set_m_err (Some err) m)))
          | Inherited => throw (TypeError "story.failures[criteriaId].map is not a function")
          | Undefined =>
              match property (successes record) (Js.toString criteria) with
              | Undefined => notValidated
              | _ => ret (pass, m)
              end
          end
      | Inherited => throw (TypeError "Cannot read property of undefined")
      | Undefined => notValidated
      end
  | Inherited => throw (Beyond "this.validationResults[group] is inherited")
  | Undefined => notValidated
  end.

(** [addTestArguments (storyId, criteriaId, m)].  An inherited
    [this.validationResults[group][storyId]] has no [arguments] to read
    the criteria from; an inherited [story.arguments[criteriaId]] is a
    function, which the code would put on the message. *)
Definition addTestArguments (story criteria : option string) (group : string) (m : Msg)
  : M Msg :=
  let! st := get in
  match property (validationResults st) group with
  | Own stories =>
      match property stories (Js.toString story) with
      | Own record =>
          match property (arguments record) (Js.toString criteria) with
          | Own args => ret (set_m_arguments (Some args) m)
          | Inherited => throw (Beyond "story.arguments[criteriaId] is inherited")
          | Undefined => ret (set_m_arguments None m)
          end
      | Inherited => throw (TypeError "Cannot read property of undefined")
      | Undefined => ret m
      end
  | Inherited => throw (Beyond "this.validationResults[group] is inherited")
  | Undefined => ret m
  end.

(** [m.specs[0]] *)
Definition firstSpec (m : Msg) : M (option string) :=
  match m_specs m with
  | Some l => ret (head l)
  | None => throw (TypeError "Cannot read property '0' of undefined")
  end.

(** The decoding of [m.title] for the events that start with [test:]. *)
Definition decodeTitle (m : Msg) : M Msg :=
  match m_title m with
  | TitleEncoded title metadata => ret (set_m_metadata metadata (set_m_title (TitleDecoded title) m))
  | TitleUndecodable => throw (SyntaxError "Unexpected token in JSON")
  | TitleFalsy | TitleDecoded _ => ret m
  end.

Definition updValidationState (group : string) (f : ValidationState → ValidationState) : M unit :=
  modify (upd_validationStates
            (λ states, <[group := f (default newValidationState (states !! group))]> states)).

(** The [switch] of the validation phase ([this.finishedTests]). *)
Definition validationPhase (group : string) (m : Msg) : M Msg :=
  if String.eqb (m_event m) "test:start" then
    let! spec := firstSpec m in ret (set_m_spec spec m)
  else if String.eqb (m_event m) "step:end" then
    let m := set_m_status (Some passed) m in
    match m_validate m with
    | Some (story, criteria) =>
        updValidationState group
          (λ vs, {| storyId := story; criteriaId := criteria;
                    assertionFailures := assertionFailures vs;
                    vs_screenshots := vs_screenshots vs |});;
        let! (status, m') := evaluateValidations story criteria group m in
        ret (set_m_event ("step:" +:+ validationName status) m')
    | None => ret m
    end
  else if String.eqb (m_event m) "test:pass" then
    let! st := get in
    match validationStates st !! group with
    | None => throw (TypeError "Cannot read property 'storyId' of undefined")
    | Some vs =>
        let! (status, m') := evaluateValidations (storyId vs) (criteriaId vs) group m in
        addTestArguments (storyId vs) (criteriaId vs) group
          (set_m_event ("test:" +:+ validationName status) m')
    end
  else ret m.

(** [m.event === tag] *)
Definition eventIs (m : Msg) (tag : string) : bool := String.eqb (m_event m) tag.

(** [runner:currentStack] *)
Definition onCurrentStack (c : string) (m : Msg) : M unit :=
  let! st := get in
  if default false (stackStoreLocks st !! c) then ret tt
  else
    modify (upd_stackStore (assign c (m_stack m)));;
    if bool_decide (m_name m = Some "waitUntil")
    then modify (upd_waitUntilErrors (assign c (m_stack m)))
    else ret tt.

(** [runner:aftercommand] *)
Definition onAfterCommand (c : string) (m : Msg) : M unit :=
  let! st := get in
  match m_err m with
  | Some _ =>
      modify (upd_stackStoreLocks <[c := true]>);;
      if bool_decide (m_command m = Some "waitUntil")
      then modify (upd_stackStore (assign c (waitUntilErrors st !! c)))
      else if Js.truthy (waitUntilErrors st !! c)
           then modify (upd_stackStore (assign c (waitUntilErrors st !! c)))
           else ret tt
  | None =>
      if bool_decide (m_command m = Some "waitUntil")
      then modify (upd_waitUntilErrors (delete c))
      else ret tt
  end.

(** [this.stackStoreLocks[m.cid] = false; delete this.stackStore[m.cid];
    delete this.waitUntilErrors[m.cid]] *)
Definition forgetStack (c : string) : M unit :=
  modify (upd_stackStoreLocks <[c := false]>);;
  modify (upd_stackStore (delete c));;
  modify (upd_waitUntilErrors (delete c)).

(** [test:start] of the execution phase *)
Definition onTestStart (c group : string) (m : Msg) : M Msg :=
  let! testcase := firstSpec m in
  modify (upd_validationStates <[group := newValidationState]>);;
  forgetStack c;;
  modify (upd_stepErrors <[group := {| se_failed := []; se_broken := [] |}]>);;
  ret (set_m_testcase testcase m).

(** [test:fail] of the execution phase *)
Definition onTestFail (group : string) (m : Msg) : M Msg :=
  ensureResults group;;
  let m := set_m_errs (Some (ErrsAssertions [])) m in
  let matcher := m_err m ≫= e_matcherName in
  let m := set_m_err (Some {| e_message := Some EmptyString; e_stack := Some EmptyString;
                              e_matcherName := matcher |}) m in
  let! st := get in
  match stepErrors st !! group with
  | None => throw (TypeError "Cannot read property 'failed' of undefined")
  | Some buffers =>
      let! (failedAssertions, m) := handleAssertions (se_failed buffers) group m in
      modify (upd_stepErrors <[group := {| se_failed := failedAssertions;
                                           se_broken := se_broken buffers |}]>);;
      let! (brokenAssertions, m) := handleAssertions (se_broken buffers) group m in
      modify (upd_stepErrors <[group := {| se_failed := failedAssertions;
                                           se_broken := brokenAssertions |}]>);;
      let m := match m_err m with
               | Some err =>
                   set_m_err (Some {| e_message := dropLastNl (e_message err);
                                      e_stack := dropLastNl (e_stack err);
                                      e_matcherName := e_matcherName err |}) m
               | None => m
               end in
      ret (if (0 <? length brokenAssertions)%nat then set_m_event "test:broken" m else m)
  end.

(** The preparation of [stepStates[group]] for every event that contains
    [step:]. *)
Definition prepareStepState (group : string) : M unit :=
  modify (upd_stepStates
            (λ states,
               let state := default {| stepLevel := 0; levelStatus := newLevelStatus |}
                                    (states !! group) in
               <[group := if stepLevel state =? 0
                          then {| stepLevel := stepLevel state; levelStatus := newLevelStatus |}
                          else state]> states)).

Definition updStepState (group : string) (f : StepState → StepState) : M unit :=
  modify (upd_stepStates (alter f group)).

(** [step:start] *)
Definition onStepStart (c group : string) : M unit :=
  updStepState group (λ s, {| stepLevel := stepLevel s + 1; levelStatus := levelStatus s |});;
  forgetStack c;;
  updStepState group
    (λ s, if Z.of_nat (length (items (levelStatus s))) <? stepLevel s
          then {| stepLevel := stepLevel s;
                  levelStatus := {| items := items (levelStatus s) ++ [passed];
                                    minus_one := minus_one (levelStatus s) |} |}
          else s).

(** The repair of an empty message, shared by the step and validate
    events. *)
Definition fixEmptyMessage (a : Assertion) : Assertion :=
  if (negb (Js.truthy (a_message a)) && Js.truthy (a_stack a))%bool
  then set_a_message (head (Js.split_nl (Js.toString (a_stack a)))) a
  else a.

(** [step:failed] and [step:broken] *)
Definition onStepError (c group : string) (m : Msg) : M Msg :=
  match m_assertion m with
  | None => throw (TypeError "Cannot read property 'message' of undefined")
  | Some assertion =>
      let assertion := fixEmptyMessage assertion in
      let! stack := getPatchedStack assertion c in
      let assertion := set_a_stack (Some stack) assertion in
      let! st := get in
      match stepErrors st !! group with
      | None => throw (TypeError "Cannot read property 'broken' of undefined")
      | Some buffers =>
          modify (upd_stepErrors
                    <[group := if eventIs m "step:broken"
                               then {| se_failed := se_failed buffers;
                                       se_broken := se_broken buffers ++ [assertion] |}
                               else {| se_failed := se_failed buffers ++ [assertion];
                                       se_broken := se_broken buffers |}]>);;
          ret (set_m_assertion (Some assertion) m)
      end
  end.

(** [levelStatus[levelStatus.length - 1]] *)
Definition lastStatus (l : LevelStatus) : option Status :=
  match items l with
  | [] => minus_one l
  | _ => last (items l)
  end.

(** [levelStatus[levelStatus.length - 1] = 'failed'] *)
Definition failLast (l : LevelStatus) : LevelStatus :=
  match items l with
  | [] => {| items := []; minus_one := Some failed |}
  | _ => {| items := <[pred (length (items l)) := failed]> (items l);
            minus_one := minus_one l |}
  end.

(** [step:end] of the execution phase *)
Definition onStepEnd (group : string) (m : Msg) : M Msg :=
  let! st := get in
  match stepStates st !! group with
  | None => throw (TypeError "Cannot read property 'levelStatus' of undefined")
  | Some state =>
      let m := set_m_status
                 (if stepLevel state <? Z.of_nat (length (items (levelStatus state)))
                  then lastStatus (levelStatus state)
                  else Some passed) m in
      let! m :=
        match validationStates st !! group ≫= assertionFailures with
        | Some pending =>
            let screenshots := validationStates st !! group ≫= vs_screenshots in
            updStepState group
              (λ s, {| stepLevel := stepLevel s; levelStatus := failLast (levelStatus s) |});;
            updValidationState group
              (λ vs, {| storyId := storyId vs; criteriaId := criteriaId vs;
                        assertionFailures := None; vs_screenshots := None |});;
            ret (set_m_status (Some failed)
                   (set_m_screenshots screenshots
                      (set_m_assertionFailures (Some pending) m)))
        | None => ret m
        end in
      updStepState group
        (λ s, {| stepLevel := stepLevel s - 1; levelStatus := levelStatus s |});;
      ret m
  end.

(** The screenshot of an assertion, pushed only when both its file name
    and its id are truthy. *)
Definition screenshotOf (a : Assertion) : list Screenshot :=
  match a_screenshotFilename a, a_screenshotId a with
  | Some filename, Some id =>
      if (Js.truthy (Some filename) && Js.truthy (Some id))%bool
      then [{| shot_filename := filename; shot_id := id |}] else []
  | _, _ => []
  end.

(** [if (!(message in shots)) shots[message] = []], then the push: under
    an inherited name no array is created, and what is there has no
    [push]. *)
Definition addScreenshot (a : Assertion) (shots : gmap string (list Screenshot))
  : result (gmap string (list Screenshot)) :=
  let message := Js.toString (a_message a) in
  match property shots message with
  | Own l => Ok (<[message := l ++ screenshotOf a]> shots)
  | Inherited =>
      match screenshotOf a with
      | [] => Ok shots
      | _ => Throw (TypeError "push is not a function")
      end
  | Undefined => Ok (<[message := screenshotOf a]> shots)
  end.

(** The loop over the criteria of one story for [validate:failure] and
    [validate:broken].  [m.assertion] is the same object in every turn: the
    assertion is threaded through, and the entries pushed to
    [assertionFailures] are put right by [aliasAssertion] afterwards.  An
    inherited [story.screenshots[criteria]] is a function, which the code
    would search for the message and write to. *)
Fixpoint validateFailures (c group key : string) (criterias : list string) (a : Assertion)
  : M Assertion :=
  match criterias with
  | [] => ret a
  | criteria :: criterias' =>
      updStory group key
        (λ story, Ok (set_failures (λ bucket, match property bucket criteria with
                                              | Undefined => <[criteria := []]> bucket
                                              | _ => bucket
                                              end) story));;
      updValidationState group
        (λ vs, {| storyId := storyId vs; criteriaId := criteriaId vs;
                  assertionFailures := Some (default [] (assertionFailures vs));
                  vs_screenshots := Some (default ∅ (vs_screenshots vs)) |});;
      (if Js.truthy (a_screenshotFilename a)
       then updStory group key
              (λ story,
                 match property (screenshots story) criteria with
                 | Own shots =>
                     onOk (λ shots, set_screenshots <[criteria := shots]> story)
                       (addScreenshot a shots)
                 | Inherited => Throw (Beyond "story.screenshots[criteria] is inherited")
                 | Undefined =>
                     onOk (λ shots, set_screenshots <[criteria := shots]> story)
                       (addScreenshot a ∅)
                 end)
       else ret tt);;
      (let! st := get in
       match validationStates st !! group ≫= vs_screenshots with
       | Some shots =>
           let! shots := lift (addScreenshot a shots) in
           updValidationState group
             (λ vs, {| storyId := storyId vs; criteriaId := criteriaId vs;
                       assertionFailures := assertionFailures vs;
                       vs_screenshots := Some shots |})
       | None => ret tt
       end);;
      let! stack := getPatchedStack a c in
      let a := set_a_stack (Some stack) a in
      updValidationState group
        (λ vs, {| storyId := storyId vs; criteriaId := criteriaId vs;
                  assertionFailures := (λ l, l ++ [a]) <$> assertionFailures vs;
                  vs_screenshots := vs_screenshots vs |});;
      validateFailures c group key criterias' a
  end.

(** The loop over the stories of [m.assertion.specObj] for a failure. *)
Fixpoint validateFailureKeys (c group : string) (specObj : list (string * list string))
    (a : Assertion) (m : Msg) : M Assertion :=
  match specObj with
  | [] => ret a
  | (key, criterias) :: specObj' =>
      ensureStory group key;;
      let! a := validateFailures c group key criterias a in
      let! st := get in
      (if reportErrorsInstantly (config st)
       then handleEvent (m_event m) (PMessage (set_m_assertion (Some a) m))
       else ret tt);;
      validateFailureKeys c group specObj' a m
  end.

(** The last [k] entries of [assertionFailures] are one object, whose
    stack is the one patched last. *)
Definition aliasAssertion (k : nat) (a : Assertion) (l : list Assertion) : list Assertion :=
  take (length l - k) l ++ replicate k a.

(** [validate:success], [validate:failure] and [validate:broken] *)
Definition onValidate (c group : string) (m : Msg) : M Msg :=
  match m_assertion m with
  | None => throw (TypeError "Cannot read property 'message' of undefined")
  | Some assertion =>
      let assertion := fixEmptyMessage assertion in
      ensureResults group;;
      match a_specObj assertion with
      | None => throw (TypeError "Cannot convert undefined or null to object")
      | Some specObj =>
          if eventIs m "validate:success" then
            forM specObj (λ '(key, criterias),
              ensureStory group key;;
              forM criterias (λ criteria,
                updStory group key
                  (λ story,
                     onOk (λ bucket, set_successes (λ _, bucket) story)
                       (pushTo criteria
                          {| s_matcherName := a_matcherName assertion;
                             s_actual := a_actual assertion;
                             s_expected := a_expected assertion |} (successes story)))));;
            ret (set_m_assertion (Some assertion) m)
          else
            let! assertion := validateFailureKeys c group specObj assertion m in
            let pushes := sum_list (length ∘ snd <$> specObj) in
            (if (0 <? pushes)%nat
             then updValidationState group
                    (λ vs, {| storyId := storyId vs; criteriaId := criteriaId vs;
                              assertionFailures :=
                                aliasAssertion pushes assertion <$> assertionFailures vs;
                              vs_screenshots := vs_screenshots vs |})
             else ret tt);;
            ret (set_m_assertion (Some assertion) m)
      end
  end.

(** The branch of the execution phase ([!this.finishedTests]). *)
Definition executionPhase (c group : string) (m : Msg) : M unit :=
  (if eventIs m "runner:currentStack" then onCurrentStack c m else ret tt);;
  (if eventIs m "runner:aftercommand" then onAfterCommand c m else ret tt);;
  let! m := (if eventIs m "test:start" then onTestStart c group m else ret m) in
  let! m := (if eventIs m "test:fail" then onTestFail group m else ret m) in
  (if 0 <=? Js.indexOf (m_event m) "step:" then prepareStepState group else ret tt);;
  (if eventIs m "step:start" then onStepStart c group else ret tt);;
  let! m := (if (eventIs m "step:failed" || eventIs m "step:broken")%bool
             then onStepError c group m else ret m) in
  let! m := (if eventIs m "step:end" then onStepEnd group m else ret m) in
  if (eventIs m "validate:success" || eventIs m "validate:failure"
      || eventIs m "validate:broken")%bool
  then onValidate c group m;; ret tt
  else handleEvent (m_event m) (PMessage m).

(** [messageHandler (cid, m)].  [this.config] caches the configuration,
    which the model reads from the launcher; [this.uidStore] is never
    initialised, so a [uid:request] throws at [m.id in this.uidStore].

    The dictionaries that are keyed by [m.cid] or by its group
    ([stackStore], [stackStoreLocks], [waitUntilErrors],
    [validationStates], [stepStates], [stepErrors], [validationResults])
    are read and written without a test of the key.  Under a name that
    is inherited the code reads functions for their entries and writes
    to them; the model covers the runner ids, and the groups, that are
    no such name. *)
Definition messageHandler (runner : string) (m : Msg) : M unit :=
  modify (upd_hasStartedAnyProcess (λ _, true));;
  let c := if Js.truthy (m_cid m) then Js.toString (m_cid m) else runner in
  let m := set_m_cid (Some c) m in
  let group := getCidGroup c in
  (if (Js.inherited c || Js.inherited group)%bool
   then throw (Beyond "m.cid or its group is inherited")
   else ret tt);;
  (if eventIs m "runner:error" then handleEvent "error" (PMessage m) else ret tt);;
  (if eventIs m "uid:request"
   then throw (TypeError "Cannot use 'in' operator to search for a key in undefined")
   else ret tt);;
  let! m := (if Js.indexOf (m_event m) "test:" =? 0 then decodeTitle m else ret m) in
  let! st := get in
  if finishedTests st then
    let! m := validationPhase group m in
    handleEvent (m_event m) (PMessage m)
  else executionPhase c group m.

(** ** The events of a run *)

(** What the launcher reacts to once the schedule is built: the exit of a
    child process, a message of a child process, and the interrupt signal. *)
Inductive Event : Type :=
| Exit (runner : string) (code : option Z)
| Message (runner : string) (m : Msg)
| Interrupt.

Section Events.
Context (engine : SortEngine).

Definition handle (ev : Event) : M unit :=
  match ev with
  | Exit runner code => endHandler engine runner code
  | Message runner m => messageHandler runner m
  | Interrupt => exitHandler
  end.

(** The handlers run to completion one after the other. *)
Fixpoint handleAll (evs : list Event) : M unit :=
  match evs with
  | [] => ret tt
  | ev :: evs' => handle ev;; handleAll evs'
  end.
End Events.

(** ** Notions of the specification *)

(** The pending work of an entry is empty; [queue] is [testcases] in phase
    one and [specs] in phase two. *)
Definition noWorkLeft (queue : ScheduleEntry → option (list string)) (st : Launcher) : Prop :=
  Forall (λ a, queue a = Some []) (schedule st).

(** "Every schedule entry's pending work queue is empty and the total
    number of running instances is zero." *)
Definition drained (queue : ScheduleEntry → option (list string)) (st : Launcher) : Prop :=
  noWorkLeft queue st ∧ getNumberOfRunningInstances st = 0.

(** The queue that the dispatch function of a phase works on. *)
Definition queueOf (f : RunFunc) : ScheduleEntry → option (list string) :=
  match f with
  | RunTestcases => testcases
  | RunSpecs => specs
  end.

(** [availableInstances + runningInstances] of every entry, in the order
    of the schedule. *)
Definition slots (st : Launcher) : list Z :=
  (λ a, availableInstances a + runningInstances a) <$> schedule st.


(** Every entry carries the queue of its phase. *)
Definition hasQueues (queue : ScheduleEntry → option (list string)) (st : Launcher) : Prop :=
  Forall (λ a, is_Some (queue a)) (schedule st).

(** ** Notions of the properties *)

(** [keeps f c]: the method [c] leaves [f] of the launcher as it was. *)
Definition keeps {A B} (f : Launcher → B) (c : M A) : Prop :=
  ∀ st a st', c st = Ok (a, st') → f st' = f st.

(** The launcher's own fields that neither handler of a phase writes. *)
Definition settings (st : Launcher) : Config * bool * RunFunc * bool :=
  (config st, isMultiremote st, endHandlerRunFunc st, finishedTests st).

(** The bail filter lets the entries through. *)
Definition bailOpen (st : Launcher) : bool :=
  match bail (config st) with
  | None => true
  | Some b => (b <? 1) || (runnerFailed st <? b)
  end.

(** [this.schedule.forEach((t) => { t.testcases = [] })] *)
Definition clearTestcases : Launcher → Launcher :=
  upd_schedule (fmap (set_testcases (Some []))).

(** The total of the running instances is below [config.maxInstances]. *)
Definition below (st : Launcher) : bool :=
  getNumberOfRunningInstances st <? maxInstances (config st).

Definition availableAt (st : Launcher) (r : nat) : bool :=
  match schedule st !! r with
  | Some a => 0 <? availableInstances a
  | None => false
  end.

Definition pendingAt (queue : ScheduleEntry → option (list string)) (st : Launcher) (r : nat) : bool :=
  match schedule st !! r ≫= queue with
  | Some (_ :: _) => true
  | _ => false
  end.

(** The schedulable entries in the order of their registration. *)
Definition candidates (queue : ScheduleEntry → option (list string)) (st : Launcher) : list nat :=
  List.filter (pendingAt queue st) (List.filter (availableAt st) (seq 0 (length (schedule st)))).

(** An entry after the dispatch of the head of its queue. *)
Definition occupied (a : ScheduleEntry) : ScheduleEntry :=
  set_runningInstances (runningInstances a + 1)
    (set_availableInstances (availableInstances a - 1) a).

(** Everything of the launcher but the schedule, the counters of started
    processes, the processes and the reports. *)
Definition rest (st : Launcher) :=
  (config st, isMultiremote st, exitCode st, hasTriggeredExitRoutine st,
   hasStartedAnyProcess st, runnerFailed st, finishedTests st, validationResults st,
   validationStates st, stepStates st, stackStore st, stackStoreLocks st, stepErrors st,
   waitUntilErrors st, endHandlerRunFunc st, resolved st).

(** What one turn of a dispatch loop does: it answers [true] after the
    dispatch of the head of the queue of a schedulable entry, and [false]
    with no process started. *)
Definition turnsTo (queue : ScheduleEntry → option (list string))
    (setQueue : option (list string) → ScheduleEntry → ScheduleEntry)
    (st : Launcher) (again : bool) (st' : Launcher) : Prop :=
  rest st' = rest st ∧
  if again then
    below st = true ∧
    ∃ r a x q, In r (candidates queue st) ∧ schedule st !! r = Some a ∧
               0 < availableInstances a ∧ queue a = Some (x :: q) ∧
               schedule st' = <[r := occupied (setQueue (Some q) a)]> (schedule st) ∧
               ∃ p, processes st' = processes st ++ [p] ∧ p_specs p = [Some x]
  else
    processes st' = processes st ∧
    (st' = st ∨ (bailOpen st = false ∧ st' = clearTestcases st)).

(** The dispatch function of a phase writes the queue of that phase. *)
Definition setQueueOf (f : RunFunc) : option (list string) → ScheduleEntry → ScheduleEntry :=
  match f with
  | RunTestcases => set_testcases
  | RunSpecs => set_specs
  end.

Definition turnOf (engine : SortEngine) (f : RunFunc) : M bool :=
  match f with
  | RunTestcases => testcaseTurn engine
  | RunSpecs => specTurn engine
  end.

(** The turns of one run of a dispatch loop, up to the turn that leaves
    it. *)
Inductive runsTo (f : RunFunc) : Launcher → Launcher → Prop :=
| runs_last st st' :
    turnsTo (queueOf f) (setQueueOf f) st false st' → runsTo f st st'
| runs_turn st st1 st' :
    turnsTo (queueOf f) (setQueueOf f) st true st1 → runsTo f st1 st' → runsTo f st st'.

(** The launcher after [endHandler] has recorded an exit code. *)
Definition afterExit (childProcessExitCode : option Z) (st : Launcher) : Launcher :=
  upd_runnerFailed (λ n, n + match childProcessExitCode with Some 0 => 0 | _ => 1 end)
    (upd_exitCode (λ c, if truthyCode c then c else childProcessExitCode) st).

(** The launcher after [endHandler] has reported the end and resolved the
    promise of the phase. *)
Definition concluded (st : Launcher) : Launcher :=
  upd_resolved (λ l, l ++ [match exitCode st with Some 0 => 0 | _ => 1 end])
    (upd_reported (λ l, l ++ [{| r_event := "end";
                                 r_payload := PEnd (hasTriggeredExitRoutine st) (exitCode st) |}])
       st).

(** An entry after the exit of one of its workers. *)
Definition released (a : ScheduleEntry) : ScheduleEntry :=
  set_runningInstances (runningInstances a - 1)
    (set_availableInstances (availableInstances a + 1) a).

(** The fields that the message handler leaves alone: all that the
    schedule and the exit handler work with. *)
Definition schedulerSide (st : Launcher) :=
  (config st, isMultiremote st, exitCode st, hasTriggeredExitRoutine st, processes st,
   schedule st, rid st, processesStarted st, runnerFailed st, finishedTests st,
   endHandlerRunFunc st, resolved st).

(** The counters of the entries, in the order of the schedule. *)
Definition counters (st : Launcher) : list (Z * Z) :=
  (λ a, (availableInstances a, runningInstances a)) <$> schedule st.


(** The states of the schedule in a run for the capabilities [caps] under
    the configuration [cfg]: the schedule as [run] builds it at the start of
    either phase, one turn of the dispatch loop of the phase, the release
    of a slot at the exit of a worker, and any step that leaves the
    schedule alone (a message, an interrupt, the bookkeeping of
    [endHandler]). *)
Inductive reachable (engine : SortEngine) (cfg : Config) (caps : list Capabilities)
  : Launcher → Prop :=
| reach_testcases st :
    config st = cfg → endHandlerRunFunc st = RunTestcases →
    schedule st = testcaseEntries cfg 0 caps → reachable engine cfg caps st
| reach_specs st :
    config st = cfg → endHandlerRunFunc st = RunSpecs →
    schedule st = specEntries cfg 0 caps → reachable engine cfg caps st
| reach_turn st again st' :
    reachable engine cfg caps st →
    turnOf engine (endHandlerRunFunc st) st = Ok (again, st') → reachable engine cfg caps st'
| reach_exit st runner st' :
    reachable engine cfg caps st →
    releaseInstance runner st = Ok (tt, st') → reachable engine cfg caps st'
| reach_aside st st' :
    reachable engine cfg caps st →
    config st' = config st → endHandlerRunFunc st' = endHandlerRunFunc st →
    schedule st' = schedule st → reachable engine cfg caps st'.

(** "That capability's per-capability instance limit
    (capabilities.maxInstances, or config.maxInstancesPerCapability when
    unset)." *)
Definition limitOf (cfg : Config) (c : Capabilities) : Z :=
  match cap_maxInstances c with
  | Some n => n
  | None => maxInstancesPerCapability cfg
  end.

(** The invariant behind the bounds: besides them, every entry has its
    counters add up to the limit of its capability. *)
Definition bounded (cfg : Config) (caps : list Capabilities) (st : Launcher) : Prop :=
  getNumberOfRunningInstances st <= maxInstances cfg ∧
  Forall2 (λ a c, runningInstances a <= instancesOf cfg c ∧
                  availableInstances a + runningInstances a = instancesOf cfg c)
          (schedule st) caps.

(** The invariant of the reachable states. *)
Definition sound (cfg : Config) (caps : list Capabilities) (st : Launcher) : Prop :=
  config st = cfg ∧ hasQueues (queueOf (endHandlerRunFunc st)) st ∧ bounded cfg caps st.

(** A comparison function that answers whether the key of its first
    argument is the greater one, as a boolean. *)
Definition greater {A} (key : A → Z) (a b : A) : Z := Js.toNumber (key b <? key a).

(** The sorted part in reverse: keys do not ascend. *)
Definition descends {A} (key : A → Z) (l : list A) : Prop :=
  StronglySorted (λ a b, key b <= key a) l.

(** The running instances of the entry that a reference points to. *)
Definition runningAt (st : Launcher) (r : nat) : Z :=
  from_option runningInstances 0 (schedule st !! r).

(** A name that no plain object inherits a property under. *)
Definition ordinary (key : string) : Prop := Js.inherited key = false.

(** The record that the results of a group hold for a story, and the
    [failures] and [successes] buckets that the record holds for a
    criteria: [None] when the group, the story or the bucket is not
    there.  The names are ordinary where these are used, so that what is
    not there is [undefined] to the code. *)
Definition recordOf (st : Launcher) (group : string) (story : option string) : option Story :=
  validationResults st !! group ≫= λ stories, stories !! Js.toString story.

Definition failuresOf (st : Launcher) (group : string) (story criteria : option string)
  : option (list Failure) :=
  recordOf st group story ≫= λ record, failures record !! Js.toString criteria.

Definition successesOf (st : Launcher) (group : string) (story criteria : option string)
  : option (list Success) :=
  recordOf st group story ≫= λ record, successes record !! Js.toString criteria.


(** The classification of an outcome of [evaluateValidations]. *)
Definition verdict (r : result (Validation * Msg * Launcher)) : result Validation :=
  match r with
  | Ok (v, _, _) => Ok v
  | Throw e => Throw e
  end.

(** What the classification reads, and the phase in which it is read. *)
Definition recorded (st : Launcher) : gmap string (gmap string Story) * bool :=
  (validationResults st, finishedTests st).

(** The entry of [levelStatus] for the level below the step that ends:
    the level of its child steps. *)
Definition levelBelow (state : StepState) : option Status :=
  items (levelStatus state) !! Z.to_nat (stepLevel state).

(** The assertion failures that await the end of the step. *)
Definition pendingFailures (st : Launcher) (group : string) : option (list Assertion) :=
  validationStates st !! group ≫= assertionFailures.

(** The statuses that the reporters received with the events of a tag. *)
Definition statusesOf (tag : string) (st : Launcher) : list (option Status) :=
  omap (λ r, match r_payload r with
             | PMessage m => if String.eqb (r_event r) tag then Some (m_status m) else None
             | _ => None
             end) (reported st).

(** The buffered assertion as [handleAssertion] leaves it: without the
    first line of a stack that does not begin with [at]. *)
Definition normalized (a : Assertion) : Assertion :=
  match a_stack a with
  | Some stack =>
      if Js.indexOf (Js.trim stack) "at" =? 0 then a
      else set_a_stack (Some (Js.join_nl (tail (Js.split_nl stack)))) a
  | None => a
  end.

(** The runner id that a message is handled under ([m.cid || cid]), and
    its group. *)
Definition cidOf (runner : string) (m : Msg) : string :=
  if Js.truthy (m_cid m) then Js.toString (m_cid m) else runner.

Definition groupOf (runner : string) (m : Msg) : string := getCidGroup (cidOf runner m).

(** The assertions that the reporters received under [tag] with the
    messages of the runners of [group], in the order of the reports. *)
Definition stepAssertions (tag group : string) (reports : list Report) : list Assertion :=
  omap (λ r, match r_payload r with
             | PMessage m =>
                 if (String.eqb (r_event r) tag
                     && String.eqb (getCidGroup (Js.toString (m_cid m))) group)%bool
                 then m_assertion m else None
             | _ => None
             end) reports.

(** An event that starts or fails a test of the group. *)
Definition testOf (group : string) (ev : Event) : bool :=
  match ev with
  | Message runner m =>
      (String.eqb (groupOf runner m) group && (eventIs m "test:start" || eventIs m "test:fail"))%bool
  | _ => false
  end.

(** A message that is no step error. *)
Definition plain (m : Msg) : Prop :=
  eventIs m "step:failed" = false ∧ eventIs m "step:broken" = false.

(** [aside group st st']: from [st] to [st'] the buffers of the group
    and the phase have stayed as they were, and the reporters have
    received no assertion of a step error of the group. *)
Definition aside (group : string) (st st' : Launcher) : Prop :=
  stepErrors st' !! group = stepErrors st !! group ∧
  finishedTests st' = finishedTests st ∧
  ∃ news, reported st' = reported st ++ news ∧
          stepAssertions "step:failed" group news = [] ∧
          stepAssertions "step:broken" group news = [].

Definition quiet (group : string) {A} (c : M A) : Prop :=
  ∀ st a st', c st = Ok (a, st') → aside group st st'.

(** An assertion whose [specObj] names stories and criteria by ordinary
    names only. *)
Definition ordinarySpec (a : Assertion) : Prop :=
  Forall (λ entry, ordinary (fst entry) ∧ Forall ordinary (snd entry))
         (default [] (a_specObj a)).

(** The texts of the assertions, each followed by a blank line. *)
Fixpoint aggregate (text : Assertion → option string) (l : list Assertion) : string :=
  match l with
  | [] => EmptyString
  | a :: l' => Js.toString (text a) +:+ Js.nl +:+ Js.nl +:+ aggregate text l'
  end.

(** The message after [handleAssertion] has added an assertion to it. *)
Definition noted (a : Assertion) (m : Msg) : Msg :=
  match m_err m, m_errs m with
  | Some err, Some (ErrsAssertions errs) =>
      set_m_errs (Some (ErrsAssertions (errs ++ [a])))
        (set_m_err (Some {| e_message := appended (e_message err) (a_message a);
                            e_stack := appended (e_stack err) (a_stack a);
                            e_matcherName := e_matcherName err |}) m)
  | _, _ => m
  end.

(** Everything of the launcher but the validation results. *)
Definition butResults (st : Launcher) :=
  (config st, isMultiremote st, exitCode st, hasTriggeredExitRoutine st,
   hasStartedAnyProcess st, processes st, schedule st, rid st, processesStarted st,
   runnerFailed st, finishedTests st, validationStates st, stepStates st, stackStore st,
   stackStoreLocks st, stepErrors st, waitUntilErrors st, endHandlerRunFunc st,
   reported st, resolved st).

(** ** Concrete runs *)

Definition emptySchedule : Launcher :=
  newLauncher {| maxInstances := 100; maxInstancesPerCapability := 100;
                 bail := Some 0; reportErrorsInstantly := false |} false.

Definition oneTestcase : Launcher :=
  upd_schedule (λ _, [{| cid := 0;
                          caps := {| cap_maxInstances := None; cap_testcases := ["a.tc.js"];
                                     cap_specs := [] |};
                          testcases := Some ["a.tc.js"]; specs := None;
                          availableInstances := 100; runningInstances := 0 |}])
               emptySchedule.

(** A concrete run: the defaults of the configuration, and one capability
    limited to one instance with two spec files. *)
Definition defaults : Config :=
  {| maxInstances := 100; maxInstancesPerCapability := 100;
     bail := Some 0; reportErrorsInstantly := false |}.

Definition oneByOne : Capabilities :=
  {| cap_maxInstances := Some 1;
     cap_testcases := ["a.tc.js"; "b.tc.js"];
     cap_specs := ["a.spec.js"; "b.spec.js"] |}.

(** A capability whose limit is set to 0. *)
Definition zeroLimit : Capabilities :=
  {| cap_maxInstances := Some 0;
     cap_testcases := ["a.tc.js"; "b.tc.js"];
     cap_specs := ["a.spec.js"; "b.spec.js"] |}.

(** A message with nothing but its event tag. *)
Definition bare (tag : string) : Msg :=
  {| m_event := tag; m_cid := None; m_title := TitleFalsy; m_metadata := None;
     m_specs := None; m_spec := None; m_testcase := None; m_validate := None;
     m_status := None; m_assertion := None; m_err := None; m_errs := None;
     m_assertionFailures := None; m_screenshots := None; m_arguments := None;
     m_stack := None; m_name := None; m_command := None; m_id := None |}.

(** The launcher that a method leaves behind, or [st] if it throws. *)
Definition after {A} (c : M A) (st : Launcher) : Launcher :=
  match c st with
  | Ok (_, st') => st'
  | Throw _ => st
  end.




(** Two capabilities with two testcases each under a global limit of
    three instances: phase one starts, one worker exits. *)
Definition limitThree : Config :=
  {| maxInstances := 3; maxInstancesPerCapability := 2;
     bail := Some 0; reportErrorsInstantly := false |}.

Definition twoFiles : Capabilities :=
  {| cap_maxInstances := None;
     cap_testcases := ["a.tc.js"; "b.tc.js"];
     cap_specs := ["a.spec.js"; "b.spec.js"] |}.

(** Two capabilities under a global limit of two instances: the first may
    run two workers and has two testcases, the second may run one worker
    and has one testcase. *)
Definition limitTwo : Config :=
  {| maxInstances := 2; maxInstancesPerCapability := 100;
     bail := Some 0; reportErrorsInstantly := false |}.

Definition twoWorkers : Capabilities :=
  {| cap_maxInstances := Some 2; cap_testcases := ["a.tc.js"; "b.tc.js"]; cap_specs := [] |}.

Definition oneWorker : Capabilities :=
  {| cap_maxInstances := Some 1; cap_testcases := ["c.tc.js"]; cap_specs := [] |}.

(** The schedule of [run] for them, after the first turn of the loop of
    [runTestcases]. *)
Definition firstDispatched : Launcher :=
  after (testcaseTurn V8.engine)
    (upd_schedule (λ _, testcaseEntries limitTwo 0 [twoWorkers; oneWorker])
                  (newLauncher limitTwo false)).

(** Messages of a concrete run. *)
Definition testStart (file : string) : Msg :=
  {| m_event := "test:start"; m_cid := None; m_title := TitleFalsy; m_metadata := None;
     m_specs := Some [file]; m_spec := None; m_testcase := None; m_validate := None;
     m_status := None; m_assertion := None; m_err := None; m_errs := None;
     m_assertionFailures := None; m_screenshots := None; m_arguments := None;
     m_stack := None; m_name := None; m_command := None; m_id := None |}.

Definition validating (story criteria : string) : Msg :=
  {| m_event := "step:end"; m_cid := None; m_title := TitleFalsy; m_metadata := None;
     m_specs := None; m_spec := None; m_testcase := None;
     m_validate := Some (Some story, Some criteria);
     m_status := None; m_assertion := None; m_err := None; m_errs := None;
     m_assertionFailures := None; m_screenshots := None; m_arguments := None;
     m_stack := None; m_name := None; m_command := None; m_id := None |}.

(** An assertion on criteria C1 of story S1, thrown in the testcase. *)
Definition expectation (text : string) (matcher : option string) : Assertion :=
  {| a_message := Some text;
     a_stack := Some ("Error: " +:+ text +:+ Js.nl +:+ "    at testcase (login.tc.js:12:5)");
     a_matcherName := matcher; a_expected := None; a_actual := None; a_errorType := None;
     a_specObj := Some [("S1", ["C1"])];
     a_screenshotFilename := None; a_screenshotId := None |}.

Definition asserting (tag : string) (a : Assertion) : Msg := set_m_assertion (Some a) (bare tag).

(** A testcase failed a step on an expectation with a matcher; phase two
    has begun and its validator has ended the step that validates
    criteria C1 of story S1. *)
Definition validatingC1 : Launcher :=
  after (handleAll V8.engine [Message "0-0" (validating "S1" "C1")])
    (upd_finishedTests (λ _, true)
       (after (handleAll V8.engine
                 [Message "0-0" (testStart "login.tc.js");
                  Message "0-0" (asserting "step:failed" (expectation "expected 1 to be 2" (Some "toBe")));
                  Message "0-0" (bare "test:fail")])
              (newLauncher defaults false))).

(** A step with two child steps: the first child fails an expectation,
    the second child has a step of its own and passes.  The events up to
    the end of the second child: *)
Definition nestedSteps : list Event :=
  [Message "0-0" (testStart "login.tc.js");
   Message "0-0" (bare "step:start");
   Message "0-0" (bare "step:start");
   Message "0-0" (asserting "validate:failure" (expectation "expected 1 to be 2" (Some "toBe")));
   Message "0-0" (bare "step:end");
   Message "0-0" (bare "step:start");
   Message "0-0" (bare "step:start");
   Message "0-0" (bare "step:end");
   Message "0-0" (bare "step:end")].

(** A testcase failed a step on an expectation and broke a step on an
    error without a matcher. *)
Definition failedAndBroken : Launcher :=
  after (handleAll V8.engine
           [Message "0-0" (testStart "login.tc.js");
            Message "0-0" (asserting "step:failed" (expectation "expected 1 to be 2" (Some "toBe")));
            Message "0-0" (asserting "step:broken" (expectation "element not found" None))])
        (newLauncher defaults false).

(** * Properties

    ** Reasoning about methods *)

Lemma bind_Ok {A B} (c : M A) (k : A → M B) st b st' :
  bind c k st = Ok (b, st') ↔ ∃ a st1, c st = Ok (a, st1) ∧ k a st1 = Ok (b, st').
Proof.
  unfold bind. destruct (c st) as [[a st1]|e]; split.
  - eauto.
  - by intros (? & ? & [= -> ->] & ?).
  - done.
  - by intros (? & ? & ? & ?).
Qed.

Ltac inv_bind H :=
  let a := fresh "a" in let st1 := fresh "st" in let H1 := fresh H in
  apply bind_Ok in H as (a & st1 & H1 & H).

Tactic Notation "unbind" hyp(H) "as" simple_intropattern(a) ident(st1) ident(H1) :=
  apply bind_Ok in H as (a & st1 & H1 & H).

Section Keeps.
Context {B : Type} (f : Launcher → B).

Lemma keeps_ret {A} (a : A) : keeps f (ret a).
Proof. by intros st a' st' [= _ ->]. Qed.

Lemma keeps_throw {A} e : keeps f (@throw A e).
Proof. by intros st a st'. Qed.

Lemma keeps_get : keeps f get.
Proof. by intros st a st' [= _ ->]. Qed.

Lemma keeps_lift {A} (r : result A) : keeps f (lift r).
Proof. intros st a st'. unfold lift. by destruct r; intros [= _ ->]. Qed.

Lemma keeps_modify g : (∀ st, f (g st) = f st) → keeps f (modify g).
Proof. by intros Hg st a st' [= _ <-]. Qed.

Lemma keeps_bind {A C} (c : M A) (k : A → M C) :
  keeps f c → (∀ a, keeps f (k a)) → keeps f (bind c k).
Proof.
  intros Hc Hk st b st' H. inv_bind H.
  rewrite (Hk _ _ _ _ H). eauto.
Qed.

Lemma keeps_forM {A} (l : list A) body : (∀ x, keeps f (body x)) → keeps f (forM l body).
Proof.
  intros Hbody. induction l as [|x l IH]; simpl.
  - apply keeps_ret.
  - apply keeps_bind; auto.
Qed.

Lemma keeps_filterM {A} (l : list A) p : (∀ x, keeps f (p x)) → keeps f (filterM p l).
Proof.
  intros Hp. induction l as [|x l IH]; simpl.
  - apply keeps_ret.
  - apply keeps_bind; [auto|]. intros keep. apply keeps_bind; [auto|].
    intros rest. apply keeps_ret.
Qed.

Lemma keeps_while bound turn : keeps f turn → keeps f (while bound turn).
Proof.
  intros Hturn. induction bound as [|bound IH]; simpl.
  - apply keeps_throw.
  - apply keeps_bind; [auto|]. intros []; [auto|apply keeps_ret].
Qed.
End Keeps.

Ltac keeps_step :=
  lazymatch goal with
  | |- keeps _ (bind _ _) => apply keeps_bind; [|intros ?]
  | |- keeps _ (ret _) => apply keeps_ret
  | |- keeps _ (throw _) => apply keeps_throw
  | |- keeps _ get => apply keeps_get
  | |- keeps _ (lift _) => apply keeps_lift
  | |- keeps _ (modify _) => apply keeps_modify; intros ?; reflexivity
  | |- keeps _ (forM _ _) => apply keeps_forM; intros ?
  | |- keeps _ (filterM _ _) => apply keeps_filterM; intros ?
  | |- keeps _ (while _ _) => apply keeps_while
  | |- keeps _ (match ?x with _ => _ end) => destruct x
  end.

Ltac keeps_tac := repeat (keeps_step || assumption).

Create HintDb keeps discriminated.

(** ** Sums over the schedule *)

Lemma foldl_add_acc (l : list Z) (x : Z) : foldl Z.add x l = x + foldl Z.add 0 l.
Proof.
  revert x; induction l as [|y l IH]; intros x; cbn [foldl]; [lia|].
  rewrite (IH (x + y)), (IH (0 + y)). lia.
Qed.

Lemma sum_alter {A} (f : A → Z) (g : A → A) (l : list A) (i : nat) (a : A) :
  l !! i = Some a →
  foldl Z.add 0 (f <$> alter g i l) = foldl Z.add 0 (f <$> l) + (f (g a) - f a).
Proof.
  revert i; induction l as [|y l IH]; intros [|i] H; simplify_eq/=.
  - rewrite (foldl_add_acc _ (f (g a))), (foldl_add_acc _ (f a)). lia.
  - rewrite (foldl_add_acc _ (f y)), (foldl_add_acc (f <$> l) (f y)).
    rewrite (IH _ H). lia.
Qed.


(** ** The filters of the dispatch loops *)

Section Filters.
Context (engine : SortEngine).

Lemma entry_eq r st a : schedule st !! r = Some a → entry r st = Ok (a, st).
Proof. unfold entry. by intros ->. Qed.

Lemma bailFilter_eq st :
  bailFilter st = Ok (bailOpen st, if bailOpen st then st else clearTestcases st).
Proof.
  unfold bailFilter, bailOpen, bind, get, ret, modify; simpl.
  destruct (bail (config st)) as [b|]; [|done].
  by destruct (_ || _).
Qed.

Lemma bailOpen_clear st : bailOpen (clearTestcases st) = bailOpen st.
Proof. done. Qed.

Lemma clearTestcases_idemp st : clearTestcases (clearTestcases st) = clearTestcases st.
Proof.
  unfold clearTestcases, upd_schedule; simpl. f_equal.
  rewrite <- list_fmap_compose. by apply list_fmap_ext.
Qed.

Lemma filterM_bail {A} (l : list A) st :
  filterM (λ _, bailFilter) l st
  = Ok (if bailOpen st then l else [],
        if (bailOpen st || bool_decide (l = []))%bool then st else clearTestcases st).
Proof.
  revert st; induction l as [|x l IH]; intros st; simpl.
  - unfold ret. by destruct (bailOpen st).
  - unfold bind at 1. rewrite bailFilter_eq.
    destruct (bailOpen st) eqn:Hopen.
    + unfold bind. rewrite IH, Hopen. simpl. done.
    + unfold bind. rewrite IH, bailOpen_clear, Hopen. simpl.
      unfold ret. by destruct (bool_decide (l = [])); rewrite ?clearTestcases_idemp.
Qed.

Lemma filterM_pure {A} (p : A → M bool) (q : A → bool) (l : list A) st :
  (∀ x, In x l → p x st = Ok (q x, st)) →
  filterM p l st = Ok (List.filter q l, st).
Proof.
  induction l as [|x l IH]; intros Hp; simpl; [done|].
  unfold bind at 1. rewrite (Hp x) by (by left).
  unfold bind. rewrite IH by (intros; apply Hp; by right).
  unfold ret. by destruct (q x).
Qed.

Lemma belowMaxInstances_eq st : belowMaxInstances st = Ok (below st, st).
Proof. done. Qed.

Lemma hasAvailableInstances_eq r st :
  (r < length (schedule st))%nat → hasAvailableInstances r st = Ok (availableAt st r, st).
Proof.
  intros Hr. apply lookup_lt_is_Some_2 in Hr as [a Ha].
  unfold hasAvailableInstances, availableAt, bind. by rewrite (entry_eq _ _ _ Ha), Ha.
Qed.

Lemma hasQueue_eq (queue : ScheduleEntry → option (list string)) r st :
  hasQueues queue st → (r < length (schedule st))%nat →
  (let! a := entry r in let! n := lift (lengthOf (queue a)) in ret (0 <? n)) st
  = Ok (pendingAt queue st r, st).
Proof.
  intros Hwf Hr. apply lookup_lt_is_Some_2 in Hr as [a Ha].
  unfold pendingAt, bind. rewrite (entry_eq _ _ _ Ha), Ha; simpl.
  unfold hasQueues in Hwf. rewrite Forall_lookup in Hwf.
  destruct (Hwf _ _ Ha) as [q Hq]. rewrite Hq; simpl.
  unfold ret. by destruct q.
Qed.

Lemma filter_seq_bound (q : nat → bool) n r : In r (List.filter q (seq 0 n)) → (r < n)%nat.
Proof. rewrite filter_In, in_seq. lia. Qed.

Lemma schedulableSpecs_eq st :
  hasQueues specs st →
  schedulableSpecs engine st
  = Ok (array_sort engine nat (byRunningInstances st)
          (if below st then candidates specs st else []), st).
Proof.
  intros Hwf. unfold schedulableSpecs, candidates.
  unfold bind at 1, get.
  unfold bind at 1.
  rewrite (filterM_pure _ (λ _, below st)) by done.
  unfold bind at 1.
  rewrite (filterM_pure _ (availableAt st)); last first.
  { intros r Hr. apply hasAvailableInstances_eq.
    apply filter_In in Hr as [Hr _]. apply in_seq in Hr. lia. }
  unfold bind at 1.
  rewrite (filterM_pure _ (pendingAt specs st)); last first.
  { intros r Hr. apply (hasQueue_eq specs); [done|].
    apply filter_In in Hr as [Hr _]. apply filter_In in Hr as [Hr _]. apply in_seq in Hr. lia. }
  unfold bind, get, ret. do 3 f_equal.
  destruct (below st).
  - f_equal. f_equal. clear. induction (seq 0 _) as [|x l IH]; simpl; by f_equal.
  - clear. induction (seq 0 _) as [|x l IH]; simpl; done.
Qed.
End Filters.

Lemma bind_step {A B} (c : M A) (k : A → M B) st a st1 :
  c st = Ok (a, st1) → bind c k st = k a st1.
Proof. unfold bind. by intros ->. Qed.

Lemma bind_modify {B} f (k : unit → M B) st : bind (modify f) k st = k tt (f st).
Proof. done. Qed.

Lemma bind_get {B} (k : Launcher → M B) st : bind get k st = k st st.
Proof. done. Qed.

Lemma bind_ret {A B} (a : A) (k : A → M B) st : bind (ret a) k st = k a st.
Proof. done. Qed.

Lemma bind_bind {A B C} (c : M A) (k : A → M B) (h : B → M C) st :
  bind (bind c k) h st = bind c (λ a, bind (k a) h) st.
Proof. unfold bind. by destruct (c st) as [[]|]. Qed.

Section Dispatch.
Context (engine : SortEngine).

Lemma clearTestcases_empty st : schedule st = [] → clearTestcases st = st.
Proof. destruct st; simpl; intros ->. done. Qed.

Lemma schedulableTestcases_eq st :
  hasQueues testcases st →
  schedulableTestcases engine st
  = Ok (array_sort engine nat
          (byRunningInstances (if bailOpen st then st else clearTestcases st))
          (if bailOpen st then if below st then candidates testcases st else [] else []),
        if bailOpen st then st else clearTestcases st).
Proof.
  intros Hwf. unfold schedulableTestcases, candidates.
  unfold bind at 1, get.
  unfold bind at 1. rewrite filterM_bail.
  destruct (bailOpen st) eqn:Hopen; simpl.
  - unfold bind at 1.
    rewrite (filterM_pure _ (λ _, below st)) by done.
    unfold bind at 1.
    rewrite (filterM_pure _ (availableAt st)); last first.
    { intros r Hr. apply hasAvailableInstances_eq.
      apply filter_In in Hr as [Hr _]. apply in_seq in Hr. lia. }
    unfold bind at 1.
    rewrite (filterM_pure _ (pendingAt testcases st)); last first.
    { intros r Hr. apply (hasQueue_eq testcases); [done|].
      apply filter_In in Hr as [Hr _]. apply filter_In in Hr as [Hr _]. apply in_seq in Hr. lia. }
    unfold bind, get, ret. do 3 f_equal.
    destruct (below st).
    + f_equal. f_equal. clear. induction (seq 0 _) as [|x l IH]; simpl; by f_equal.
    + clear. induction (seq 0 _) as [|x l IH]; simpl; done.
  - unfold bind, ret, get; simpl.
    destruct (bool_decide _) eqn:Hnil; [|done].
    apply bool_decide_eq_true in Hnil.
    assert (schedule st = []) as Hs by (by destruct (schedule st)).
    by rewrite (clearTestcases_empty _ Hs).
Qed.

Lemma array_sort_nil {A} (c : A → A → Z) : array_sort engine A c [] = [].
Proof. apply Permutation_nil_r. apply array_sort_perm. Qed.

Lemma array_sort_head {A} (c : A → A → Z) l r l' :
  array_sort engine A c l = r :: l' → In r l.
Proof.
  intros H. apply list_elem_of_In. rewrite <- (array_sort_perm engine A c l), H. by left.
Qed.

Lemma alter_insert {A} (f : A → A) (l : list A) i a :
  l !! i = Some a → alter f i l = <[i := f a]> l.
Proof.
  revert i; induction l as [|y l IH]; intros [|i] H; simplify_eq/=; [done|].
  f_equal. by apply IH.
Qed.

Lemma candidates_spec queue st r :
  In r (candidates queue st) →
  ∃ a x q, schedule st !! r = Some a ∧ 0 < availableInstances a ∧ queue a = Some (x :: q).
Proof.
  unfold candidates. rewrite !filter_In. intros [[_ Hav] Hp].
  unfold availableAt, pendingAt in *.
  destruct (schedule st !! r) as [a|]; [|done]. simpl in Hp.
  destruct (queue a) as [[|x q]|] eqn:Hq; try done.
  exists a, x, q. split_and!; [done| lia |done].
Qed.

Lemma dispatchSpec_eq r a x q st :
  schedule st !! r = Some a → specs a = Some (x :: q) →
  ∃ st', dispatchSpec r st = Ok (tt, st') ∧
         schedule st' = <[r := occupied (set_specs (Some q) a)]> (schedule st) ∧
         ∃ p, processes st' = processes st ++ [p] ∧ p_specs p = [Some x].
Proof.
  intros Ha Hq. unfold dispatchSpec, shiftSpecs.
  rewrite bind_bind, (bind_step _ _ _ _ _ (entry_eq _ _ _ Ha)), Hq.
  unfold setEntry. rewrite bind_bind, bind_modify, bind_ret.
  erewrite bind_step; last first.
  { apply entry_eq. simpl. rewrite list_lookup_alter_eq, Ha. reflexivity. }
  eexists; split; [reflexivity|]. simpl. split.
  - rewrite !list_alter_alter_eq. by rewrite (alter_insert _ _ _ _ Ha).
  - eexists; split; reflexivity.
Qed.

Lemma dispatchTestcase_eq r a x q st :
  schedule st !! r = Some a → testcases a = Some (x :: q) →
  ∃ st', dispatchTestcase r st = Ok (tt, st') ∧
         schedule st' = <[r := occupied (set_testcases (Some q) a)]> (schedule st) ∧
         ∃ p, processes st' = processes st ++ [p] ∧ p_specs p = [Some x].
Proof.
  intros Ha Hq. unfold dispatchTestcase, shiftTestcases.
  rewrite bind_bind, (bind_step _ _ _ _ _ (entry_eq _ _ _ Ha)), Hq.
  unfold setEntry. rewrite bind_bind, bind_modify, bind_ret.
  erewrite bind_step; last first.
  { apply entry_eq. simpl. rewrite list_lookup_alter_eq, Ha. reflexivity. }
  eexists; split; [reflexivity|]. simpl. split.
  - rewrite !list_alter_alter_eq. by rewrite (alter_insert _ _ _ _ Ha).
  - eexists; split; reflexivity.
Qed.

Lemma keeps_entry {B} (f : Launcher → B) r : keeps f (entry r).
Proof. intros st a st'. unfold entry. by destruct (_ !! _); intros [= _ ->]. Qed.

Lemma dispatchSpec_rest r : keeps rest (dispatchSpec r).
Proof.
  unfold dispatchSpec, shiftSpecs, startValidatorInstance, getRunnerId, occupyInstance,
    setEntry, handleEvent.
  repeat (keeps_step || apply keeps_entry).
Qed.

Lemma dispatchTestcase_rest r : keeps rest (dispatchTestcase r).
Proof.
  unfold dispatchTestcase, shiftTestcases, startRunnerInstance, getRunnerId, occupyInstance,
    setEntry.
  repeat (keeps_step || apply keeps_entry).
Qed.

Lemma specTurn_spec st :
  hasQueues specs st →
  ∃ again st', specTurn engine st = Ok (again, st') ∧ turnsTo specs set_specs st again st'.
Proof.
  intros Hwf. unfold specTurn. unfold bind at 1. rewrite belowMaxInstances_eq.
  destruct (below st) eqn:Hbelow; last first.
  { exists false, st. unfold ret. split; [done|]. split; [done|]. split; [done|by left]. }
  unfold bind at 1. rewrite (schedulableSpecs_eq engine st Hwf), Hbelow.
  destruct (array_sort _ _ _ _) as [|r l] eqn:Hsort.
  { exists false, st. unfold ret. split; [done|]. split; [done|]. split; [done|by left]. }
  apply array_sort_head in Hsort.
  destruct (candidates_spec _ _ _ Hsort) as (a & x & q & Ha & Hav & Hq).
  destruct (dispatchSpec_eq r a x q st Ha Hq) as (st' & Hd & Hs & Hp).
  exists true, st'. unfold bind. rewrite Hd. split; [done|].
  split; [by apply (dispatchSpec_rest r _ _ _ Hd)|].
  split; [done|]. exists r, a, x, q. done.
Qed.

Lemma testcaseTurn_spec st :
  hasQueues testcases st →
  ∃ again st', testcaseTurn engine st = Ok (again, st') ∧
               turnsTo testcases set_testcases st again st'.
Proof.
  intros Hwf. unfold testcaseTurn. unfold bind at 1. rewrite belowMaxInstances_eq.
  destruct (below st) eqn:Hbelow; last first.
  { exists false, st. unfold ret. split; [done|]. split; [done|]. split; [done|by left]. }
  unfold bind at 1. rewrite (schedulableTestcases_eq st Hwf), Hbelow.
  destruct (bailOpen st) eqn:Hopen; last first.
  { rewrite array_sort_nil. exists false, (clearTestcases st). unfold ret.
    split; [done|]. split; [done|]. split; [done|by right]. }
  destruct (array_sort _ _ _ _) as [|r l] eqn:Hsort.
  { exists false, st. unfold ret. split; [done|]. split; [done|]. split; [done|by left]. }
  apply array_sort_head in Hsort.
  destruct (candidates_spec _ _ _ Hsort) as (a & x & q & Ha & Hav & Hq).
  destruct (dispatchTestcase_eq r a x q st Ha Hq) as (st' & Hd & Hs & Hp).
  exists true, st'. unfold bind. rewrite Hd. split; [done|].
  split; [by apply (dispatchTestcase_rest r _ _ _ Hd)|].
  split; [done|]. exists r, a, x, q. done.
Qed.
End Dispatch.

(** ** The dispatch loops terminate *)

Section Loops.
Context (engine : SortEngine).

Lemma turn_spec f st :
  hasQueues (queueOf f) st →
  ∃ again st', turnOf engine f st = Ok (again, st') ∧
               turnsTo (queueOf f) (setQueueOf f) st again st'.
Proof. destruct f; [apply testcaseTurn_spec | apply specTurn_spec]. Qed.

Lemma queue_occupied f q a : queueOf f (occupied (setQueueOf f q a)) = q.
Proof. by destruct f. Qed.

Lemma hasQueues_clear f st :
  hasQueues (queueOf f) st → hasQueues (queueOf f) (clearTestcases st).
Proof.
  unfold hasQueues, clearTestcases; simpl. intros H.
  apply Forall_fmap. eapply Forall_impl; [done|].
  intros a Ha; simpl. by destruct f.
Qed.

Lemma turnsTo_hasQueues f st again st' :
  turnsTo (queueOf f) (setQueueOf f) st again st' →
  hasQueues (queueOf f) st → hasQueues (queueOf f) st'.
Proof.
  intros [_ H] Hwf. destruct again.
  - destruct H as (_ & r & a & x & q & _ & _ & _ & _ & Hs & _).
    unfold hasQueues. rewrite Hs. apply Forall_insert; [done|].
    by rewrite queue_occupied.
  - destruct H as (_ & [-> | [_ ->]]); [done|by apply hasQueues_clear].
Qed.

Lemma sum_list_insert {A} (f : A → nat) (l : list A) i a a' :
  l !! i = Some a →
  (sum_list (f <$> <[i := a']> l) + f a = sum_list (f <$> l) + f a')%nat.
Proof.
  revert i; induction l as [|y l IH]; intros [|i] H; simplify_eq/=; [lia|].
  specialize (IH _ H). lia.
Qed.

Lemma turnsTo_queued f st st' :
  turnsTo (queueOf f) (setQueueOf f) st true st' →
  (queued (queueOf f) st' < queued (queueOf f) st)%nat.
Proof.
  intros (_ & _ & r & a & x & q & _ & Ha & _ & Hq & Hs & _).
  unfold queued. rewrite Hs.
  pose proof (sum_list_insert (λ a, length (default [] (queueOf f a))) _ r a
                (occupied (setQueueOf f (Some q) a)) Ha) as H.
  simpl in H. rewrite queue_occupied, Hq in H. simpl in H. lia.
Qed.

Lemma while_runs f bound st :
  hasQueues (queueOf f) st → (queued (queueOf f) st < bound)%nat →
  ∃ st', while bound (turnOf engine f) st = Ok (tt, st') ∧ runsTo f st st'.
Proof.
  revert st; induction bound as [|bound IH]; intros st Hwf Hlt; [lia|].
  destruct (turn_spec f st Hwf) as (again & st1 & Hturn & Hto).
  simpl. rewrite (bind_step _ _ _ _ _ Hturn). destruct again.
  - destruct (IH st1) as (st' & Hwhile & Hruns).
    + by eapply turnsTo_hasQueues.
    + apply turnsTo_queued in Hto. lia.
    + exists st'. split; [done|]. by eapply runs_turn.
  - exists st1. split; [done|]. by apply runs_last.
Qed.

Lemma runsTo_hasQueues f st st' :
  runsTo f st st' → hasQueues (queueOf f) st → hasQueues (queueOf f) st'.
Proof. induction 1; eauto using turnsTo_hasQueues. Qed.

Lemma runsTo_rest f st st' : runsTo f st st' → rest st' = rest st.
Proof.
  induction 1 as [st st' [H _]|st st1 st' [H _] _ IH]; [done|]. by rewrite IH.
Qed.

(** ** What the dispatch functions return *)

Lemma mapR_lengths (queue : ScheduleEntry → option (list string)) l lens :
  mapR (λ a, lengthOf (queue a)) l = Ok lens →
  Forall2 (λ a n, ∃ q, queue a = Some q ∧ n = Z.of_nat (length q)) l lens.
Proof.
  revert lens; induction l as [|a l IH]; intros lens; simpl.
  - intros [= <-]. constructor.
  - destruct (queue a) as [q|] eqn:Hq; [|done]. simpl.
    destruct (mapR _ l) as [lens'|]; [|done]. intros [= <-].
    constructor; eauto.
Qed.

Lemma mapR_total (queue : ScheduleEntry → option (list string)) l :
  Forall (λ a, is_Some (queue a)) l → ∃ lens, mapR (λ a, lengthOf (queue a)) l = Ok lens.
Proof.
  induction 1 as [|a l [q Hq] _ [lens IH]]; simpl; [by eexists|].
  rewrite Hq, IH. simpl. by eexists.
Qed.








Lemma runsTo_nonempty f st st' : runsTo f st st' → schedule st ≠ [] → schedule st' ≠ [].
Proof.
  induction 1 as [st st' [_ [_ H]]|st st1 st' [_ H] _ IH]; intros Hne.
  - destruct H as [-> | [_ ->]]; [done|]. simpl. by destruct (schedule st).
  - apply IH. destruct H as (_ & r & a & x & q & _ & _ & _ & _ & -> & _).
    intros Hnil. apply (f_equal length) in Hnil. rewrite length_insert in Hnil.
    by destruct (schedule st).
Qed.

Lemma runTestcases_returns st :
  hasTriggeredExitRoutine st = false → hasQueues testcases st → schedule st ≠ [] →
  ∃ b st', runTestcases engine st = Ok (b, st') ∧ runsTo RunTestcases st st'.
Proof.
  intros Hflag Hwf Hne. unfold runTestcases. rewrite bind_get, Hflag.
  destruct (while_runs RunTestcases (S (queued testcases st)) st Hwf)
    as (st' & Hwhile & Hruns); [simpl; lia|].
  simpl in Hwhile. rewrite (bind_step _ _ _ _ _ Hwhile), bind_get.
  destruct (_ =? 0); [|by eexists _, _].
  destruct (mapR_total testcases (schedule st')) as [lens Hlens].
  { by apply (runsTo_hasQueues RunTestcases st st'). }
  unfold bind, lift, getNumberOfTestcasesLeft. rewrite Hlens.
  destruct lens as [|n lens]; [|by eexists _, _].
  apply mapR_lengths in Hlens. apply Forall2_nil_inv_r in Hlens.
  by apply (runsTo_nonempty _ _ _ Hruns) in Hne.
Qed.
End Loops.

Section DispatchFunctions.
Context (engine : SortEngine).

Lemma runsTo_empty f st st' : runsTo f st st' → schedule st = [] → st' = st.
Proof.
  induction 1 as [st st' [_ [_ H]]|st st1 st' [_ H] _ IH]; intros Hnil.
  - destruct H as [-> | [_ ->]]; [done|]. by apply clearTestcases_empty.
  - destruct H as (_ & r & a & x & q & Hr & _).
    unfold candidates in Hr. rewrite Hnil in Hr. done.
Qed.

Lemma interrupted_returns st :
  hasTriggeredExitRoutine st = true →
  runTestcases engine st = Ok (true, st) ∧ runSpecs engine st = Ok (true, st).
Proof. intros H. unfold runTestcases, runSpecs. by rewrite !bind_get, H. Qed.

Lemma runTestcases_empty st :
  schedule st = [] → hasTriggeredExitRoutine st = false →
  runTestcases engine st = Throw (TypeError "Reduce of empty array with no initial value").
Proof.
  intros Hnil Hflag. unfold runTestcases. rewrite bind_get, Hflag.
  assert (hasQueues testcases st) as Hwf by (unfold hasQueues; rewrite Hnil; constructor).
  destruct (while_runs engine RunTestcases (S (queued testcases st)) st Hwf)
    as (st' & Hwhile & Hruns); [simpl; lia|].
  apply runsTo_empty in Hruns as ->; [|done].
  simpl in Hwhile. rewrite (bind_step _ _ _ _ _ Hwhile), bind_get.
  unfold getNumberOfRunningInstances, getNumberOfTestcasesLeft. by rewrite Hnil.
Qed.
End DispatchFunctions.

(** C10.  The accounting of an empty schedule: [getNumberOfRunningInstances]
    and [getNumberOfSpecsLeft] reduce with the initial value 0 and answer 0;
    [getNumberOfTestcasesLeft] reduces without one and throws "Reduce of
    empty array with no initial value", and so does [runTestcases] when it
    reaches its [return] (no interrupt was triggered).  On a schedule of at
    least one entry, each with its queue of testcases, both return. *)
Theorem testcases_left_needs_an_entry (engine : SortEngine) (st : Launcher) :
  (schedule st = [] →
     getNumberOfRunningInstances st = 0 ∧
     getNumberOfSpecsLeft st = Ok 0 ∧
     getNumberOfTestcasesLeft st
       = Throw (TypeError "Reduce of empty array with no initial value") ∧
     (hasTriggeredExitRoutine st = false →
      runTestcases engine st
        = Throw (TypeError "Reduce of empty array with no initial value"))) ∧
  (schedule st ≠ [] → hasQueues testcases st →
     (∃ n, getNumberOfTestcasesLeft st = Ok n) ∧
     (∃ b st', runTestcases engine st = Ok (b, st'))).
Proof.
  split.
  - intros Hnil. split_and!.
    + unfold getNumberOfRunningInstances. by rewrite Hnil.
    + unfold getNumberOfSpecsLeft. by rewrite Hnil.
    + unfold getNumberOfTestcasesLeft. by rewrite Hnil.
    + by apply runTestcases_empty.
  - intros Hne Hwf. split.
    + destruct (mapR_total testcases (schedule st) Hwf) as [lens Hlens].
      unfold getNumberOfTestcasesLeft. rewrite Hlens.
      destruct lens as [|n lens]; [|by eexists].
      apply mapR_lengths in Hlens. by apply Forall2_nil_inv_r in Hlens.
    + destruct (hasTriggeredExitRoutine st) eqn:Hflag.
      * exists true, st. by apply interrupted_returns.
      * destruct (runTestcases_returns engine st Hflag Hwf Hne) as (b & st' & H & _).
        by exists b, st'.
Qed.

Lemma testcases_left_needs_an_entry_witness :
  runTestcases V8.engine emptySchedule
    = Throw (TypeError "Reduce of empty array with no initial value") ∧
  ∃ b st', runTestcases V8.engine oneTestcase = Ok (b, st').
Proof.
  split.
  - apply (testcases_left_needs_an_entry V8.engine emptySchedule); reflexivity.
  - apply (testcases_left_needs_an_entry V8.engine oneTestcase).
    + discriminate.
    + repeat constructor. by eexists.
Defined.

Lemma upd_schedule_ext f g st :
  f (schedule st) = g (schedule st) → upd_schedule f st = upd_schedule g st.
Proof. unfold upd_schedule. by intros ->. Qed.

Lemma upd_schedule_compose f g st :
  upd_schedule g (upd_schedule f st) = upd_schedule (g ∘ f) st.
Proof. done. Qed.

Section ExitHandler.
Context (engine : SortEngine).

Lemma releaseInstance_inv runner st st' :
  releaseInstance runner st = Ok (tt, st') →
  ∃ r a, schedule st !! r = Some a ∧
         st' = upd_schedule (λ _, <[r := released a]> (schedule st)) st.
Proof.
  unfold releaseInstance. destruct (Js.parseInt runner) as [i|]; [|done].
  destruct (0 <=? i); [|done]. intros H. inv_bind H.
  unfold entry in H0. destruct (schedule st !! Z.to_nat i) as [a'|] eqn:Ha; [|done].
  injection H0 as <- <-. unfold setEntry in H. rewrite bind_modify in H.
  injection H as <-. exists (Z.to_nat i), a'. split; [done|].
  rewrite upd_schedule_compose. apply upd_schedule_ext. unfold compose.
  rewrite list_alter_alter_eq. by apply alter_insert.
Qed.

Lemma callRunFunc_eq st :
  callRunFunc engine st
  = match endHandlerRunFunc st with
    | RunTestcases => runTestcases engine st
    | RunSpecs => runSpecs engine st
    end.
Proof. unfold callRunFunc. rewrite bind_get. by destruct (endHandlerRunFunc st). Qed.

Lemma endHandler_single runner code st :
  isMultiremote st = false →
  endHandler engine runner code st
  = match releaseInstance runner (afterExit code st) with
    | Ok (_, st2) =>
        match callRunFunc engine st2 with
        | Ok (b, st3) => Ok (tt, if b : bool then concluded st3 else st3)
        | Throw e => Throw e
        end
    | Throw e => Throw e
    end.
Proof.
  intros Hsingle. unfold endHandler. rewrite !bind_modify, bind_get.
  change (isMultiremote (upd_runnerFailed _ (upd_exitCode _ st))) with (isMultiremote st).
  rewrite Hsingle. fold (afterExit code st).
  unfold bind at 1. destruct (releaseInstance _ _) as [[[] st2]|]; [|done].
  unfold bind at 1. destruct (callRunFunc _ _) as [[b st3]|]; [|done].
  destruct b; simpl; [|done].
  rewrite bind_get. unfold handleEvent, resolve. rewrite bind_modify.
  unfold concluded. by destruct (exitCode st3) as [[]|].
Qed.

Lemma testcaseTurn_rest : keeps rest (testcaseTurn engine).
Proof.
  unfold testcaseTurn, schedulableTestcases, bailFilter, hasAvailableInstances,
    hasTestcases, belowMaxInstances.
  repeat (keeps_step || apply keeps_entry || apply dispatchTestcase_rest).
Qed.

Lemma specTurn_rest : keeps rest (specTurn engine).
Proof.
  unfold specTurn, schedulableSpecs, hasAvailableInstances, hasSpecs, belowMaxInstances.
  repeat (keeps_step || apply keeps_entry || apply dispatchSpec_rest).
Qed.

Lemma runTestcases_rest : keeps rest (runTestcases engine).
Proof. unfold runTestcases. repeat (keeps_step || apply testcaseTurn_rest). Qed.

Lemma runSpecs_rest : keeps rest (runSpecs engine).
Proof. unfold runSpecs. repeat (keeps_step || apply specTurn_rest). Qed.

Lemma callRunFunc_rest : keeps rest (callRunFunc engine).
Proof.
  unfold callRunFunc. repeat (keeps_step || apply runTestcases_rest || apply runSpecs_rest).
Qed.

End ExitHandler.




Section MessageFrames.

Lemma getPatchedStack_keeps {B} (f : Launcher → B) source c : keeps f (getPatchedStack source c).
Proof. unfold getPatchedStack. keeps_tac. Qed.

Ltac side := repeat (keeps_step || apply getPatchedStack_keeps).

Lemma fillValidationResults_side a g : keeps schedulerSide (fillValidationResults a g).
Proof. unfold fillValidationResults, ensureStory, updStory. side. Qed.

Lemma handleAssertions_side l g m : keeps schedulerSide (handleAssertions l g m).
Proof.
  revert m; induction l as [|a l IH]; intros m; simpl; [side|].
  apply keeps_bind.
  - unfold handleAssertion. side; apply fillValidationResults_side.
  - intros [a' m']. apply keeps_bind; [apply IH|]. intros [rest' m'']. side.
Qed.

Lemma evaluateValidations_keeps {B} (f : Launcher → B) story criteria g m :
  keeps f (evaluateValidations story criteria g m).
Proof. unfold evaluateValidations. side. Qed.

Lemma validationPhase_side g m : keeps schedulerSide (validationPhase g m).
Proof.
  unfold validationPhase, firstSpec, updValidationState, addTestArguments.
  repeat (keeps_step || apply evaluateValidations_keeps).
Qed.

Lemma validateFailures_side c g key criterias a :
  keeps schedulerSide (validateFailures c g key criterias a).
Proof.
  revert a; induction criterias as [|criteria criterias IH]; intros a; simpl; [side|].
  unfold updStory, updValidationState. side. apply IH.
Qed.

Lemma validateFailureKeys_side c g specObj a m :
  keeps schedulerSide (validateFailureKeys c g specObj a m).
Proof.
  revert a; induction specObj as [|[key criterias] specObj IH]; intros a; simpl; [side|].
  unfold ensureStory, handleEvent.
  repeat (keeps_step || apply validateFailures_side || apply IH).
Qed.

Lemma executionPhase_side c g m : keeps schedulerSide (executionPhase c g m).
Proof.
  unfold executionPhase, onCurrentStack, onAfterCommand, onTestStart, onTestFail,
    prepareStepState, onStepStart, onStepError, onStepEnd, onValidate, forgetStack,
    firstSpec, ensureResults, ensureStory, updStory, updStepState, updValidationState,
    handleEvent.
  repeat (keeps_step || apply getPatchedStack_keeps || apply handleAssertions_side
          || apply validateFailureKeys_side).
Qed.

Lemma messageHandler_side runner m : keeps schedulerSide (messageHandler runner m).
Proof.
  unfold messageHandler, decodeTitle, handleEvent.
  repeat (keeps_step || apply validationPhase_side || apply executionPhase_side).
Qed.
End MessageFrames.

(** ** Bail-out *)

Section Bail.
Context (engine : SortEngine).









End Bail.




(** ** Slot conservation *)

Section Slots.
Context (engine : SortEngine).

Lemma slots_alter r f st :
  (∀ a, availableInstances (f a) + runningInstances (f a)
        = availableInstances a + runningInstances a) →
  slots (upd_schedule (alter f r) st) = slots st.
Proof.
  intros Hf. unfold slots; simpl.
  rewrite (list_fmap_alter _ f id); [by rewrite list_alter_id|].
  apply Forall_true. intros a. apply Hf.
Qed.

Lemma setEntry_slots r f :
  (∀ a, availableInstances (f a) + runningInstances (f a)
        = availableInstances a + runningInstances a) →
  keeps slots (setEntry r f).
Proof. intros Hf. apply keeps_modify. intros st. by apply slots_alter. Qed.

Lemma occupyInstance_slots r : keeps slots (occupyInstance r).
Proof.
  intros st [] st'. unfold occupyInstance, setEntry. rewrite bind_modify.
  intros [= <-]. rewrite upd_schedule_compose. unfold compose.
  erewrite upd_schedule_ext by apply list_alter_alter_eq.
  apply slots_alter. intros a; simpl. lia.
Qed.

Lemma releaseInstance_slots runner : keeps slots (releaseInstance runner).
Proof.
  intros st [] st' (r & a & Ha & ->)%releaseInstance_inv.
  unfold slots; simpl. rewrite list_fmap_insert. simpl.
  rewrite list_insert_id; [done|].
  rewrite list_lookup_fmap, Ha. simpl. f_equal. lia.
Qed.

Lemma bailFilter_slots : keeps slots bailFilter.
Proof.
  intros st b st'. rewrite bailFilter_eq. intros [= _ <-].
  destruct (bailOpen st); [done|].
  unfold slots, clearTestcases; simpl. rewrite <- list_fmap_compose. by apply list_fmap_ext.
Qed.

Ltac slots_tac :=
  repeat (keeps_step || apply keeps_entry || apply bailFilter_slots
          || apply occupyInstance_slots || apply releaseInstance_slots
          || (apply setEntry_slots; intros ?; reflexivity)).

Lemma testcaseTurn_slots : keeps slots (testcaseTurn engine).
Proof.
  unfold testcaseTurn, schedulableTestcases, dispatchTestcase, shiftTestcases,
    startRunnerInstance, getRunnerId, hasAvailableInstances, hasTestcases, belowMaxInstances.
  slots_tac.
Qed.

Lemma specTurn_slots : keeps slots (specTurn engine).
Proof.
  unfold specTurn, schedulableSpecs, dispatchSpec, shiftSpecs, startValidatorInstance,
    getRunnerId, hasAvailableInstances, hasSpecs, belowMaxInstances, handleEvent.
  slots_tac.
Qed.

Lemma runTestcases_slots : keeps slots (runTestcases engine).
Proof. unfold runTestcases. repeat (keeps_step || apply testcaseTurn_slots). Qed.

Lemma runSpecs_slots : keeps slots (runSpecs engine).
Proof. unfold runSpecs. repeat (keeps_step || apply specTurn_slots). Qed.

Lemma endHandler_slots runner code : keeps slots (endHandler engine runner code).
Proof.
  unfold endHandler, callRunFunc, handleEvent, resolve.
  repeat (keeps_step || apply releaseInstance_slots || apply runTestcases_slots
          || apply runSpecs_slots).
Qed.

Lemma handle_slots ev : keeps slots (handle engine ev).
Proof.
  destruct ev as [runner code|runner m|]; simpl.
  - apply endHandler_slots.
  - intros st [] st' H%messageHandler_side. injection H as _ _ _ _ _ Hs _.
    unfold slots. by rewrite Hs.
  - unfold exitHandler, resolve. keeps_tac.
Qed.

Lemma handleAll_slots evs : keeps slots (handleAll engine evs).
Proof.
  induction evs as [|ev evs IH]; simpl; [apply keeps_ret|].
  apply keeps_bind; [apply handle_slots|]. by intros [].
Qed.

(** The counters after a dispatch and after an exit. *)
Lemma occupyInstance_counters r st st' :
  occupyInstance r st = Ok (tt, st') →
  counters st' = alter (λ c, (c.1 - 1, c.2 + 1)) r (counters st).
Proof.
  unfold occupyInstance, setEntry. rewrite bind_modify. intros [= <-].
  unfold counters; simpl. rewrite list_alter_alter_eq.
  apply list_fmap_alter, Forall_true. by intros a.
Qed.

Lemma setEntry_counters r f :
  (∀ a, availableInstances (f a) = availableInstances a ∧
        runningInstances (f a) = runningInstances a) →
  keeps counters (setEntry r f).
Proof.
  intros Hf. apply keeps_modify. intros st. unfold counters; simpl.
  rewrite (list_fmap_alter _ f id); [by rewrite list_alter_id|].
  apply Forall_true. intros a. destruct (Hf a) as [-> ->]. done.
Qed.

Lemma bailFilter_counters : keeps counters bailFilter.
Proof.
  intros st b st'. rewrite bailFilter_eq. intros [= _ <-].
  destruct (bailOpen st); [done|].
  unfold counters, clearTestcases; simpl. rewrite <- list_fmap_compose. by apply list_fmap_ext.
Qed.

Ltac counters_tac :=
  repeat (keeps_step || apply keeps_entry || apply bailFilter_counters
          || (apply setEntry_counters; intros ?; split; reflexivity)).

Lemma shiftTestcases_counters r : keeps counters (shiftTestcases r).
Proof. unfold shiftTestcases. counters_tac. Qed.

Lemma shiftSpecs_counters r : keeps counters (shiftSpecs r).
Proof. unfold shiftSpecs. counters_tac. Qed.

Lemma startRunnerInstance_counters l c : keeps counters (startRunnerInstance l c).
Proof. unfold startRunnerInstance, getRunnerId. keeps_tac. Qed.

Lemma startValidatorInstance_counters l c : keeps counters (startValidatorInstance l c).
Proof. unfold startValidatorInstance, getRunnerId, handleEvent. keeps_tac. Qed.

Lemma dispatchTestcase_counters r st st' :
  dispatchTestcase r st = Ok (tt, st') →
  counters st' = alter (λ c, (c.1 - 1, c.2 + 1)) r (counters st).
Proof.
  unfold dispatchTestcase. intros H. do 3 inv_bind H.
  apply occupyInstance_counters in H. rewrite H. f_equal.
  rewrite (startRunnerInstance_counters _ _ _ _ _ H2), (keeps_entry counters _ _ _ _ H1).
  apply (shiftTestcases_counters _ _ _ _ H0).
Qed.

Lemma dispatchSpec_counters r st st' :
  dispatchSpec r st = Ok (tt, st') →
  counters st' = alter (λ c, (c.1 - 1, c.2 + 1)) r (counters st).
Proof.
  unfold dispatchSpec. intros H. do 3 inv_bind H.
  apply occupyInstance_counters in H. rewrite H. f_equal.
  rewrite (startValidatorInstance_counters _ _ _ _ _ H2), (keeps_entry counters _ _ _ _ H1).
  apply (shiftSpecs_counters _ _ _ _ H0).
Qed.

Lemma releaseInstance_counters runner st st' :
  releaseInstance runner st = Ok (tt, st') →
  ∃ i, Js.parseInt runner = Some (Z.of_nat i) ∧ (i < length (schedule st))%nat ∧
       counters st' = alter (λ c, (c.1 + 1, c.2 - 1)) i (counters st).
Proof.
  unfold releaseInstance. destruct (Js.parseInt runner) as [i|]; [|done].
  destruct (Z.leb_spec 0 i) as [Hi|]; [|done]. intros H. inv_bind H.
  unfold entry in H0. destruct (schedule st !! Z.to_nat i) as [a'|] eqn:Ha; [|done].
  injection H0 as <- <-. unfold setEntry in H. rewrite bind_modify in H.
  injection H as <-. exists (Z.to_nat i). split; [f_equal; lia|].
  split; [by eapply lookup_lt_Some|].
  unfold counters; simpl. rewrite list_alter_alter_eq.
  apply list_fmap_alter, Forall_true. by intros a.
Qed.

Lemma schedulableTestcases_counters : keeps counters (schedulableTestcases engine).
Proof.
  unfold schedulableTestcases, hasAvailableInstances, hasTestcases, belowMaxInstances.
  counters_tac.
Qed.

Lemma schedulableSpecs_counters : keeps counters (schedulableSpecs engine).
Proof.
  unfold schedulableSpecs, hasAvailableInstances, hasSpecs, belowMaxInstances.
  counters_tac.
Qed.

Lemma messageHandler_counters runner m : keeps counters (messageHandler runner m).
Proof.
  intros st [] st' H%messageHandler_side. injection H as _ _ _ _ _ Hs _.
  unfold counters. by rewrite Hs.
Qed.

Lemma exitHandler_counters : keeps counters exitHandler.
Proof. unfold exitHandler, resolve. keeps_tac. Qed.
End Slots.

(** C4.  The sum [availableInstances + runningInstances] of every entry
    is the same after any events of a phase, and after the first call of
    the dispatch function in [run].  A dispatch takes one from
    [availableInstances] of the entry and adds one to its
    [runningInstances]; the exit of a worker adds one to
    [availableInstances] of the entry that its runner id names and takes
    one from its [runningInstances]; the selection of the schedulable
    entries (with the bail filter), the message handler and the interrupt
    handler change no counter. *)
Theorem slots_are_conserved (engine : SortEngine) :
  (∀ evs st st', handleAll engine evs st = Ok (tt, st') → slots st' = slots st) ∧
  (∀ st b st', runTestcases engine st = Ok (b, st') → slots st' = slots st) ∧
  (∀ st b st', runSpecs engine st = Ok (b, st') → slots st' = slots st) ∧
  (∀ r st st', dispatchTestcase r st = Ok (tt, st') →
     counters st' = alter (λ c, (c.1 - 1, c.2 + 1)) r (counters st)) ∧
  (∀ r st st', dispatchSpec r st = Ok (tt, st') →
     counters st' = alter (λ c, (c.1 - 1, c.2 + 1)) r (counters st)) ∧
  (∀ runner st st', releaseInstance runner st = Ok (tt, st') →
     ∃ i, Js.parseInt runner = Some (Z.of_nat i) ∧ (i < length (schedule st))%nat ∧
          counters st' = alter (λ c, (c.1 + 1, c.2 - 1)) i (counters st)) ∧
  (∀ st l st', schedulableTestcases engine st = Ok (l, st') → counters st' = counters st) ∧
  (∀ st l st', schedulableSpecs engine st = Ok (l, st') → counters st' = counters st) ∧
  (∀ runner m st st', messageHandler runner m st = Ok (tt, st') → counters st' = counters st) ∧
  (∀ st st', exitHandler st = Ok (tt, st') → counters st' = counters st).
Proof.
  split_and!.
  - intros evs st st'. apply handleAll_slots.
  - intros st b st'. apply runTestcases_slots.
  - intros st b st'. apply runSpecs_slots.
  - apply dispatchTestcase_counters.
  - apply dispatchSpec_counters.
  - apply releaseInstance_counters.
  - intros st l st'. apply schedulableTestcases_counters.
  - intros st l st'. apply schedulableSpecs_counters.
  - intros runner m st st'. apply messageHandler_counters.
  - intros st st'. apply exitHandler_counters.
Qed.

(** Phase one of the concrete run: the first testcase is dispatched, its
    worker sends a message and exits with code 0, and the second testcase
    is dispatched. *)
Lemma slots_are_conserved_witness :
  ∃ st st',
    startTestcases V8.engine [oneByOne] (newLauncher defaults false) = Ok (tt, st) ∧
    handleAll V8.engine [Message "0-0" (bare "runner:start"); Exit "0-0" (Some 0)] st
      = Ok (tt, st') ∧
    slots st' = slots st ∧ slots st = [1].
Proof.
  eexists _, _. split; [by vm_compute|].
  match goal with |- ?run = Ok (tt, ?s') ∧ _ =>
    assert (run = Ok (tt, s')) as H by (by vm_compute) end.
  split; [exact H|]. split; [|by vm_compute].
  by apply (proj1 (slots_are_conserved V8.engine) _ _ _ H).
Defined.

(** ** Concurrency bounds *)

Section Bounds.
Context (engine : SortEngine) (cfg : Config) (caps : list Capabilities).
Hypothesis maxInstances_nonneg : 0 <= maxInstances cfg.
Hypothesis instances_nonneg : Forall (λ c, 0 <= instancesOf cfg c) caps.

Lemma testcaseEntries_bounded n l :
  Forall (λ c, 0 <= instancesOf cfg c) l →
  foldl Z.add 0 (runningInstances <$> testcaseEntries cfg n l) = 0 ∧
  Forall2 (λ a c, runningInstances a <= instancesOf cfg c ∧
                  availableInstances a + runningInstances a = instancesOf cfg c)
          (testcaseEntries cfg n l) l ∧
  Forall (λ a, is_Some (testcases a)) (testcaseEntries cfg n l).
Proof.
  intros H. revert n. induction H as [|c l Hc _ IH]; intros n; simpl.
  - split_and!; constructor.
  - destruct (IH (n + 1)) as (IH1 & IH2 & IH3). split_and!.
    + exact IH1.
    + constructor; [simpl; lia|done].
    + constructor; [by eexists|done].
Qed.

Lemma specEntries_bounded n l :
  Forall (λ c, 0 <= instancesOf cfg c) l →
  foldl Z.add 0 (runningInstances <$> specEntries cfg n l) = 0 ∧
  Forall2 (λ a c, runningInstances a <= instancesOf cfg c ∧
                  availableInstances a + runningInstances a = instancesOf cfg c)
          (specEntries cfg n l) l ∧
  Forall (λ a, is_Some (specs a)) (specEntries cfg n l).
Proof.
  intros H. revert n. induction H as [|c l Hc _ IH]; intros n; simpl.
  - split_and!; constructor.
  - destruct (IH (n + 1)) as (IH1 & IH2 & IH3). split_and!.
    + exact IH1.
    + constructor; [simpl; lia|done].
    + constructor; [by eexists|done].
Qed.

Lemma running_insert st r a a' :
  schedule st !! r = Some a →
  foldl Z.add 0 (runningInstances <$> <[r := a']> (schedule st))
  = getNumberOfRunningInstances st + (runningInstances a' - runningInstances a).
Proof.
  intros Ha. rewrite list_insert_alter.
  by rewrite (sum_alter runningInstances (λ _, a') _ r a Ha).
Qed.

Lemma turnsTo_sound st again st' :
  turnsTo (queueOf (endHandlerRunFunc st)) (setQueueOf (endHandlerRunFunc st)) st again st' →
  sound cfg caps st → sound cfg caps st'.
Proof.
  intros Hto (Hc & Hwf & Hsum & Hall).
  pose proof (turnsTo_hasQueues _ _ _ _ Hto Hwf) as Hwf'.
  destruct Hto as [Hrest Hto].
  assert (config st' = config st ∧ endHandlerRunFunc st' = endHandlerRunFunc st) as [Hc' Hf'].
  { by injection Hrest. }
  split; [congruence|]. split; [by rewrite Hf'|].
  destruct again.
  - destruct Hto as (Hbelow & r & a & x & q & _ & Ha & Hav & _ & Hs & _).
    unfold below in Hbelow. apply Z.ltb_lt in Hbelow. rewrite Hc in Hbelow.
    destruct (Forall2_lookup_l _ _ _ _ _ Hall Ha) as (c & Hcap & Hle & Heq).
    split.
    + unfold getNumberOfRunningInstances at 1. rewrite Hs, (running_insert _ _ _ _ Ha).
      destruct (endHandlerRunFunc st); simpl; lia.
    + rewrite Hs. rewrite <- (list_insert_id caps r c Hcap).
      apply Forall2_insert; [done|]. destruct (endHandlerRunFunc st); simpl; lia.
  - destruct Hto as (_ & [-> | [_ ->]]); [done|].
    split.
    + unfold getNumberOfRunningInstances, clearTestcases; simpl.
      rewrite <- list_fmap_compose.
      erewrite list_fmap_ext; [exact Hsum|]. done.
    + unfold clearTestcases; simpl. apply Forall2_fmap_l.
      eapply Forall2_impl; [exact Hall|]. done.
Qed.

Lemma reachable_sound st : reachable engine cfg caps st → sound cfg caps st.
Proof.
  induction 1 as [st Hc Hf Hs|st Hc Hf Hs|st again st' _ IH Hturn
                 |st runner st' _ IH Hrel|st st' _ IH Hc Hf Hs].
  - destruct (testcaseEntries_bounded 0 caps instances_nonneg) as (H1 & H2 & H3).
    split; [done|]. split; [by unfold hasQueues; rewrite Hf, Hs|].
    split; [|by rewrite Hs].
    unfold getNumberOfRunningInstances. rewrite Hs, H1. done.
  - destruct (specEntries_bounded 0 caps instances_nonneg) as (H1 & H2 & H3).
    split; [done|]. split; [by unfold hasQueues; rewrite Hf, Hs|].
    split; [|by rewrite Hs].
    unfold getNumberOfRunningInstances. rewrite Hs, H1. done.
  - destruct (turn_spec engine (endHandlerRunFunc st) st) as (again' & st'' & Hturn' & Hto);
      [apply IH|].
    rewrite Hturn in Hturn'. injection Hturn' as <- <-.
    by eapply turnsTo_sound.
  - destruct IH as (Hc & Hwf & Hsum & Hall).
    apply releaseInstance_inv in Hrel as (r & a & Ha & ->).
    split; [done|]. split.
    + unfold hasQueues in *; simpl. apply Forall_insert; [done|].
      rewrite Forall_lookup in Hwf. specialize (Hwf _ _ Ha).
      by destruct (endHandlerRunFunc st).
    + destruct (Forall2_lookup_l _ _ _ _ _ Hall Ha) as (c & Hcap & Hle & Heq). split.
      * unfold getNumberOfRunningInstances; simpl. rewrite (running_insert _ _ _ _ Ha).
        simpl. lia.
      * simpl. rewrite <- (list_insert_id caps r c Hcap).
        apply Forall2_insert; [done|]. simpl. lia.
  - destruct IH as (Hc' & Hwf & Hsum & Hall). split; [congruence|].
    split; [by unfold hasQueues; rewrite Hf, Hs|].
    split; [by unfold getNumberOfRunningInstances; rewrite Hs|by rewrite Hs].
Qed.
End Bounds.

Section Reach.
Context (engine : SortEngine) (cfg : Config) (caps : list Capabilities).

Lemma turnOf_rest f : keeps rest (turnOf engine f).
Proof. destruct f; [apply testcaseTurn_rest | apply specTurn_rest]. Qed.

Lemma rest_endHandlerRunFunc st st' :
  rest st' = rest st → endHandlerRunFunc st' = endHandlerRunFunc st.
Proof. by intros [= _ _ _ _ _ _ _ _ _ _ _ _ _ _ ? _]. Qed.

Lemma while_reachable f bound st st' :
  reachable engine cfg caps st → endHandlerRunFunc st = f →
  while bound (turnOf engine f) st = Ok (tt, st') →
  reachable engine cfg caps st' ∧ endHandlerRunFunc st' = f.
Proof.
  revert st; induction bound as [|bound IH]; intros st Hr Hf; simpl; [done|].
  intros H. inv_bind H.
  assert (reachable engine cfg caps st0 ∧ endHandlerRunFunc st0 = f) as [Hr0 Hf0].
  { split; [eapply reach_turn; [done|by rewrite Hf]|].
    apply turnOf_rest, rest_endHandlerRunFunc in H0. congruence. }
  destruct a; [by apply (IH st0)|]. by injection H as <-.
Qed.

Lemma callRunFunc_reachable st b st' :
  reachable engine cfg caps st → callRunFunc engine st = Ok (b, st') →
  reachable engine cfg caps st' ∧ endHandlerRunFunc st' = endHandlerRunFunc st.
Proof.
  intros Hr. rewrite callRunFunc_eq.
  assert (∀ f turn (left : Launcher → result Z),
            turn = turnOf engine f → endHandlerRunFunc st = f →
            (let! st := get in
             if hasTriggeredExitRoutine st then ret true
             else while (S (queued (queueOf f) st)) turn;;
                  let! st := get in
                  if getNumberOfRunningInstances st =? 0
                  then let! remaining := lift (left st) in ret (remaining =? 0)
                  else ret false) st = Ok (b, st') →
            reachable engine cfg caps st' ∧ endHandlerRunFunc st' = endHandlerRunFunc st)
    as Hrun.
  { intros f turn left -> Hf. rewrite bind_get.
    destruct (hasTriggeredExitRoutine st); [by intros [= _ <-]|].
    intros H. unbind H as [] st0 Hloop.
    apply while_reachable in Hloop as [Hr0 Hf0]; [|done..].
    rewrite bind_get in H. rewrite Hf.
    destruct (_ =? 0); [|by injection H as _ <-].
    unbind H as n st1 Hleft. unfold lift in Hleft. destruct (left st0); [|done].
    injection Hleft as _ <-. by injection H as _ <-. }
  destruct (endHandlerRunFunc st) eqn:Hf.
  - by apply (Hrun RunTestcases _ getNumberOfTestcasesLeft).
  - by apply (Hrun RunSpecs _ getNumberOfSpecsLeft).
Qed.

Lemma handle_reachable ev st st' :
  reachable engine cfg caps st → handle engine ev st = Ok (tt, st') →
  reachable engine cfg caps st'.
Proof.
  intros Hr H. destruct ev as [runner code|runner m|]; simpl in H.
  - assert (reachable engine cfg caps (afterExit code st)) as Hr1.
    { by eapply reach_aside. }
    destruct (isMultiremote st) eqn:Hmulti.
    + unfold endHandler in H. rewrite !bind_modify, bind_get in H.
      change (isMultiremote (upd_runnerFailed _ (upd_exitCode _ st))) with (isMultiremote st) in H.
      rewrite Hmulti in H. rewrite !bind_ret in H. simpl in H.
      rewrite bind_get in H. unfold handleEvent, resolve in H. rewrite bind_modify in H.
      destruct (exitCode _) as [[]|]; injection H as <-; by eapply reach_aside.
    + rewrite endHandler_single in H by done.
      destruct (releaseInstance _ _) as [[[] st2]|] eqn:Hrel; [|done].
      destruct (callRunFunc _ _) as [[b st3]|] eqn:Hrun; [|done].
      injection H as <-.
      assert (reachable engine cfg caps st2) as Hr2 by (by eapply reach_exit).
      apply callRunFunc_reachable in Hrun as [Hr3 _]; [|done].
      destruct b; [|done]. by apply (reach_aside _ _ _ st3).
  - apply messageHandler_side in H. injection H as Hc _ _ _ _ Hs _ _ _ _ Hf _.
    by eapply reach_aside.
  - unfold exitHandler in H. rewrite bind_get in H.
    destruct (_ || _); injection H as <-; by eapply reach_aside.
Qed.

Lemma handleAll_reachable evs st st' :
  reachable engine cfg caps st → handleAll engine evs st = Ok (tt, st') →
  reachable engine cfg caps st'.
Proof.
  revert st; induction evs as [|ev evs IH]; intros st Hr; simpl.
  - by intros [= <-].
  - intros H. inv_bind H. destruct a. eauto using handle_reachable.
Qed.

Lemma startTestcases_reachable multiremote st' :
  startTestcases engine caps (newLauncher cfg multiremote) = Ok (tt, st') →
  reachable engine cfg caps st'.
Proof.
  unfold startTestcases. rewrite bind_get, bind_modify. intros H. inv_bind H.
  assert (reachable engine cfg caps st) as Hr.
  { pose proof (callRunFunc_reachable
                  (upd_schedule (λ s, s ++ testcaseEntries cfg 0 caps)
                     (newLauncher cfg multiremote)) a st) as Hcall.
    rewrite callRunFunc_eq in Hcall. apply Hcall; [|done].
    by apply reach_testcases. }
  destruct a; injection H as <-; [by eapply reach_aside|done].
Qed.

Lemma startSpecs_reachable st st' :
  config st = cfg → startSpecs engine caps st = Ok (tt, st') →
  reachable engine cfg caps st'.
Proof.
  intros Hc. unfold startSpecs. rewrite bind_modify, bind_get, !bind_modify.
  intros H. inv_bind H.
  assert (reachable engine cfg caps st0) as Hr.
  { match type of H0 with runSpecs _ ?s = _ =>
      pose proof (callRunFunc_reachable s a st0) as Hcall end.
    rewrite callRunFunc_eq in Hcall. apply Hcall; [|done].
    apply reach_specs; [done..|]. simpl. by rewrite Hc. }
  destruct a; injection H as <-; [by eapply reach_aside|done].
Qed.
End Reach.

(** C5, as the code has it.  In every state that the schedule of a run
    takes (at its start, after each turn of a dispatch loop, after each
    exit of a worker), the total of [runningInstances] is at most
    [config.maxInstances] and [runningInstances] of every entry is at most
    the limit that the code gives its capability,
    [capabilities.maxInstances || config.maxInstancesPerCapability],
    provided these limits are not negative.  That limit is the one of the
    claim, [capabilities.maxInstances], or
    [config.maxInstancesPerCapability] when unset, for the capabilities
    whose [maxInstances] is not set to 0.  The states between the
    handlers of a run are among them: the start of phase one, any events,
    the start of phase two, any events. *)
Theorem instances_are_bounded (engine : SortEngine) (cfg : Config) (caps : list Capabilities) :
  0 <= maxInstances cfg → Forall (λ c, 0 <= instancesOf cfg c) caps →
  (∀ st, reachable engine cfg caps st →
     getNumberOfRunningInstances st <= maxInstances cfg ∧
     Forall2 (λ a c, runningInstances a <= instancesOf cfg c) (schedule st) caps ∧
     Forall2 (λ a c, cap_maxInstances c ≠ Some 0 → runningInstances a <= limitOf cfg c)
             (schedule st) caps) ∧
  (∀ multiremote evs1 st1,
     (startTestcases engine caps;; handleAll engine evs1) (newLauncher cfg multiremote)
       = Ok (tt, st1) →
     reachable engine cfg caps st1 ∧
     ∀ evs2 st2, (startSpecs engine caps;; handleAll engine evs2) st1 = Ok (tt, st2) →
                 reachable engine cfg caps st2).
Proof.
  intros Hmax Hcaps. split.
  - intros st Hr. destruct (reachable_sound engine cfg caps Hmax Hcaps st Hr)
      as (_ & _ & Hsum & Hall).
    split; [done|]. split; (eapply Forall2_impl; [exact Hall|]).
    + by intros a c [? _].
    + intros a c [Hle _] Hset. revert Hle. unfold instancesOf, limitOf.
      destruct (cap_maxInstances c) as [n|]; [|done].
      destruct (Z.eqb_spec n 0) as [->|]; done.
  - intros multiremote evs1 st1 H. unbind H as [] st0 Hstart.
    apply (startTestcases_reachable engine cfg caps) in Hstart.
    pose proof (handleAll_reachable _ _ _ _ _ _ Hstart H) as Hr1.
    split; [done|]. intros evs2 st2 H2. unbind H2 as [] st3 Hspecs.
    apply (startSpecs_reachable engine cfg caps) in Hspecs.
    + by eapply handleAll_reachable.
    + by destruct (reachable_sound engine cfg caps Hmax Hcaps st1 Hr1).
Qed.

Lemma instances_are_bounded_witness :
  ∃ st, (startTestcases V8.engine [twoFiles; twoFiles];;
         handleAll V8.engine [Exit "0-0" (Some 0)]) (newLauncher limitThree false) = Ok (tt, st) ∧
        getNumberOfRunningInstances st = 3 ∧
        getNumberOfRunningInstances st <= 3 ∧
        Forall2 (λ a c, runningInstances a <= instancesOf limitThree c)
                (schedule st) [twoFiles; twoFiles].
Proof.
  eexists. split; [by vm_compute|]. split; [by vm_compute|].
  assert (0 <= maxInstances limitThree) as Hmax by (by vm_compute).
  assert (Forall (λ c, 0 <= instancesOf limitThree c) [twoFiles; twoFiles]) as Hcaps.
  { repeat constructor; by vm_compute. }
  destruct (instances_are_bounded V8.engine limitThree [twoFiles; twoFiles] Hmax Hcaps)
    as [Hbound Hreach].
  match goal with |- _ <= _ ∧ Forall2 _ (schedule ?s) _ =>
    destruct (Hbound s) as (H1 & H2 & _); [|done] end.
  refine (proj1 (Hreach false [Exit "0-0" (Some 0)] _ _)).
  by vm_compute.
Defined.

(** C5, counterexample: a capability whose [maxInstances] is set to 0
    takes the limit of the configuration, as if it were unset.  Phase one
    starts a worker for each of its two testcases: its entry has two
    instances running and 98 of the 100 of the configuration available,
    above its limit of 0. *)
Lemma zero_limit_is_taken_as_unset :
  ∃ st, startTestcases V8.engine [zeroLimit] (newLauncher defaults false) = Ok (tt, st) ∧
        reachable V8.engine defaults [zeroLimit] st ∧
        counters st = [(98, 2)] ∧
        limitOf defaults zeroLimit = 0 ∧
        ¬ Forall2 (λ a c, runningInstances a <= limitOf defaults c) (schedule st) [zeroLimit].
Proof.
  eexists. split; [by vm_compute|]. split.
  { apply (startTestcases_reachable V8.engine defaults [zeroLimit] false). by vm_compute. }
  split; [by vm_compute|]. split; [done|].
  vm_compute. intros H. inversion H as [|? ? ? ? Hle]; subst. by apply Hle.
Qed.

(** ** Fairness *)

Lemma byRunningInstances_nonneg st a b : 0 <= byRunningInstances st a b.
Proof. unfold byRunningInstances, Js.toNumber. by destruct (_ <? _). Qed.

(** C6, the code at a failing input.  The comparison function of the sort
    answers a boolean, that is 1 or 0 and never a negative number, and the
    sort of Node.js 11 and later leaves the array as it is for such a
    function: the entries stay in the order of their registration.  After
    the first dispatch of the run above both entries are schedulable, the
    first with one running instance and the second with none, and the next
    turn dispatches the second testcase of the first entry. *)
Theorem sort_keeps_registration_order :
  (∀ st l, array_sort V8.engine nat (byRunningInstances st) l = l) ∧
  (runningInstances <$> schedule firstDispatched = [1; 0]) ∧
  candidates testcases firstDispatched = [0; 1]%nat ∧
  schedulableTestcases V8.engine firstDispatched = Ok ([0; 1]%nat, firstDispatched) ∧
  ∃ st', testcaseTurn V8.engine firstDispatched = Ok (true, st') ∧
         runningInstances <$> schedule st' = [2; 0] ∧
         processes st'
         = processes firstDispatched
             ++ [{| p_cid := "0-1"; p_script := RunnerScript; p_specs := [Some "b.tc.js"];
                    p_processNumber := 2; p_validationResults := None |}].
Proof.
  split_and!.
  - intros st l. apply V8.sort_nonneg. apply byRunningInstances_nonneg.
  - by vm_compute.
  - by vm_compute.
  - by vm_compute.
  - eexists. split; [by vm_compute|]. split; by vm_compute.
Qed.

Section LegacyFairness.
Context {A : Type} (key : A → Z).

Lemma place_descends element sorted :
  descends key sorted → descends key (LegacyV8.place (greater key) element sorted).
Proof.
  unfold descends. induction 1 as [|tmp sorted Hsorted IH Htmp]; simpl.
  - repeat constructor.
  - unfold greater at 1, Js.toNumber.
    destruct (Z.ltb_spec (key element) (key tmp)) as [Hlt|Hge]; simpl.
    + constructor; [done|].
      rewrite (LegacyV8.place_perm (greater key) element sorted).
      constructor; [lia|done].
    + constructor; [by constructor|].
      constructor; [done|].
      eapply Forall_impl; [exact Htmp|]. simpl. intros; lia.
Qed.

(** The elements of a key keep their order: the sort is stable. *)
Lemma place_stable k element sorted :
  filter (λ a, key a = k) (reverse (LegacyV8.place (greater key) element sorted))
  = filter (λ a, key a = k) (reverse sorted ++ [element]).
Proof.
  induction sorted as [|tmp sorted IH]; simpl; [done|].
  unfold greater at 1, Js.toNumber.
  destruct (Z.ltb_spec (key element) (key tmp)) as [Hlt|Hge]; simpl.
  - rewrite !reverse_cons, !filter_app, IH, !filter_app, <- !app_assoc. f_equal.
    rewrite !filter_cons, !filter_nil.
    destruct (decide (key element = k)), (decide (key tmp = k)); try done. lia.
  - by rewrite !reverse_cons.
Qed.

Lemma sort_descends l sorted :
  descends key sorted →
  descends key (foldl (λ sorted element, LegacyV8.place (greater key) element sorted) sorted l).
Proof.
  revert sorted; induction l as [|x l IH]; intros sorted Hsorted; simpl; [done|].
  apply IH. by apply place_descends.
Qed.

Lemma sort_stable k l sorted :
  filter (λ a, key a = k)
         (reverse (foldl (λ sorted element, LegacyV8.place (greater key) element sorted) sorted l))
  = filter (λ a, key a = k) (reverse sorted ++ l).
Proof.
  revert sorted; induction l as [|x l IH]; intros sorted; simpl; [by rewrite app_nil_r|].
  rewrite IH, !filter_app, place_stable, !filter_app, <- app_assoc.
  by rewrite <- filter_app.
Qed.

(** With this engine the first element of the sorted array has the
    least key, and is the first element of the array with that key. *)
Lemma legacy_sort_head l r rest :
  array_sort LegacyV8.engine A (greater key) l = r :: rest →
  (∀ x, x ∈ l → key r <= key x) ∧
  head (filter (λ a, key a = key r) l) = Some r.
Proof.
  simpl. unfold LegacyV8.sort. intros Hsort. split.
  - intros x Hx.
    pose proof (sort_descends l [] ltac:(constructor)) as Hdesc.
    rewrite <- (LegacyV8.insertion_perm (greater key) l) in Hx. unfold LegacyV8.sort in Hx.
    rewrite Hsort in Hx.
    apply (f_equal reverse) in Hsort. rewrite reverse_involutive, reverse_cons in Hsort.
    rewrite Hsort in Hdesc. unfold descends in Hdesc.
    apply elem_of_cons in Hx as [->|Hx]; [lia|].
    apply (StronglySorted_app_1_elem_of _ _ _ x r) in Hdesc; [done|..].
    + by apply elem_of_reverse.
    + by apply list_elem_of_singleton.
  - pose proof (sort_stable (key r) l []) as Hstable.
    rewrite Hsort in Hstable. simpl in Hstable.
    rewrite filter_cons in Hstable. destruct (decide (key r = key r)); [|done].
    by rewrite <- Hstable.
Qed.
End LegacyFairness.

(** With the engine of Node.js 10 and earlier the dispatch loops serve
    the schedulable entry with the fewest running instances, and the one
    registered first among several of them. *)
Lemma legacy_serves_least_loaded queue st r rest :
  array_sort LegacyV8.engine nat (byRunningInstances st) (candidates queue st) = r :: rest →
  (∀ x, x ∈ candidates queue st → runningAt st r <= runningAt st x) ∧
  head (filter (λ x, runningAt st x = runningAt st r) (candidates queue st)) = Some r.
Proof. apply (legacy_sort_head (runningAt st)). Qed.

Lemma legacy_schedulableSpecs st r rest st' :
  hasQueues specs st →
  schedulableSpecs LegacyV8.engine st = Ok (r :: rest, st') →
  st' = st ∧
  (∀ x, x ∈ candidates specs st → runningAt st r <= runningAt st x) ∧
  head (filter (λ x, runningAt st x = runningAt st r) (candidates specs st)) = Some r.
Proof.
  intros Hwf. rewrite schedulableSpecs_eq by done. intros [= Hsort <-].
  split; [done|]. destruct (below st); [|done].
  by apply legacy_serves_least_loaded in Hsort.
Qed.

Lemma legacy_schedulableTestcases st r rest st' :
  hasQueues testcases st →
  schedulableTestcases LegacyV8.engine st = Ok (r :: rest, st') →
  st' = st ∧
  (∀ x, x ∈ candidates testcases st → runningAt st r <= runningAt st x) ∧
  head (filter (λ x, runningAt st x = runningAt st r) (candidates testcases st)) = Some r.
Proof.
  intros Hwf. rewrite schedulableTestcases_eq by done.
  destruct (bailOpen st); [|done]. intros [= Hsort <-].
  split; [done|]. destruct (below st); [|done].
  by apply legacy_serves_least_loaded in Hsort.
Qed.

(** The run of the two capabilities on that engine: the second turn
    serves the second entry. *)
Lemma legacy_second_turn :
  ∃ st', testcaseTurn LegacyV8.engine firstDispatched = Ok (true, st') ∧
         runningInstances <$> schedule st' = [1; 1] ∧
         processes st'
         = processes firstDispatched
             ++ [{| p_cid := "1-0"; p_script := RunnerScript; p_specs := [Some "c.tc.js"];
                    p_processNumber := 2; p_validationResults := None |}].
Proof. eexists. split; [by vm_compute|]. split; by vm_compute. Qed.

(** ** Classification of a criteria *)

Section Classification.

Lemma reduce_blank_cons x l : ∃ s, reduce_blank (x :: l) = Ok s.
Proof. by eexists. Qed.

Lemma property_ordinary {V} (obj : gmap string V) key :
  ordinary key → property obj key = from_option Own Undefined (obj !! key).
Proof. intros Hkey. unfold property. rewrite Hkey. by destruct (obj !! key). Qed.

(** What an inherited name makes of a lookup. *)
Lemma property_inherited {V} (obj : gmap string V) key :
  Js.inherited key = true → obj !! key = None → property obj key = Inherited.
Proof. intros Hkey Hobj. unfold property. by rewrite Hobj, Hkey. Qed.

(** What [evaluateValidations] does, by the buckets of the criteria. *)
Lemma evaluateValidations_cases story criteria group m st :
  ordinary group → ordinary (Js.toString story) → ordinary (Js.toString criteria) →
  match failuresOf st group story criteria with
  | Some [] =>
      evaluateValidations story criteria group m st
      = Throw (TypeError "Reduce of empty array with no initial value")
  | Some errs =>
      ∃ m', evaluateValidations story criteria group m st
            = Ok (if forallb (λ err, bool_decide (is_Some (f_matcherName err))) errs
                  then fail else broken, m', st) ∧
            m_event m' = m_event m
  | None =>
      match successesOf st group story criteria with
      | Some _ => evaluateValidations story criteria group m st = Ok (pass, m, st)
      | None =>
          ∃ m', evaluateValidations story criteria group m st = Ok (unvalidated, m', st) ∧
                m_event m' = m_event m
      end
  end.
Proof.
  intros Hgroup Hstory Hcriteria.
  unfold failuresOf, successesOf, recordOf, evaluateValidations. rewrite bind_get.
  rewrite (property_ordinary _ group Hgroup).
  destruct (validationResults st !! group) as [stories|]; simpl; [|by eexists].
  rewrite (property_ordinary _ _ Hstory).
  destruct (stories !! Js.toString story) as [record|]; simpl; [|by eexists].
  rewrite !(property_ordinary _ _ Hcriteria).
  destruct (failures record !! Js.toString criteria) as [[|err errs]|]; simpl.
  - done.
  - destruct (screenshots record !! Js.toString criteria); simpl;
      (eexists; split; [reflexivity|done]).
  - destruct (successes record !! Js.toString criteria); [done|by eexists].
Qed.

(** Under a story or a criteria of an inherited name that the results do
    not hold, [evaluateValidations] throws. *)
Lemma evaluateValidations_inherited story criteria group m st stories :
  validationResults st !! group = Some stories →
  (Js.inherited (Js.toString story) = true ∧ stories !! Js.toString story = None) ∨
  (Js.inherited (Js.toString criteria) = true ∧
   ∃ record, stories !! Js.toString story = Some record ∧
             failures record !! Js.toString criteria = None) →
  ∃ what, evaluateValidations story criteria group m st = Throw (TypeError what).
Proof.
  intros Hstories H. unfold evaluateValidations. rewrite bind_get.
  unfold property at 1. rewrite Hstories.
  destruct H as [[Hin Hnone]|(Hin & record & Hrecord & Hnone)].
  - rewrite (property_inherited _ _ Hin Hnone). by eexists.
  - unfold property at 1. rewrite Hrecord.
    rewrite (property_inherited _ _ Hin Hnone). by eexists.
Qed.


Lemma decodeTitle_returns m st :
  m_title m ≠ TitleUndecodable →
  ∃ m', decodeTitle m st = Ok (m', st) ∧ m_event m' = m_event m ∧
        m_err m' = m_err m ∧ m_cid m' = m_cid m.
Proof.
  intros Htitle. unfold decodeTitle.
  destruct (m_title m); try done; by eexists.
Qed.

End Classification.



Section Idempotence.
Context (engine : SortEngine).

Lemma keeps_weaken {A B C} (f : Launcher → B) (g : Launcher → C) (c : M A) :
  (∀ st st', f st' = f st → g st' = g st) → keeps f c → keeps g c.
Proof. intros Hfg Hc st a st' H. eauto. Qed.

Lemma callRunFunc_recorded : keeps recorded (callRunFunc engine).
Proof.
  apply (keeps_weaken rest); [|apply callRunFunc_rest].
  intros st st' H. unfold recorded. by injection H as _ _ _ _ _ _ -> -> _.
Qed.

Lemma releaseInstance_recorded runner : keeps recorded (releaseInstance runner).
Proof. unfold releaseInstance, setEntry. repeat (keeps_step || apply keeps_entry). Qed.

Lemma endHandler_recorded runner code : keeps recorded (endHandler engine runner code).
Proof.
  unfold endHandler, handleEvent, resolve.
  repeat (keeps_step || apply releaseInstance_recorded || apply callRunFunc_recorded).
Qed.

Lemma validationPhase_recorded group m : keeps recorded (validationPhase group m).
Proof.
  unfold validationPhase, firstSpec, updValidationState, addTestArguments.
  repeat (keeps_step || apply evaluateValidations_keeps).
Qed.

Lemma messageHandler_validation runner m st st' :
  finishedTests st = true → messageHandler runner m st = Ok (tt, st') →
  recorded st' = recorded st.
Proof.
  intros Hphase. unfold messageHandler. rewrite bind_modify.
  set (st1 := upd_hasStartedAnyProcess (λ _, true) st).
  set (m1 := set_m_cid _ m). set (group := getCidGroup _).
  intros H. unbind H as [] st0 Hguard.
  assert (st0 = st1) as ->.
  { revert Hguard. destruct (_ || _)%bool; [done|by intros [= <-]]. }
  unbind H as [] st2 Herror. unbind H as [] st3 Huid. unbind H as m2 st4 Htitle.
  rewrite bind_get in H.
  assert (recorded st4 = recorded st1) as Hrec.
  { transitivity (recorded st3); [|transitivity (recorded st2)].
    - revert Htitle. destruct (_ =? 0); [|by intros [= _ <-]].
      unfold decodeTitle. destruct (m_title m1); by intros [= _ <-].
    - revert Huid. destruct (eventIs m1 "uid:request"); [done|by intros [= <-]].
    - revert Herror. destruct (eventIs m1 "runner:error"); by intros [= <-]. }
  assert (finishedTests st4 = true) as Hphase4.
  { injection Hrec as _ ->. done. }
  rewrite Hphase4 in H. unbind H as m3 st5 Hvalidation.
  apply validationPhase_recorded in Hvalidation.
  injection H as <-. transitivity (recorded st5); [done|]. by rewrite Hvalidation, Hrec.
Qed.

Lemma exitHandler_recorded : keeps recorded exitHandler.
Proof. unfold exitHandler, resolve. keeps_tac. Qed.

Lemma handle_validation ev st st' :
  finishedTests st = true → handle engine ev st = Ok (tt, st') → recorded st' = recorded st.
Proof.
  intros Hphase. destruct ev as [runner code|runner m|]; simpl.
  - apply endHandler_recorded.
  - by apply messageHandler_validation.
  - apply exitHandler_recorded.
Qed.

Lemma handleAll_validation evs st st' :
  finishedTests st = true → handleAll engine evs st = Ok (tt, st') →
  recorded st' = recorded st.
Proof.
  revert st; induction evs as [|ev evs IH]; intros st Hphase; simpl.
  - by intros [= <-].
  - intros H. unbind H as [] st1 Hev.
    apply handle_validation in Hev; [|done].
    rewrite <- Hev. apply IH; [|done]. injection Hev as _ ->. done.
Qed.

Lemma buckets_recorded st1 st2 group story criteria :
  validationResults st2 = validationResults st1 →
  failuresOf st2 group story criteria = failuresOf st1 group story criteria ∧
  successesOf st2 group story criteria = successesOf st1 group story criteria.
Proof. intros H. unfold failuresOf, successesOf, recordOf. by rewrite H. Qed.

Lemma verdict_recorded story criteria group m1 m2 st1 st2 :
  validationResults st2 = validationResults st1 →
  verdict (evaluateValidations story criteria group m2 st2)
  = verdict (evaluateValidations story criteria group m1 st1).
Proof.
  intros H. unfold evaluateValidations. rewrite !bind_get, H.
  destruct (property (validationResults st1) group) as [stories| |]; [|done..].
  destruct (property stories (Js.toString story)) as [record| |]; [|done..].
  destruct (property (failures record) (Js.toString criteria)) as [[|err errs]| |]; [done| |done|].
  - simpl. by destruct (property (screenshots record) (Js.toString criteria)).
  - by destruct (property (successes record) (Js.toString criteria)).
Qed.
End Idempotence.

(** C9.  [evaluateValidations] leaves the launcher, and so the validation
    results, as they are; its classification is a function of the
    validation results alone, so a second call returns the classification
    of the first (or throws as the first did); and no event that the
    launcher processes in the validation phase, the only phase in which
    [evaluateValidations] is called, changes the validation results.  For
    a group, a story and a criteria of ordinary names it returns unless
    the failures bucket of the criteria is an empty array; under a name
    that plain objects inherit a property under it throws where the
    results do not hold the name ([evaluateValidations_inherited]). *)
Theorem classification_is_idempotent (engine : SortEngine)
    (story criteria : option string) (group : string) :
  (∀ m st v m' st',
     evaluateValidations story criteria group m st = Ok (v, m', st') → st' = st) ∧
  (∀ m1 m2 st1 st2,
     validationResults st2 = validationResults st1 →
     verdict (evaluateValidations story criteria group m2 st2)
     = verdict (evaluateValidations story criteria group m1 st1)) ∧
  (∀ evs st st',
     finishedTests st = true → handleAll engine evs st = Ok (tt, st') →
     validationResults st' = validationResults st ∧ finishedTests st' = true) ∧
  (∀ m st,
     ordinary group → ordinary (Js.toString story) → ordinary (Js.toString criteria) →
     failuresOf st group story criteria ≠ Some [] →
     ∃ v m', evaluateValidations story criteria group m st = Ok (v, m', st)).
Proof.
  split_and!.
  - intros m st v m' st' H. by apply (evaluateValidations_keeps id) in H.
  - intros m1 m2 st1 st2. apply verdict_recorded.
  - intros evs st st' Hphase H. apply handleAll_validation in H; [|done].
    injection H as -> ->. done.
  - intros m st Hgroup Hstory Hcriteria Hne.
    pose proof (evaluateValidations_cases story criteria group m st Hgroup Hstory Hcriteria) as H.
    destruct (failuresOf st group story criteria) as [[|err errs]|]; [done| |].
    + destruct H as (m' & H & _). by eexists _, _.
    + destruct (successesOf st group story criteria); [by eexists _, _|].
      destruct H as (m' & H & _). by eexists _, _.
Qed.

(** The criteria is classified, the validator goes on to the next step,
    the user interrupts, and the criteria is classified again. *)
Lemma classification_is_idempotent_witness :
  ∃ st',
    handleAll V8.engine [Message "0-0" (bare "test:pass"); Message "0-0" (bare "step:start");
                         Interrupt] validatingC1 = Ok (tt, st') ∧
    verdict (evaluateValidations (Some "S1") (Some "C1") "0" (bare "test:pass") st')
    = verdict (evaluateValidations (Some "S1") (Some "C1") "0" (bare "test:pass") validatingC1) ∧
    verdict (evaluateValidations (Some "S1") (Some "C1") "0" (bare "test:pass") validatingC1)
    = Ok fail.
Proof.
  eexists. split; [by vm_compute|]. split; [|by vm_compute].
  destruct (classification_is_idempotent V8.engine (Some "S1") (Some "C1") "0")
    as (_ & Hsame & Hkeeps & Hreturns).
  destruct (Hreturns (bare "test:pass") validatingC1) as (v & m' & _); [done..|by vm_compute|].
  apply Hsame.
  match goal with |- validationResults ?s = _ =>
    apply (Hkeeps [Message "0-0" (bare "test:pass"); Message "0-0" (bare "step:start");
                   Interrupt] validatingC1 s) end; by vm_compute.
Defined.

Section StepEnd.
Implicit Types (m : Msg) (st : Launcher).

(** As long as [levelStatus] has no entry deeper than the level below
    the step that ends, the status of the step is as its children and
    the pending failures have it. *)
Lemma onStepEnd_status group m st state :
  stepStates st !! group = Some state →
  0 <= stepLevel state →
  Z.of_nat (length (items (levelStatus state))) <= stepLevel state + 1 →
  ∃ m' st' status,
    onStepEnd group m st = Ok (m', st') ∧
    m_status m' = Some status ∧
    (status = failed ↔ levelBelow state = Some failed ∨ is_Some (pendingFailures st group)) ∧
    (stepLevel <$> stepStates st' !! group) = Some (stepLevel state - 1) ∧
    (is_Some (pendingFailures st group) →
     m_assertionFailures m' = pendingFailures st group ∧
     m_screenshots m' = validationStates st !! group ≫= vs_screenshots ∧
     pendingFailures st' group = None ∧
     validationStates st' !! group ≫= vs_screenshots = None).
Proof.
  intros Hstate Hlevel Hdepth. unfold onStepEnd. rewrite bind_get, Hstate.
  fold (pendingFailures st group).
  destruct (pendingFailures st group) as [pending|] eqn:Hpending.
  - unfold updStepState, updValidationState.
    rewrite !bind_bind, bind_modify, bind_bind, bind_modify, !bind_ret, bind_modify.
    eexists _, _, failed. split; [reflexivity|]. split; [done|].
    split; [split; [right; by eexists|done]|].
    split.
    { simpl. rewrite !lookup_alter_eq, Hstate. done. }
    intros _. unfold pendingFailures. simpl. by rewrite lookup_insert_eq.
  - rewrite bind_ret. unfold updStepState. rewrite bind_modify.
    assert (∃ status,
              (if stepLevel state <? Z.of_nat (length (items (levelStatus state)))
               then lastStatus (levelStatus state) else Some passed) = Some status ∧
              (status = failed ↔ levelBelow state = Some failed ∨ is_Some (@None (list Assertion))))
      as (status & Hstatus & Hiff).
    { unfold levelBelow, lastStatus.
      destruct (Z.ltb_spec (stepLevel state) (Z.of_nat (length (items (levelStatus state)))))
        as [Hlt|Hge].
      - assert (Z.to_nat (stepLevel state) = pred (length (items (levelStatus state))))
          as -> by lia.
        rewrite <- last_lookup.
        destruct (items (levelStatus state)) as [|s l] eqn:Hitems; [simpl in Hlt; lia|].
        destruct (last (s :: l)) as [status|] eqn:Hlast.
        + exists status. split; [done|]. split; [intros ->; by left|].
          intros [[= ->]|[? [=]]]; done.
        + rewrite last_None in Hlast. done.
      - exists passed. split; [done|]. rewrite lookup_ge_None_2 by lia.
        split; [done|]. intros [[=]|[? [=]]]. }
    eexists _, _, status. split; [reflexivity|]. split; [done|]. split; [done|].
    split.
    { simpl. rewrite lookup_alter_eq, Hstate. done. }
    intros []; done.
Qed.
End StepEnd.

(** ** The status of a step *)

(** C7, the code at a failing input.  When the parent step of the events
    above ends, the step level is 1, no assertion failure is pending, and
    [levelStatus] is [passed; failed; passed]: the level below the parent
    holds [failed], from its first child.  The code reads the last entry
    of [levelStatus], which is the entry of the step inside the second
    child, and reports the parent as [passed]. *)
Theorem parent_step_passes_after_failed_child :
  ∃ st st',
    handleAll V8.engine nestedSteps (newLauncher defaults false) = Ok (tt, st) ∧
    stepStates st !! "0"
    = Some {| stepLevel := 1;
              levelStatus := {| items := [passed; failed; passed]; minus_one := None |} |} ∧
    validationStates st !! "0" ≫= assertionFailures = None ∧
    statusesOf "step:end" st = [Some failed; Some passed; Some passed] ∧
    messageHandler "0-0" (bare "step:end") st = Ok (tt, st') ∧
    statusesOf "step:end" st' = [Some failed; Some passed; Some passed; Some passed] ∧
    (stepLevel <$> stepStates st' !! "0") = Some 0.
Proof.
  eexists _, _. split; [by vm_compute|]. split; [by vm_compute|]. split; [by vm_compute|].
  split; [by vm_compute|]. split; [by vm_compute|]. split; by vm_compute.
Qed.

(** ** The aggregate error of a failed test *)

Section Aggregate.

Lemma append_assoc (s1 s2 s3 : string) : (s1 +:+ s2) +:+ s3 = s1 +:+ s2 +:+ s3.
Proof.
  induction s1 as [|a s1 IH]; [done|].
  change (String a ((s1 +:+ s2) +:+ s3) = String a (s1 +:+ s2 +:+ s3)). by rewrite IH.
Qed.

Lemma append_nil_r (s : string) : s +:+ EmptyString = s.
Proof.
  induction s as [|a s IH]; [done|].
  change (String a (s +:+ EmptyString) = String a s). by rewrite IH.
Qed.

Lemma forM_returns {A} (P : Launcher → Prop) (l : list A) (body : A → M unit) st :
  (∀ x st, x ∈ l → P st → ∃ st', body x st = Ok (tt, st') ∧ P st') →
  P st → ∃ st', forM l body st = Ok (tt, st') ∧ P st'.
Proof.
  revert st; induction l as [|x l IH]; intros st Hbody HP; simpl.
  - by exists st.
  - destruct (Hbody x st) as (st1 & Hx & HP1); [by left|done|].
    rewrite (bind_step _ _ _ _ _ Hx). apply IH; [|done].
    intros y st' Hy. apply Hbody. by right.
Qed.

Lemma ensureStory_returns group key st :
  ordinary group → ordinary key →
  is_Some (validationResults st !! group) →
  ∃ st', ensureStory group key st = Ok (tt, st') ∧
         ∃ stories, validationResults st' !! group = Some stories ∧ is_Some (stories !! key).
Proof.
  intros Hgroup Hkey [stories Hs]. unfold ensureStory.
  rewrite bind_get, (property_ordinary _ _ Hgroup), Hs. simpl.
  rewrite (property_ordinary _ _ Hkey).
  destruct (stories !! key) eqn:Hstory; simpl.
  - exists st. split; [done|]. exists stories. by rewrite Hstory.
  - eexists. split; [reflexivity|]. simpl. rewrite lookup_insert_eq.
    eexists. split; [done|]. rewrite lookup_insert_eq. by eexists.
Qed.

Lemma updStory_returns group key f st :
  ordinary group → ordinary key →
  (∀ story, ∃ story', f story = Ok story') →
  (∃ stories, validationResults st !! group = Some stories ∧ is_Some (stories !! key)) →
  ∃ st', updStory group key f st = Ok (tt, st') ∧
         ∃ stories, validationResults st' !! group = Some stories ∧ is_Some (stories !! key).
Proof.
  intros Hgroup Hkey Hf (stories & Hs & [story Hstory]). unfold updStory.
  rewrite bind_get, (property_ordinary _ _ Hgroup), Hs. simpl.
  rewrite (property_ordinary _ _ Hkey), Hstory. simpl.
  destruct (Hf story) as [story' ->]. simpl.
  eexists. split; [reflexivity|]. simpl. rewrite lookup_insert_eq.
  eexists. split; [done|]. rewrite lookup_insert_eq. by eexists.
Qed.

Lemma pushTo_returns {A} criteria (x : A) bucket :
  ordinary criteria → ∃ bucket', pushTo criteria x bucket = Ok bucket'.
Proof.
  intros Hcriteria. unfold pushTo. rewrite (property_ordinary _ _ Hcriteria).
  destruct (bucket !! criteria); by eexists.
Qed.

Lemma fillValidationResults_returns a group st :
  ordinary group → ordinarySpec a →
  is_Some (validationResults st !! group) →
  ∃ st', fillValidationResults a group st = Ok (tt, st') ∧
         is_Some (validationResults st' !! group).
Proof.
  unfold fillValidationResults, ordinarySpec. intros Hgroup Hspec.
  induction Hspec as [|[key criterias] l [Hkey Hcriterias] _ IH] in st |- *; intros Hresults.
  - by exists st.
  - cbn [forM]. simpl in Hkey, Hcriterias.
    destruct (ensureStory_returns group key st Hgroup Hkey Hresults) as (st1 & He & H1).
    rewrite bind_bind, (bind_step _ _ _ _ _ He).
    destruct (forM_returns
                (λ st, ∃ stories, validationResults st !! group = Some stories ∧
                                  is_Some (stories !! key))
                criterias
                (λ criteria,
                   updStory group key
                     (λ story,
                        onOk (λ bucket, set_failures (λ _, bucket) story)
                          (pushTo criteria
                             {| f_matcherName := a_matcherName a;
                                f_message := a_message a;
                                f_expected := a_expected a;
                                f_actual := a_actual a;
                                f_stack := a_stack a |} (failures story)))) st1)
      as (st2 & Hloop & stories & H2 & _); [|done|].
    + intros criteria st' Hin H'. apply updStory_returns; [done..| |done].
      intros story. rewrite Forall_forall in Hcriterias.
      destruct (pushTo_returns criteria
                  {| f_matcherName := a_matcherName a;
                     f_message := a_message a;
                     f_expected := a_expected a;
                     f_actual := a_actual a;
                     f_stack := a_stack a |} (failures story)) as [bucket ->];
        [by apply Hcriterias|].
      by eexists.
    + rewrite (bind_step _ _ _ _ _ Hloop). apply IH. by rewrite H2.
Qed.

Lemma fillValidationResults_butResults a group : keeps butResults (fillValidationResults a group).
Proof. unfold fillValidationResults, ensureStory, updStory. keeps_tac. Qed.

Lemma normalized_specObj a : a_specObj (normalized a) = a_specObj a.
Proof. unfold normalized. destruct (a_stack a); [|done]. by destruct (_ =? 0). Qed.

Lemma handleAssertion_returns a group m st :
  ordinary group → ordinarySpec a →
  is_Some (a_stack a) → is_Some (m_err m) → (∃ errs, m_errs m = Some (ErrsAssertions errs)) →
  is_Some (validationResults st !! group) →
  ∃ st', handleAssertion a group m st = Ok (normalized a, noted (normalized a) m, st') ∧
         is_Some (validationResults st' !! group) ∧ butResults st' = butResults st.
Proof.
  intros Hordinary Hspec [stack Hstack] [err Herr] [errs Herrs] Hgroup.
  assert (ordinarySpec (normalized a)) as Hspec'.
  { unfold ordinarySpec. by rewrite normalized_specObj. }
  revert Hspec'.
  unfold handleAssertion, normalized, noted. rewrite Hstack, Herr, Herrs.
  set (a' := if Js.indexOf (Js.trim stack) "at" =? 0 then a else _). intros Hspec'.
  destruct (a_specObj a') eqn:Hobj.
  - destruct (fillValidationResults_returns a' group st Hordinary Hspec' Hgroup)
      as (st' & Hfill & Hgroup').
    rewrite (bind_step _ _ _ _ _ Hfill). exists st'. split; [done|]. split; [done|].
    by apply fillValidationResults_butResults in Hfill.
  - rewrite bind_ret. by exists st.
Qed.

Lemma noted_fields a m :
  is_Some (m_err m) → (∃ errs, m_errs m = Some (ErrsAssertions errs)) →
  is_Some (m_err (noted a m)) ∧ (∃ errs, m_errs (noted a m) = Some (ErrsAssertions errs)).
Proof.
  intros [err Herr] [errs Herrs]. unfold noted. rewrite Herr, Herrs. simpl.
  split; by eexists.
Qed.

Lemma handleAssertions_returns buffer group m st :
  ordinary group → Forall ordinarySpec buffer →
  Forall (λ a, is_Some (a_stack a)) buffer →
  is_Some (m_err m) → (∃ errs, m_errs m = Some (ErrsAssertions errs)) →
  is_Some (validationResults st !! group) →
  ∃ st', handleAssertions buffer group m st
         = Ok (normalized <$> buffer, foldl (λ m a, noted a m) m (normalized <$> buffer), st') ∧
         is_Some (validationResults st' !! group) ∧ butResults st' = butResults st.
Proof.
  intros Hordinary Hspecs Hstacks. revert m st Hspecs.
  induction Hstacks as [|a buffer Ha _ IH]; intros m st Hspecs Herr Herrs Hgroup; simpl.
  - by exists st.
  - apply Forall_cons in Hspecs as [Hspec Hspecs].
    destruct (handleAssertion_returns a group m st Hordinary Hspec Ha Herr Herrs Hgroup)
      as (st1 & Hone & Hgroup1 & Hrest1).
    rewrite (bind_step _ _ _ _ _ Hone).
    destruct (noted_fields (normalized a) m Herr Herrs) as [Herr1 Herrs1].
    destruct (IH _ st1 Hspecs Herr1 Herrs1 Hgroup1) as (st' & Hall & Hgroup' & Hrest').
    rewrite (bind_step _ _ _ _ _ Hall). exists st'. split; [done|]. split; [done|].
    congruence.
Qed.

(** The message after all the assertions of a buffer are noted. *)
Lemma noted_all l m message stack matcher errs :
  m_err m = Some {| e_message := Some message; e_stack := Some stack;
                    e_matcherName := matcher |} →
  m_errs m = Some (ErrsAssertions errs) →
  let m' := foldl (λ m a, noted a m) m l in
  m_err m' = Some {| e_message := Some (message +:+ aggregate a_message l);
                     e_stack := Some (stack +:+ aggregate a_stack l);
                     e_matcherName := matcher |} ∧
  m_errs m' = Some (ErrsAssertions (errs ++ l)) ∧
  m_event m' = m_event m.
Proof.
  revert m message stack errs.
  induction l as [|a l IH]; intros m message stack errs Herr Herrs; cbn [foldl aggregate].
  - by rewrite !append_nil_r, app_nil_r.
  - edestruct (IH (noted a m)) as (IH1 & IH2 & IH3).
    { unfold noted. rewrite Herr, Herrs. reflexivity. }
    { unfold noted. rewrite Herr, Herrs. reflexivity. }
    cbn [Js.toString] in IH1. rewrite IH1, IH2, IH3.
    rewrite <- !app_assoc, !append_assoc. split_and!; [done..|].
    unfold noted. by rewrite Herr, Herrs.
Qed.

Lemma onTestFail_returns group m st buffers :
  ordinary group →
  stepErrors st !! group = Some buffers →
  Forall ordinarySpec (se_failed buffers ++ se_broken buffers) →
  Forall (λ a, is_Some (a_stack a)) (se_failed buffers ++ se_broken buffers) →
  let all := normalized <$> (se_failed buffers ++ se_broken buffers) in
  ∃ st' m',
    onTestFail group m st = Ok (m', st') ∧
    m_event m' = (if se_broken buffers is [] then m_event m else "test:broken") ∧
    m_err m' = Some {| e_message := dropLastNl (Some (aggregate a_message all));
                       e_stack := dropLastNl (Some (aggregate a_stack all));
                       e_matcherName := m_err m ≫= e_matcherName |} ∧
    m_errs m' = Some (ErrsAssertions all) ∧
    reported st' = reported st ∧
    stepErrors st' = <[group := {| se_failed := normalized <$> se_failed buffers;
                                   se_broken := normalized <$> se_broken buffers |}]>
                       (stepErrors st).
Proof.
  intros Hordinary Hbuffers [Hspecs1 Hspecs2]%Forall_app [Hfailed Hbroken]%Forall_app all.
  unfold onTestFail, ensureResults. rewrite bind_modify, bind_get.
  set (st0 := upd_validationResults _ st).
  change (stepErrors st0) with (stepErrors st). rewrite Hbuffers.
  set (m0 := set_m_err _ (set_m_errs _ m)).
  assert (is_Some (validationResults st0 !! group)) as Hgroup.
  { simpl. rewrite (property_ordinary _ _ Hordinary).
    destruct (validationResults st !! group) eqn:Hg; simpl; [by rewrite Hg|].
    rewrite lookup_insert_eq. by eexists. }
  destruct (handleAssertions_returns (se_failed buffers) group m0 st0)
    as (st1 & Hone & Hgroup1 & Hrest1); [done|done|done|by eexists|by eexists|done|].
  rewrite (bind_step _ _ _ _ _ Hone), bind_modify.
  set (m1 := foldl _ m0 _). set (st1' := upd_stepErrors _ st1).
  destruct (noted_all (normalized <$> se_failed buffers) m0 EmptyString EmptyString
              (m_err m ≫= e_matcherName) [])
    as (Herr1 & Herrs1 & Hev1); [done..|]. fold m1 in Herr1, Herrs1, Hev1.
  destruct (handleAssertions_returns (se_broken buffers) group m1 st1')
    as (st2 & Htwo & Hgroup2 & Hrest2); [done|done|done|by eexists|by eexists|done|].
  rewrite (bind_step _ _ _ _ _ Htwo), bind_modify.
  set (m2 := foldl _ m1 _).
  destruct (noted_all (normalized <$> se_broken buffers) m1 _ _ _ _ Herr1 Herrs1)
    as (Herr2 & Herrs2 & Hev2). fold m2 in Herr2, Herrs2, Hev2.
  rewrite Herr2. eexists _, _. split; [reflexivity|].
  assert (aggregate_app : ∀ text l1 l2,
            aggregate text (l1 ++ l2) = aggregate text l1 +:+ aggregate text l2).
  { clear. intros text l1 l2. induction l1 as [|a l1 IH]; [done|].
    cbn [app aggregate]. by rewrite IH, !append_assoc. }
  split_and!.
  - rewrite length_fmap. destruct (se_broken buffers); simpl; [|done].
    by rewrite Hev2, Hev1.
  - destruct (0 <? _)%nat; simpl; unfold all;
      by rewrite fmap_app, !aggregate_app.
  - destruct (0 <? _)%nat; simpl; unfold all; by rewrite Herrs2, fmap_app.
  - simpl. injection Hrest2 as _ _ _ _ _ _ _ _ _ _ _ _ _ _ _ _ _ _ -> _. simpl.
    by injection Hrest1 as _ _ _ _ _ _ _ _ _ _ _ _ _ _ _ _ _ _ -> _.
  - simpl. injection Hrest2 as _ _ _ _ _ _ _ _ _ _ _ _ _ _ _ -> _ _ _ _. simpl.
    injection Hrest1 as _ _ _ _ _ _ _ _ _ _ _ _ _ _ _ -> _ _ _ _. simpl.
    by rewrite insert_insert_eq.
Qed.
End Aggregate.

Section Buffers.
Implicit Types (m : Msg) (st : Launcher) (a : Assertion).

Lemma lastIndexOfFrom_snoc c s i acc :
  Js.lastIndexOfFrom c (s +:+ String c EmptyString) i acc = i + Z.of_nat (String.length s).
Proof.
  revert i acc. induction s as [|b s IH]; intros i acc.
  - change ((EmptyString +:+ String c EmptyString)%string) with (String c EmptyString).
    cbn [Js.lastIndexOfFrom].
    rewrite Ascii.eqb_refl. simpl. lia.
  - change ((String b s +:+ String c EmptyString)%string) with (String b (s +:+ String c EmptyString)).
    cbn [Js.lastIndexOfFrom String.length]. rewrite IH. lia.
Qed.

Lemma substring_prefix s t :
  String.substring 0 (String.length s) (s +:+ t) = s.
Proof.
  induction s as [|b s IH].
  - change ((EmptyString +:+ t)%string) with t. simpl. by destruct t.
  - change ((String b s +:+ t)%string) with (String b (s +:+ t)).
    cbn [String.length String.substring]. by rewrite IH.
Qed.

(** The last line feed of a text that ends with one is the one dropped. *)
Lemma dropLastNl_snoc s :
  s ≠ EmptyString → dropLastNl (Some (s +:+ Js.nl)) = Some s.
Proof.
  intros Hs. unfold dropLastNl, Js.lastIndexOf_nl, Js.substring0, Js.nl. cbn [Js.toString].
  rewrite lastIndexOfFrom_snoc.
  destruct s as [|b s]; [done|]. cbn [String.length].
  replace (0 <? 0 + Z.of_nat (S (String.length s))) with true by (symmetry; apply Z.ltb_lt; lia).
  rewrite Z.add_0_l, Nat2Z.id.
  change (S (String.length s)) with (String.length (String b s)).
  by rewrite substring_prefix.
Qed.

(** The aggregate of a buffer that is not empty ends with a blank line,
    of which [dropLastNl] leaves one line feed. *)
Lemma dropLastNl_aggregate text l :
  l ≠ [] →
  ∃ body, aggregate text l = body +:+ Js.nl +:+ Js.nl ∧
          dropLastNl (Some (aggregate text l)) = Some (body +:+ Js.nl).
Proof.
  intros Hl.
  assert (∃ body, aggregate text l = body +:+ Js.nl +:+ Js.nl) as [body Hbody].
  { induction l as [|a l IH]; [done|]. cbn [aggregate].
    destruct l as [|a' l].
    - exists (Js.toString (text a)). cbn [aggregate]. by rewrite append_nil_r.
    - destruct IH as [body Hbody]; [done|].
      exists (Js.toString (text a) +:+ Js.nl +:+ Js.nl +:+ body).
      rewrite Hbody. by rewrite !append_assoc. }
  exists body. split; [done|]. rewrite Hbody, <- append_assoc.
  apply dropLastNl_snoc. destruct body; done.
Qed.

(** A [step:failed] or [step:broken] event that is handled puts its
    assertion, with the patched stack, at the end of the buffer of its
    tag, and leaves the reports alone. *)
Lemma onStepError_inv c group m st m' st' :
  onStepError c group m st = Ok (m', st') →
  ∃ a buffers,
    m_assertion m' = Some a ∧ is_Some (a_stack a) ∧
    m_event m' = m_event m ∧ m_cid m' = m_cid m ∧
    stepErrors st !! group = Some buffers ∧
    st' = upd_stepErrors
            <[group := if eventIs m "step:broken"
                       then {| se_failed := se_failed buffers;
                               se_broken := se_broken buffers ++ [a] |}
                       else {| se_failed := se_failed buffers ++ [a];
                               se_broken := se_broken buffers |}]> st.
Proof.
  unfold onStepError. destruct (m_assertion m) as [a|]; [|done].
  intros H. unbind H as stack st1 Hstack.
  assert (st1 = st) as -> by (by apply (getPatchedStack_keeps id) in Hstack).
  rewrite bind_get in H.
  destruct (stepErrors st !! group) as [buffers|] eqn:Hbuffers; [|done].
  rewrite bind_modify in H. injection H as <- <-.
  eexists _, buffers. split_and!; (done || by eexists).
Qed.
End Buffers.

(** ** The buffers and the events that fill them *)

Section Aside.
Context (engine : SortEngine) (g : string).

Lemma stepAssertions_app tag l1 l2 :
  stepAssertions tag g (l1 ++ l2) = stepAssertions tag g l1 ++ stepAssertions tag g l2.
Proof. apply omap_app. Qed.

Lemma aside_refl st : aside g st st.
Proof. split_and!; [done..|]. exists []. by rewrite app_nil_r. Qed.

Lemma aside_trans st1 st2 st3 : aside g st1 st2 → aside g st2 st3 → aside g st1 st3.
Proof.
  intros (H1 & H2 & l1 & H3 & H4 & H5) (H1' & H2' & l2 & H3' & H4' & H5').
  split_and!; [congruence..|]. exists (l1 ++ l2).
  rewrite H3', H3, <- app_assoc, !stepAssertions_app, H4, H5, H4', H5'. done.
Qed.

Lemma aside_same st st' :
  stepErrors st' !! g = stepErrors st !! g → finishedTests st' = finishedTests st →
  reported st' = reported st → aside g st st'.
Proof. intros H1 H2 H3. split_and!; [done..|]. exists []. by rewrite app_nil_r. Qed.

Lemma quiet_ret {A} (a : A) : quiet g (ret a).
Proof. intros st a' st' [= _ <-]. apply aside_refl. Qed.

Lemma quiet_throw {A} e : quiet g (@throw A e).
Proof. by intros st a st'. Qed.

Lemma quiet_get : quiet g get.
Proof. intros st a st' [= _ <-]. apply aside_refl. Qed.

Lemma quiet_lift {A} (r : result A) : quiet g (lift r).
Proof. intros st a st'. unfold lift. destruct r; [|done]. intros [= _ <-]. apply aside_refl. Qed.

Lemma quiet_modify f : (∀ st, aside g st (f st)) → quiet g (modify f).
Proof. intros Hf st a st' [= _ <-]. apply Hf. Qed.

Lemma quiet_bind {A B} (c : M A) (k : A → M B) :
  quiet g c → (∀ a, quiet g (k a)) → quiet g (bind c k).
Proof.
  intros Hc Hk st b st' H. unbind H as a st1 H1.
  eapply aside_trans; [by eapply Hc|by eapply Hk].
Qed.

Lemma quiet_forM {A} (l : list A) body : (∀ x, quiet g (body x)) → quiet g (forM l body).
Proof.
  intros Hbody. induction l as [|x l IH]; simpl; [apply quiet_ret|].
  apply quiet_bind; [apply Hbody|]. by intros _.
Qed.

Lemma quiet_filterM {A} (l : list A) p : (∀ x, quiet g (p x)) → quiet g (filterM p l).
Proof.
  intros Hp. induction l as [|x l IH]; simpl; [apply quiet_ret|].
  apply quiet_bind; [apply Hp|]. intros b.
  apply quiet_bind; [apply IH|]. intros l'. apply quiet_ret.
Qed.

Lemma quiet_while bound turn : quiet g turn → quiet g (while bound turn).
Proof.
  intros Hturn. induction bound as [|bound IH]; simpl; [apply quiet_throw|].
  apply quiet_bind; [done|]. intros []; [done|apply quiet_ret].
Qed.

Lemma quiet_keeps {A} (c : M A) :
  keeps (λ st, (stepErrors st, finishedTests st, reported st)) c → quiet g c.
Proof.
  intros Hc st a st' H. apply Hc in H. injection H as H1 H2 H3.
  apply aside_same; congruence.
Qed.

(** A report that is no assertion of the group under either tag. *)
Lemma quiet_handleEvent ev p :
  stepAssertions "step:failed" g [{| r_event := ev; r_payload := p |}] = [] →
  stepAssertions "step:broken" g [{| r_event := ev; r_payload := p |}] = [] →
  quiet g (handleEvent ev p).
Proof.
  intros H1 H2 st a st' [= _ <-]. split_and!; [done..|].
  eexists [_]. split; [reflexivity|]. by split.
Qed.

Lemma stepAssertions_plain tag m m' :
  eventIs m tag = false →
  stepAssertions tag g [{| r_event := m_event m; r_payload := PMessage m' |}] = [].
Proof. unfold stepAssertions, eventIs. simpl. by intros ->. Qed.

Lemma quiet_report m m' :
  plain m → quiet g (handleEvent (m_event m) (PMessage m')).
Proof. intros [H1 H2]. apply quiet_handleEvent; by apply stepAssertions_plain. Qed.

End Aside.

Ltac quiet_modify_tac :=
  apply quiet_modify; intros ?; apply aside_same; reflexivity.

Ltac quiet_step :=
  lazymatch goal with
  | |- quiet _ (bind _ _) => apply quiet_bind; [|intros ?]
  | |- quiet _ (ret _) => apply quiet_ret
  | |- quiet _ (throw _) => apply quiet_throw
  | |- quiet _ get => apply quiet_get
  | |- quiet _ (lift _) => apply quiet_lift
  | |- quiet _ (modify _) => quiet_modify_tac
  | |- quiet _ (forM _ _) => apply quiet_forM; intros ?
  | |- quiet _ (filterM _ _) => apply quiet_filterM; intros ?
  | |- quiet _ (while _ _) => apply quiet_while
  | |- quiet _ (match ?x with _ => _ end) => destruct x
  end.

Section Tracking.
Context (engine : SortEngine) (g : string).

Lemma getPatchedStack_quiet source c : quiet g (getPatchedStack source c).
Proof. apply quiet_keeps, getPatchedStack_keeps. Qed.

Lemma entry_quiet r : quiet g (entry r).
Proof. apply quiet_keeps, keeps_entry. Qed.

Lemma startSpecs_report runner tag :
  stepAssertions tag g [{| r_event := "startSpecs"; r_payload := PStartSpecs runner |}] = [].
Proof. done. Qed.

Lemma end_report sigint code tag :
  stepAssertions tag g [{| r_event := "end"; r_payload := PEnd sigint code |}] = [].
Proof. done. Qed.

Lemma callRunFunc_quiet : quiet g (callRunFunc engine).
Proof.
  unfold callRunFunc, runTestcases, runSpecs, testcaseTurn, specTurn,
    schedulableTestcases, schedulableSpecs, bailFilter, hasAvailableInstances,
    hasTestcases, hasSpecs, belowMaxInstances, dispatchTestcase, dispatchSpec,
    shiftTestcases, shiftSpecs, occupyInstance, setEntry, startRunnerInstance,
    startValidatorInstance, getRunnerId.
  repeat (quiet_step || apply entry_quiet
          || (apply quiet_handleEvent; apply startSpecs_report)).
Qed.

Lemma endHandler_quiet runner code : quiet g (endHandler engine runner code).
Proof.
  unfold endHandler, releaseInstance, setEntry, resolve.
  repeat (quiet_step || apply entry_quiet || apply callRunFunc_quiet
          || (apply quiet_handleEvent; apply end_report)).
Qed.

Lemma exitHandler_quiet : quiet g exitHandler.
Proof. unfold exitHandler, resolve. repeat quiet_step. Qed.

Lemma fillValidationResults_quiet a group : quiet g (fillValidationResults a group).
Proof. unfold fillValidationResults, ensureStory, updStory. repeat quiet_step. Qed.

(** What a handler that returns a message leaves of its event tag. *)
Lemma handleAssertions_event l group m st l' m' st' :
  handleAssertions l group m st = Ok (l', m', st') → m_event m' = m_event m.
Proof.
  revert m st l' m' st'. induction l as [|a l IH]; intros m st l' m' st'; simpl.
  - by intros [= _ <- _].
  - intros H. unbind H as [a1 m1] st1 Hone. unbind H as [l2 m2] st2 Hrest.
    injection H as _ <- _. apply IH in Hrest. rewrite Hrest.
    revert Hone. unfold handleAssertion. destruct (a_stack a); [|done].
    intros Hone. unbind Hone as [] st0 Hfill.
    destruct (m_err m), (m_errs m) as [[]|]; try done. by injection Hone as _ <- _.
Qed.

Lemma handleAssertions_quiet l group m : quiet g (handleAssertions l group m).
Proof.
  revert m; induction l as [|a l IH]; intros m; simpl; [apply quiet_ret|].
  apply quiet_bind.
  - unfold handleAssertion. repeat (quiet_step || apply fillValidationResults_quiet).
  - intros [a' m']. apply quiet_bind; [apply IH|]. intros [l' m'']. apply quiet_ret.
Qed.

Lemma quiet_insert group x :
  group ≠ g → quiet g (modify (upd_stepErrors <[group := x]>)).
Proof.
  intros Hne. apply quiet_modify. intros st. apply aside_same; [|done..].
  simpl. by rewrite lookup_insert_ne.
Qed.

Lemma onTestStart_quiet c group m :
  group ≠ g → quiet g (onTestStart c group m).
Proof.
  intros Hne. unfold onTestStart, firstSpec, forgetStack.
  repeat (quiet_step || apply (quiet_insert _ _ Hne)).
Qed.

Lemma onTestStart_event c group m st m' st' :
  onTestStart c group m st = Ok (m', st') → m_event m' = m_event m.
Proof.
  unfold onTestStart, firstSpec, forgetStack. destruct (m_specs m); [|done].
  rewrite bind_ret, !bind_modify, bind_bind, !bind_modify. by intros [= <- _].
Qed.

Lemma onTestFail_quiet group m :
  group ≠ g → quiet g (onTestFail group m).
Proof.
  intros Hne. unfold onTestFail, ensureResults.
  repeat (quiet_step || apply handleAssertions_quiet || apply (quiet_insert _ _ Hne)).
Qed.

Lemma onTestFail_event group m st m' st' :
  onTestFail group m st = Ok (m', st') →
  m_event m' = m_event m ∨ m_event m' = "test:broken".
Proof.
  unfold onTestFail, ensureResults. rewrite bind_modify, bind_get.
  match goal with |- context [stepErrors ?s !! group] =>
    destruct (stepErrors s !! group) as [buffers|]; [|done] end.
  intros H. unbind H as [l1 m1] st1 H1. rewrite bind_modify in H.
  unbind H as [l2 m2] st2 H2. rewrite bind_modify in H.
  apply handleAssertions_event in H1, H2. simpl in H1.
  injection H as <- _.
  destruct (0 <? length l2)%nat; [by right|]. left.
  destruct (m_err m2); simpl; congruence.
Qed.

Lemma prepareStepState_quiet group : quiet g (prepareStepState group).
Proof. unfold prepareStepState. repeat quiet_step. Qed.

Lemma onStepStart_quiet c group : quiet g (onStepStart c group).
Proof. unfold onStepStart, updStepState, forgetStack. repeat quiet_step. Qed.

Lemma onStepEnd_quiet group m : quiet g (onStepEnd group m).
Proof. unfold onStepEnd, updStepState, updValidationState. repeat quiet_step. Qed.

Lemma onStepEnd_event group m st m' st' :
  onStepEnd group m st = Ok (m', st') → m_event m' = m_event m.
Proof.
  unfold onStepEnd, updStepState, updValidationState. rewrite bind_get.
  destruct (stepStates st !! group); [|done].
  destruct (validationStates st !! group ≫= assertionFailures);
    rewrite ?bind_bind, ?bind_modify, ?bind_ret; by intros [= <- _].
Qed.

Lemma validateFailures_quiet c group key criterias a :
  quiet g (validateFailures c group key criterias a).
Proof.
  revert a; induction criterias as [|criteria criterias IH]; intros a; simpl;
    [apply quiet_ret|].
  unfold updStory, updValidationState.
  repeat (quiet_step || apply getPatchedStack_quiet || apply IH).
Qed.

Lemma validateFailureKeys_quiet c group specObj a m :
  plain m → quiet g (validateFailureKeys c group specObj a m).
Proof.
  intros Hplain. revert a; induction specObj as [|[key criterias] specObj IH]; intros a; simpl;
    [apply quiet_ret|].
  unfold ensureStory.
  repeat (quiet_step || apply validateFailures_quiet || apply IH
          || apply (quiet_report g m _ Hplain)).
Qed.

Lemma onValidate_quiet c group m : plain m → quiet g (onValidate c group m).
Proof.
  intros Hplain. unfold onValidate, ensureResults, ensureStory, updStory, updValidationState.
  repeat (quiet_step || apply (validateFailureKeys_quiet _ _ _ _ _ Hplain)).
Qed.

Lemma decodeTitle_inv m st m' st' :
  decodeTitle m st = Ok (m', st') →
  st' = st ∧ m_event m' = m_event m ∧ m_cid m' = m_cid m ∧ m_assertion m' = m_assertion m.
Proof. unfold decodeTitle. destruct (m_title m); try done; by intros [= <- <-]. Qed.

(** The execution phase for a message that is no step error, and that
    neither starts nor fails a test of the group. *)
Lemma executionPhase_aside c group m :
  plain m →
  (group = g → eventIs m "test:start" = false ∧ eventIs m "test:fail" = false) →
  quiet g (executionPhase c group m).
Proof.
  intros Hplain Hother. unfold executionPhase.
  assert (∀ m', m_event m' = m_event m ∨ m_event m' = "test:broken" → plain m') as Hkeep.
  { intros m' [He|He]; unfold plain, eventIs; rewrite He; [apply Hplain|done]. }
  apply quiet_bind.
  { destruct (eventIs m "runner:currentStack"); [|apply quiet_ret].
    unfold onCurrentStack. repeat quiet_step. }
  intros _. apply quiet_bind.
  { destruct (eventIs m "runner:aftercommand"); [|apply quiet_ret].
    unfold onAfterCommand. repeat quiet_step. }
  intros _ st b st' H.
  unbind H as m1 st1 H1.
  assert (aside g st st1 ∧ m_event m1 = m_event m) as [Ha1 He1].
  { destruct (eventIs m "test:start") eqn:Hstart.
    - split; [|by eapply onTestStart_event]. eapply onTestStart_quiet; [|done].
      intros ->. by destruct Hother as [Hs _]; [done|rewrite Hs in Hstart].
    - injection H1 as <- <-. split; [apply aside_refl|done]. }
  unbind H as m2 st2 H2.
  assert (aside g st1 st2 ∧ (m_event m2 = m_event m ∨ m_event m2 = "test:broken"))
    as [Ha2 He2].
  { unfold eventIs in H2. rewrite He1 in H2. fold (eventIs m "test:fail") in H2.
    destruct (eventIs m "test:fail") eqn:Hfail.
    - split; [|apply onTestFail_event in H2; rewrite He1 in H2; done].
      eapply onTestFail_quiet; [|done].
      intros ->. by destruct Hother as [_ Hf]; [done|rewrite Hf in Hfail].
    - injection H2 as <- <-. split; [apply aside_refl|by left]. }
  pose proof (Hkeep m2 He2) as [Hplain1 Hplain2].
  unbind H as [] st3 H3.
  assert (aside g st2 st3) as Ha3.
  { revert H3. destruct (0 <=? _); [apply prepareStepState_quiet|apply quiet_ret]. }
  unbind H as [] st4 H4.
  assert (aside g st3 st4) as Ha4.
  { revert H4. destruct (eventIs m2 "step:start"); [apply onStepStart_quiet|apply quiet_ret]. }
  rewrite Hplain1, Hplain2 in H. cbn [orb] in H. rewrite bind_ret in H.
  unbind H as m3 st5 H5.
  assert (aside g st4 st5 ∧ m_event m3 = m_event m2) as [Ha5 He5].
  { destruct (eventIs m2 "step:end").
    - split; [by eapply onStepEnd_quiet|by eapply onStepEnd_event].
    - injection H5 as <- <-. split; [apply aside_refl|done]. }
  assert (plain m3) as Hplain3.
  { apply Hkeep. rewrite He5. done. }
  assert (aside g st5 st') as Ha6.
  { revert H. destruct (_ || _)%bool.
    - intros H. unbind H as m4 st6 H6.
      assert (st6 = st') as <- by (by injection H).
      by eapply onValidate_quiet.
    - by apply quiet_report. }
  repeat (eapply aside_trans; [eassumption|]). apply aside_refl.
Qed.

Lemma messageHandler_aside runner m :
  plain m →
  (groupOf runner m = g → eventIs m "test:start" = false ∧ eventIs m "test:fail" = false) →
  ∀ st st', finishedTests st = false → messageHandler runner m st = Ok (tt, st') →
            aside g st st'.
Proof.
  intros Hplain Hother st st' Hphase. unfold messageHandler. rewrite bind_modify.
  fold (cidOf runner m). fold (groupOf runner m).
  set (c := cidOf runner m). set (group := groupOf runner m).
  set (m1 := set_m_cid (Some c) m).
  set (st1 := upd_hasStartedAnyProcess (λ _, true) st).
  intros H. unbind H as [] st0 Hguard.
  assert (st0 = st1) as ->.
  { revert Hguard. destruct (_ || _)%bool; [done|by intros [= <-]]. }
  assert (aside g st st1) as Ha1 by (by apply aside_same).
  unbind H as [] st2 Herror.
  assert (aside g st1 st2) as Ha2.
  { revert Herror. destruct (eventIs m1 "runner:error") eqn:He; [|apply quiet_ret].
    apply quiet_handleEvent; unfold stepAssertions; simpl; done. }
  unbind H as [] st3 Huid.
  assert (st3 = st2) as ->.
  { revert Huid. destruct (eventIs m1 "uid:request"); [done|by intros [= <-]]. }
  unbind H as m2 st4 Htitle.
  assert (st4 = st2 ∧ m_event m2 = m_event m) as [-> He2].
  { revert Htitle. destruct (_ =? 0); [|by intros [= <- <-]].
    intros (-> & He & _)%decodeTitle_inv. done. }
  rewrite bind_get in H.
  assert (finishedTests st2 = false) as Hphase2.
  { destruct Ha2 as (_ & -> & _). done. }
  rewrite Hphase2 in H.
  assert (aside g st2 st') as Ha3.
  { eapply (executionPhase_aside c group m2); [| |done].
    - unfold plain, eventIs. rewrite He2. apply Hplain.
    - unfold eventIs. rewrite He2. apply Hother. }
  eapply aside_trans; [exact Ha1|]. eapply aside_trans; [exact Ha2|exact Ha3].
Qed.

(** A step error that is handled is reported with its assertion, which
    the buffer of its tag receives. *)
Lemma messageHandler_stepError runner m st st' :
  finishedTests st = false →
  eventIs m "step:failed" = true ∨ eventIs m "step:broken" = true →
  messageHandler runner m st = Ok (tt, st') →
  ∃ a m' buffers,
    is_Some (a_stack a) ∧ m_assertion m' = Some a ∧ m_cid m' = Some (cidOf runner m) ∧
    finishedTests st' = false ∧
    reported st' = reported st ++ [{| r_event := m_event m; r_payload := PMessage m' |}] ∧
    stepErrors st !! groupOf runner m = Some buffers ∧
    stepErrors st'
    = <[groupOf runner m := if eventIs m "step:broken"
                            then {| se_failed := se_failed buffers;
                                    se_broken := se_broken buffers ++ [a] |}
                            else {| se_failed := se_failed buffers ++ [a];
                                    se_broken := se_broken buffers |}]> (stepErrors st).
Proof.
  intros Hphase Htag. unfold messageHandler. rewrite bind_modify.
  fold (cidOf runner m). fold (groupOf runner m).
  set (c := cidOf runner m). set (group := groupOf runner m).
  set (m1 := set_m_cid (Some c) m).
  set (st1 := upd_hasStartedAnyProcess (λ _, true) st).
  assert (∃ tag, m_event m1 = tag ∧ (tag = "step:failed" ∨ tag = "step:broken"))
    as (tag & Hev & Htags).
  { unfold eventIs in Htag. destruct Htag as [H%String.eqb_eq|H%String.eqb_eq]; eauto. }
  intros H. unbind H as [] st0 Hguard.
  assert (st0 = st1) as ->.
  { revert Hguard. destruct (_ || _)%bool; [done|by intros [= <-]]. }
  revert H. unfold executionPhase, eventIs.
  change (m_event m) with (m_event m1). rewrite !Hev.
  destruct Htags as [-> | ->]; cbn [String.eqb Ascii.eqb Bool.eqb orb].
  - rewrite !bind_ret.
    change (Js.indexOf "step:failed" "test:" =? 0) with false. cbv iota.
    rewrite bind_ret, bind_get.
    change (finishedTests st1) with (finishedTests st). rewrite Hphase.
    repeat (progress (rewrite ?Hev, ?bind_ret; cbn [String.eqb Ascii.eqb Bool.eqb orb])).
    change (0 <=? Js.indexOf "step:failed" "step:") with true. cbv iota.
    unfold prepareStepState. rewrite bind_modify.
    repeat (progress (rewrite ?Hev, ?bind_ret; cbn [String.eqb Ascii.eqb Bool.eqb orb])).
    intros H. unbind H as m2 st2 Hstep.
    apply onStepError_inv in Hstep as (a & buffers & Ha & Hstack & He2 & Hc2 & Hb & ->).
    repeat (progress (rewrite ?He2, ?Hev, ?bind_ret in H;
                      cbn [String.eqb Ascii.eqb Bool.eqb orb] in H)).
    injection H as <-.
    exists a, m2, buffers. split_and!; try done.
    simpl. unfold eventIs. by rewrite Hev.
  - rewrite !bind_ret.
    change (Js.indexOf "step:broken" "test:" =? 0) with false. cbv iota.
    rewrite bind_ret, bind_get.
    change (finishedTests st1) with (finishedTests st). rewrite Hphase.
    repeat (progress (rewrite ?Hev, ?bind_ret; cbn [String.eqb Ascii.eqb Bool.eqb orb])).
    change (0 <=? Js.indexOf "step:broken" "step:") with true. cbv iota.
    unfold prepareStepState. rewrite bind_modify.
    repeat (progress (rewrite ?Hev, ?bind_ret; cbn [String.eqb Ascii.eqb Bool.eqb orb])).
    intros H. unbind H as m2 st2 Hstep.
    apply onStepError_inv in Hstep as (a & buffers & Ha & Hstack & He2 & Hc2 & Hb & ->).
    repeat (progress (rewrite ?He2, ?Hev, ?bind_ret in H;
                      cbn [String.eqb Ascii.eqb Bool.eqb orb] in H)).
    injection H as <-.
    exists a, m2, buffers. split_and!; try done.
    simpl. unfold eventIs. by rewrite Hev.
Qed.

(** The reports of an assertion of the group under a tag. *)
Lemma stepAssertions_one tag c m' a :
  m_cid m' = Some c → m_assertion m' = Some a →
  stepAssertions tag g [{| r_event := tag; r_payload := PMessage m' |}]
  = if String.eqb (getCidGroup c) g then [a] else [].
Proof.
  intros Hc Ha. unfold stepAssertions. simpl. rewrite String.eqb_refl, Hc, Ha. simpl.
  by destruct (String.eqb _ g).
Qed.

Lemma stepAssertions_other tag tag' m' :
  String.eqb tag' tag = false →
  stepAssertions tag g [{| r_event := tag'; r_payload := PMessage m' |}] = [].
Proof. intros Hne. unfold stepAssertions. simpl. by rewrite Hne. Qed.

(** The buffers of the group follow its step errors: after any event that
    neither starts nor fails a test of the group, they hold what they
    held and, behind it, the assertions that were reported for the group
    under their tag. *)
Lemma handle_buffers ev st st' buffers :
  finishedTests st = false → testOf g ev = false →
  stepErrors st !! g = Some buffers →
  handle engine ev st = Ok (tt, st') →
  finishedTests st' = false ∧
  ∃ news,
    reported st' = reported st ++ news ∧
    Forall (λ a, is_Some (a_stack a))
           (stepAssertions "step:failed" g news ++ stepAssertions "step:broken" g news) ∧
    stepErrors st' !! g
    = Some {| se_failed := se_failed buffers ++ stepAssertions "step:failed" g news;
              se_broken := se_broken buffers ++ stepAssertions "step:broken" g news |}.
Proof.
  intros Hphase Htest Hbuffers H.
  assert (aside g st st' →
          finishedTests st' = false ∧
          ∃ news,
            reported st' = reported st ++ news ∧
            Forall (λ a, is_Some (a_stack a))
                   (stepAssertions "step:failed" g news ++ stepAssertions "step:broken" g news) ∧
            stepErrors st' !! g
            = Some {| se_failed := se_failed buffers ++ stepAssertions "step:failed" g news;
                      se_broken := se_broken buffers ++ stepAssertions "step:broken" g news |})
    as Haside.
  { intros (H1 & H2 & news & H3 & H4 & H5). split; [congruence|].
    exists news. rewrite H1, Hbuffers, H4, H5, !app_nil_r. split_and!; [done..|].
    by destruct buffers. }
  destruct ev as [runner code|runner m|]; simpl in H.
  - by apply Haside, (endHandler_quiet runner code _ _ _ H).
  - destruct (eventIs m "step:failed") eqn:Hfailed;
      [|destruct (eventIs m "step:broken") eqn:Hbroken].
    + destruct (messageHandler_stepError runner m st st' Hphase (or_introl Hfailed) H)
        as (a & m' & buffers' & Hstack & Ha & Hc & Hphase' & Hrep & Hb & Hs).
      assert (m_event m = "step:failed") as Hev by (by apply String.eqb_eq).
      assert (eventIs m "step:broken" = false) as Hbroken by (unfold eventIs; by rewrite Hev).
      rewrite Hbroken in Hs. rewrite Hev in Hrep.
      split; [done|]. eexists [_]. split; [exact Hrep|].
      rewrite (stepAssertions_one _ _ _ _ Hc Ha), (stepAssertions_other "step:broken") by done.
      fold (groupOf runner m). rewrite Hs.
      destruct (String.eqb_spec (groupOf runner m) g) as [Hg|Hg].
      * rewrite Hg, lookup_insert_eq. rewrite Hg, Hbuffers in Hb. injection Hb as <-.
        rewrite !app_nil_r. split; [by apply Forall_singleton|done].
      * rewrite lookup_insert_ne, Hbuffers, !app_nil_r by done.
        split; [done|]. by destruct buffers.
    + destruct (messageHandler_stepError runner m st st' Hphase (or_intror Hbroken) H)
        as (a & m' & buffers' & Hstack & Ha & Hc & Hphase' & Hrep & Hb & Hs).
      assert (m_event m = "step:broken") as Hev by (by apply String.eqb_eq).
      rewrite Hbroken in Hs. rewrite Hev in Hrep.
      split; [done|]. eexists [_]. split; [exact Hrep|].
      rewrite (stepAssertions_one _ _ _ _ Hc Ha), (stepAssertions_other "step:failed") by done.
      fold (groupOf runner m). rewrite Hs.
      destruct (String.eqb_spec (groupOf runner m) g) as [Hg|Hg].
      * rewrite Hg, lookup_insert_eq. rewrite Hg, Hbuffers in Hb. injection Hb as <-.
        rewrite !app_nil_r. split; [by apply Forall_singleton|done].
      * rewrite lookup_insert_ne, Hbuffers, !app_nil_r by done.
        split; [done|]. by destruct buffers.
    + apply Haside. apply (messageHandler_aside runner m); [done| |done..].
      intros Hg. simpl in Htest. rewrite Hg, String.eqb_refl in Htest.
      by apply orb_false_elim in Htest.
  - by apply Haside, (exitHandler_quiet _ _ _ H).
Qed.

Lemma handleAll_buffers evs st st' buffers :
  finishedTests st = false → existsb (testOf g) evs = false →
  stepErrors st !! g = Some buffers →
  handleAll engine evs st = Ok (tt, st') →
  finishedTests st' = false ∧
  ∃ news,
    reported st' = reported st ++ news ∧
    Forall (λ a, is_Some (a_stack a))
           (stepAssertions "step:failed" g news ++ stepAssertions "step:broken" g news) ∧
    stepErrors st' !! g
    = Some {| se_failed := se_failed buffers ++ stepAssertions "step:failed" g news;
              se_broken := se_broken buffers ++ stepAssertions "step:broken" g news |}.
Proof.
  revert st buffers; induction evs as [|ev evs IH]; intros st buffers Hphase Htests Hb H;
    simpl in H.
  - injection H as <-. split; [done|]. exists []. rewrite !app_nil_r.
    split_and!; [done..|]. by destruct buffers.
  - simpl in Htests. apply orb_false_elim in Htests as [Htest Htests].
    unbind H as [] st1 Hev.
    destruct (handle_buffers ev st st1 buffers Hphase Htest Hb Hev)
      as (Hphase1 & news1 & Hrep1 & Hstacks1 & Hb1).
    destruct (IH st1 _ Hphase1 Htests Hb1 H) as (Hphase2 & news2 & Hrep2 & Hstacks2 & Hb2).
    split; [done|]. exists (news1 ++ news2).
    rewrite Hrep2, Hrep1, <- app_assoc, !(stepAssertions_app g), Hb2. simpl.
    rewrite <- !app_assoc. split_and!; [done| |done].
    apply Forall_app in Hstacks1 as [? ?]. apply Forall_app in Hstacks2 as [? ?].
    by repeat (apply Forall_app; split).
Qed.

(** The [test:start] of a group empties its buffers. *)
Lemma testStart_buffers runner m st st' :
  finishedTests st = false → m_event m = "test:start" →
  messageHandler runner m st = Ok (tt, st') →
  finishedTests st' = false ∧
  stepErrors st' !! groupOf runner m = Some {| se_failed := []; se_broken := [] |}.
Proof.
  intros Hphase Hev. unfold messageHandler. rewrite bind_modify.
  fold (cidOf runner m). fold (groupOf runner m).
  set (c := cidOf runner m). set (group := groupOf runner m).
  set (m1 := set_m_cid (Some c) m).
  set (st1 := upd_hasStartedAnyProcess (λ _, true) st).
  assert (m_event m1 = "test:start") as Hev1 by done.
  intros H. unbind H as [] st0 Hguard.
  assert (st0 = st1) as ->.
  { revert Hguard. destruct (_ || _)%bool; [done|by intros [= <-]]. }
  revert H. unfold eventIs. rewrite !Hev1. cbn [String.eqb Ascii.eqb Bool.eqb].
  rewrite !bind_ret.
  change (Js.indexOf "test:start" "test:" =? 0) with true. cbv iota.
  intros H. unbind H as m2 st2 Htitle.
  apply decodeTitle_inv in Htitle as (-> & He2 & _).
  rewrite bind_get in H. change (finishedTests st1) with (finishedTests st) in H.
  rewrite Hphase in H. revert H.
  unfold executionPhase, eventIs.
  repeat (progress (rewrite ?He2, ?Hev1, ?bind_ret; cbn [String.eqb Ascii.eqb Bool.eqb orb])).
  intros H. unbind H as m3 st3 Hstart.
  pose proof (onTestStart_event _ _ _ _ _ _ Hstart) as He3.
  repeat (progress (rewrite ?He3, ?He2, ?Hev1, ?bind_ret in H;
                    cbn [String.eqb Ascii.eqb Bool.eqb orb] in H;
                    try change (0 <=? Js.indexOf "test:start" "step:") with false in H;
                    cbv iota in H)).
  unfold handleEvent in H. injection H as <-.
  revert Hstart. unfold onTestStart, firstSpec, forgetStack. destruct (m_specs m2); [|done].
  rewrite bind_ret, !bind_modify, bind_bind, !bind_modify. intros [= _ <-]. simpl.
  split; [done|]. by rewrite lookup_insert_eq.
Qed.

End Tracking.

Section TestFail.

(** A [test:fail] message by the buffers of its group. *)
Lemma messageHandler_testFail runner m st buffers :
  let group := groupOf runner m in
  let all := normalized <$> (se_failed buffers ++ se_broken buffers) in
  finishedTests st = false →
  m_event m = "test:fail" →
  m_title m ≠ TitleUndecodable →
  ordinary (cidOf runner m) → ordinary group →
  stepErrors st !! group = Some buffers →
  Forall ordinarySpec (se_failed buffers ++ se_broken buffers) →
  Forall (λ a, is_Some (a_stack a)) (se_failed buffers ++ se_broken buffers) →
  ∃ st' m',
    messageHandler runner m st = Ok (tt, st') ∧
    reported st' = reported st ++ [{| r_event := m_event m'; r_payload := PMessage m' |}] ∧
    (m_event m' = "test:broken" ↔ se_broken buffers ≠ []) ∧
    (m_event m' = "test:fail" ↔ se_broken buffers = []) ∧
    m_err m' = Some {| e_message := dropLastNl (Some (aggregate a_message all));
                       e_stack := dropLastNl (Some (aggregate a_stack all));
                       e_matcherName := m_err m ≫= e_matcherName |} ∧
    m_errs m' = Some (ErrsAssertions all).
Proof.
  intros group all Hphase Hev Htitle Hc Hgroup Hbuffers Hspecs Hstacks.
  unfold messageHandler. rewrite bind_modify.
  fold (cidOf runner m). fold (groupOf runner m). fold group.
  set (c := cidOf runner m) in *. rewrite Hc, Hgroup. cbn [orb]. rewrite bind_ret.
  set (m1 := set_m_cid (Some c) m).
  set (st1 := upd_hasStartedAnyProcess (λ _, true) st).
  assert (m_event m1 = "test:fail") as Hev1 by done.
  unfold eventIs. rewrite !Hev1. cbn [String.eqb Ascii.eqb Bool.eqb].
  rewrite !bind_ret.
  change (Js.indexOf "test:fail" "test:" =? 0) with true. cbv iota.
  destruct (decodeTitle_returns m1 st1 Htitle) as (m2 & Hdecode & Hev2 & Herr2 & _).
  rewrite (bind_step _ _ _ _ _ Hdecode), bind_get.
  change (finishedTests st1) with (finishedTests st). rewrite Hphase.
  unfold executionPhase, eventIs. rewrite !Hev2, !Hev1. cbn [String.eqb Ascii.eqb Bool.eqb].
  rewrite !bind_ret.
  destruct (onTestFail_returns group m2 st1 buffers Hgroup Hbuffers Hspecs Hstacks)
    as (st2 & m3 & Hfail & Hev3 & Herr3 & Herrs3 & Hreported & _).
  rewrite Hev2, Hev1. cbn [String.eqb Ascii.eqb Bool.eqb].
  rewrite (bind_step _ _ _ _ _ Hfail).
  rewrite Hev2, Hev1 in Hev3. rewrite Herr2 in Herr3.
  exists (upd_reported (λ l, l ++ [{| r_event := m_event m3; r_payload := PMessage m3 |}]) st2), m3.
  assert (m_event m3 = "test:fail" ∧ se_broken buffers = []
          ∨ m_event m3 = "test:broken" ∧ se_broken buffers ≠ []) as Htag.
  { destruct (se_broken buffers); [by left|by right]. }
  clear Hev3.
  destruct Htag as [[Hev3 Hbroken]|[Hev3 Hbroken]];
    repeat (rewrite ?bind_ret, ?Hev3; cbn [String.eqb Ascii.eqb Bool.eqb orb]);
    [change (0 <=? Js.indexOf "test:fail" "step:") with false
    |change (0 <=? Js.indexOf "test:broken" "step:") with false];
    cbv iota; repeat (rewrite ?bind_ret, ?Hev3; cbn [String.eqb Ascii.eqb Bool.eqb orb]);
    unfold handleEvent; rewrite ?Hev3;
    (split; [done|]); (split; [simpl; by rewrite Hreported|]);
    (split; [done|]); (split; [done|]); done.
Qed.

(** Where the [specObj] of a buffered assertion names a story by a name
    that is inherited, and that the results of the group do not hold,
    with a criteria, [fillValidationResults] throws. *)
Lemma fillValidationResults_inherited a group key criteria criterias specObj st stories :
  a_specObj a = Some ((key, criteria :: criterias) :: specObj) →
  validationResults st !! group = Some stories →
  Js.inherited key = true → stories !! key = None →
  ∃ what, fillValidationResults a group st = Throw (TypeError what).
Proof.
  intros Hobj Hstories Hkey Hnone. unfold fillValidationResults. rewrite Hobj.
  assert (ensureStory group key st = Ok (tt, st)) as He.
  { unfold ensureStory. rewrite bind_get. unfold property at 1.
    by rewrite Hstories, (property_inherited _ _ Hkey Hnone). }
  assert (∀ f, updStory group key f st
               = Throw (TypeError "Cannot use 'in' operator to search in undefined")) as Hu.
  { intros f. unfold updStory. rewrite bind_get. unfold property at 1.
    by rewrite Hstories, (property_inherited _ _ Hkey Hnone). }
  simpl (default _ _). cbn [forM]. cbv beta iota. cbn [forM]. unfold bind.
  rewrite He, Hu. by eexists.
Qed.

End TestFail.

(** C8, as the code has it.  In the execution phase, let a [test:start]
    message of a group be handled, then any events among which no message
    starts or fails a test of the group, and then a [test:fail] message of
    the group.  That message is forwarded to the reporters with one
    aggregate error over the assertions that the [step:failed] and the
    [step:broken] messages of the group have brought since the
    [test:start] (those that the reporters received with them), the ones
    of [step:failed] first: its message and its stack are their messages
    and their stacks, each followed by a blank line, without what follows
    the last line feed; [errs] lists them.  The tag is [test:broken] if
    and only if a [step:broken] message brought one of them; otherwise it
    stays [test:fail].  (The title of the message, when it has one, is one
    that [JSON.parse] decodes; the runner id, its group, and the stories
    and criteria that the assertions name are ordinary names.) *)
Theorem test_fail_is_aggregated (engine : SortEngine) (runner0 runner : string)
    (start m : Msg) (evs : list Event) (st0 st1 st2 : Launcher) :
  let group := groupOf runner m in
  finishedTests st0 = false →
  m_event start = "test:start" → groupOf runner0 start = group →
  messageHandler runner0 start st0 = Ok (tt, st1) →
  existsb (testOf group) evs = false →
  handleAll engine evs st1 = Ok (tt, st2) →
  m_event m = "test:fail" →
  m_title m ≠ TitleUndecodable →
  ordinary (cidOf runner m) → ordinary group →
  ∃ news,
    reported st2 = reported st1 ++ news ∧
    let failedOnes := stepAssertions "step:failed" group news in
    let brokenOnes := stepAssertions "step:broken" group news in
    let all := normalized <$> (failedOnes ++ brokenOnes) in
    (Forall ordinarySpec (failedOnes ++ brokenOnes) →
     ∃ st' m',
       messageHandler runner m st2 = Ok (tt, st') ∧
       reported st' = reported st2 ++ [{| r_event := m_event m'; r_payload := PMessage m' |}] ∧
       (m_event m' = "test:broken" ↔ brokenOnes ≠ []) ∧
       (m_event m' = "test:fail" ↔ brokenOnes = []) ∧
       m_err m' = Some {| e_message := dropLastNl (Some (aggregate a_message all));
                          e_stack := dropLastNl (Some (aggregate a_stack all));
                          e_matcherName := m_err m ≫= e_matcherName |} ∧
       m_errs m' = Some (ErrsAssertions all)).
Proof.
  intros group Hphase Hstart Hgroup0 Hst1 Htests Hst2 Hev Htitle Hc Hgroup.
  destruct (testStart_buffers runner0 start st0 st1 Hphase Hstart Hst1) as [Hphase1 Hb1].
  rewrite Hgroup0 in Hb1.
  destruct (handleAll_buffers engine group evs st1 st2 _ Hphase1 Htests Hb1 Hst2)
    as (Hphase2 & news & Hrep & Hstacks & Hb2).
  exists news. split; [done|]. intros failedOnes brokenOnes all Hspecs.
  simpl in Hb2.
  apply (messageHandler_testFail runner m st2
           {| se_failed := failedOnes; se_broken := brokenOnes |}); done.
Qed.

Lemma test_fail_is_aggregated_witness :
  ∃ st2 st' m',
    handleAll V8.engine
      [Message "0-0" (testStart "login.tc.js");
       Message "0-0" (asserting "step:failed" (expectation "expected 1 to be 2" (Some "toBe")));
       Message "0-0" (asserting "step:broken" (expectation "element not found" None))]
      (newLauncher defaults false) = Ok (tt, st2) ∧
    messageHandler "0-0" (bare "test:fail") st2 = Ok (tt, st') ∧
    reported st' = reported st2 ++ [{| r_event := "test:broken"; r_payload := PMessage m' |}] ∧
    m_event m' = "test:broken" ∧
    (m_err m' ≫= e_message)
    = Some ("expected 1 to be 2" +:+ Js.nl +:+ Js.nl +:+ "element not found" +:+ Js.nl) ∧
    (length <$> m_errs m' ≫= λ errs, if errs is ErrsAssertions l then Some l else None)
    = Some 2%nat.
Proof.
  set (st1 := after (messageHandler "0-0" (testStart "login.tc.js")) (newLauncher defaults false)).
  set (evs := [Message "0-0" (asserting "step:failed" (expectation "expected 1 to be 2" (Some "toBe")));
               Message "0-0" (asserting "step:broken" (expectation "element not found" None))]).
  set (st2 := after (handleAll V8.engine evs) st1).
  destruct (test_fail_is_aggregated V8.engine "0-0" "0-0" (testStart "login.tc.js")
              (bare "test:fail") evs (newLauncher defaults false) st1 st2)
    as (news & Hrep & H); [reflexivity|reflexivity|reflexivity|by vm_compute|reflexivity
                          |by vm_compute|reflexivity|discriminate|reflexivity|reflexivity|].
  assert (news = drop (length (reported st1)) (reported st2)) as Hnews.
  { by rewrite Hrep, drop_app_length. }
  vm_compute in Hnews. subst news.
  destruct H as (st' & m' & Hreturns & Hreported & Hbroken & _ & Herr & Herrs).
  { repeat constructor. }
  assert (m_event m' = "test:broken") as Hev by (by apply Hbroken).
  exists st2, st', m'. rewrite <- Hev at 1.
  split; [by vm_compute|]. split; [done|]. split; [done|]. split; [done|].
  rewrite Herr, Herrs. split; by vm_compute.
Defined.

(** The tag does not follow the matcher names of the buffered assertions:
    an assertion without a matcher name that a [step:failed] event brought
    leaves the tag [test:fail], and an assertion with a matcher name that
    a [step:broken] event brought makes it [test:broken]. *)
Lemma tag_follows_the_buffer_not_the_matcher :
  (∃ st buffers st' m',
     handleAll V8.engine
       [Message "0-0" (testStart "login.tc.js");
        Message "0-0" (asserting "step:failed" (expectation "element not found" None))]
       (newLauncher defaults false) = Ok (tt, st) ∧
     finishedTests st = false ∧
     stepErrors st !! "0" = Some buffers ∧
     Exists (λ a, a_matcherName a = None) (se_failed buffers ++ se_broken buffers) ∧
     messageHandler "0-0" (bare "test:fail") st = Ok (tt, st') ∧
     last (reported st') = Some {| r_event := "test:fail"; r_payload := PMessage m' |} ∧
     m_event m' = "test:fail") ∧
  (∃ st buffers st' m',
     handleAll V8.engine
       [Message "0-0" (testStart "login.tc.js");
        Message "0-0" (asserting "step:broken" (expectation "expected 1 to be 2" (Some "toBe")))]
       (newLauncher defaults false) = Ok (tt, st) ∧
     finishedTests st = false ∧
     stepErrors st !! "0" = Some buffers ∧
     Forall (λ a, is_Some (a_matcherName a)) (se_failed buffers ++ se_broken buffers) ∧
     messageHandler "0-0" (bare "test:fail") st = Ok (tt, st') ∧
     last (reported st') = Some {| r_event := "test:broken"; r_payload := PMessage m' |} ∧
     m_event m' = "test:broken").
Proof.
  split.
  - eexists _, _, _, _. split; [by vm_compute|]. split; [done|]. split; [by vm_compute|].
    split; [by left|]. split; [by vm_compute|]. split; by vm_compute.
  - eexists _, _, _, _. split; [by vm_compute|]. split; [done|]. split; [by vm_compute|].
    split; [repeat constructor; by eexists|]. split; [by vm_compute|]. split; by vm_compute.
Qed.
